(** * yozora-diff-kessan: the tagged-block extraction and diff engine

    A shallow embedding of [app/utils/parseTags.ts] (the extractors
    [parseStage1], [parseStage2], [toDiffSegments], [buildDiffRecords] and
    [computeDiffMetrics]), of the section viewer of
    [app/components/SectionViewer.tsx], of the record map of the Stage 1
    viewer, of the normalizers of the route [api/run] and of the state of
    the hook [usePythonRunner], with the properties the specification
    states about them and properties the code shows besides.

    JavaScript strings are sequences of UTF-16 code units; regular
    expressions are run by a backtracking matcher written in the
    continuation-passing style of the ECMAScript specification; the
    [lastIndex] fields of the four module-level [/g] regular expressions
    are an explicit state threaded through every extractor; the indices
    that [Number.parseInt] reads are rounded to doubles as it rounds
    them. *)

From Stdlib Require Import NArith ZArith Lia Ascii String.
From stdpp Require Import base list gmap sorting.

Open Scope nat_scope.

(** ** Strings *)

(** A string is the list of its UTF-16 code units. *)
Abbreviation jsstring := (list N).

(** An ASCII literal as a [jsstring]. *)
Definition str (s : string) : jsstring :=
  List.map N_of_ascii (list_ascii_of_string s).
Arguments str _%_string : simpl never.

(** A value of type [T | null | undefined]. *)
Inductive optional (A : Type) : Type :=
  | undefined : optional A
  | null : optional A
  | some : A -> optional A.
Arguments undefined {A}.
Arguments null {A}.
Arguments some {A} _.

(** [v ?? d] *)
Definition nullish {A} (v : optional A) (d : A) : A :=
  match v with some a => a | _ => d end.

(** [v ?? w], both possibly absent *)
Definition nullish_or {A} (v w : optional A) : optional A :=
  match v with some a => some a | _ => w end.

(** [o?.f] for a field [f] that may itself be absent; an absent [o] gives
    [undefined]. *)
Definition opt_chain {A B} (o : option A) (f : A -> optional B) : optional B :=
  match o with Some a => f a | None => undefined end.

(** ** Character classes *)

(** [\s]: WhiteSpace and LineTerminator code points; the same set is
    stripped by [String.prototype.trim]. *)
Definition isWhiteSpace (c : N) : bool :=
  ((9 <=? c) && (c <=? 13) || (c =? 32) || (c =? 160) || (c =? 5760)
   || (8192 <=? c) && (c <=? 8202) || (c =? 8232) || (c =? 8233)
   || (c =? 8239) || (c =? 8287) || (c =? 12288) || (c =? 65279))%N.

(** [\d] *)
Definition isDigit (c : N) : bool := ((48 <=? c) && (c <=? 57))%N.

(** [[\s\S]] *)
Definition anyChar (c : N) : bool := true.

(** [[^>]] *)
Definition notGt (c : N) : bool := negb (c =? 62)%N.

(** [\n] *)
Definition isNewline (c : N) : bool := (c =? 10)%N.

(** ** Regular expressions *)

(** The constructs that occur in the source's patterns.  Every quantifier of
    the source applies to a single character class, so [Star] and [Plus]
    carry a class; [Star false] is the lazy [*?]. *)
Inductive regex : Type :=
  | Str (l : jsstring)                 (* a literal run of characters *)
  | Cls (p : N -> bool)                (* one character of a class *)
  | Seq (r1 r2 : regex)                (* r1 r2 *)
  | Alt (r1 r2 : regex)                (* r1|r2 *)
  | Star (greedy : bool) (p : N -> bool) (* [p]* or [p]*? *)
  | Plus (p : N -> bool)               (* [p]+ *)
  | Group (n : nat) (r : regex)        (* the n-th capturing group *)
  | Backref (n : nat)                  (* \n *)
  | Look (r : regex)                   (* (?=r) *)
  | Eos.                               (* $ without the m flag *)

Declare Scope regex_scope.
Delimit Scope regex_scope with re.
Bind Scope regex_scope with regex.
Notation "r1 ;; r2" := (Seq r1 r2) (at level 100, r2 at level 200, right associativity) : regex_scope.

(** Captures: entry [n] is the text of group [n], [None] while the group has
    not taken part in the match (JavaScript's [undefined]). Entry 0 is
    reserved for the whole match. *)
Abbreviation captures := (list (option jsstring)).

(** [w] is a prefix of [inp]: the rest after it. *)
Fixpoint strip_prefix (w inp : jsstring) : option jsstring :=
  match w with
  | [] => Some inp
  | a :: w' =>
      match inp with
      | b :: inp' => if (a =? b)%N then strip_prefix w' inp' else None
      | [] => None
      end
  end.

Definition orelse {A} (x : option A) (y : option A) : option A :=
  match x with Some _ => x | None => y end.

Section Matcher.
Context {R : Type}.

(** [p]* followed by the continuation [k], with backtracking: the greedy
    star first tries one more character, the lazy star first tries [k]. *)
Fixpoint star (greedy : bool) (p : N -> bool) (k : jsstring -> option R)
    (inp : jsstring) : option R :=
  match inp with
  | x :: inp' =>
      if p x then
        if greedy then orelse (star greedy p k inp') (k inp)
        else orelse (k inp) (star greedy p k inp')
      else k inp
  | [] => k []
  end.
End Matcher.

(** The matcher of a pattern: it runs [r] on the input [inp] (the part of
    the subject from the current position on) with captures [c], and passes
    the captures and the remaining input to the continuation [k]; a [None]
    from [k] makes it backtrack into [r]. *)
Fixpoint m (r : regex) (k : captures -> jsstring -> option (captures * jsstring))
    (c : captures) (inp : jsstring) : option (captures * jsstring) :=
  match r with
  | Str l =>
      match strip_prefix l inp with Some inp' => k c inp' | None => None end
  | Cls p =>
      match inp with
      | x :: inp' => if p x then k c inp' else None
      | [] => None
      end
  | Seq r1 r2 => m r1 (m r2 k) c inp
  | Alt r1 r2 => orelse (m r1 k c inp) (m r2 k c inp)
  | Star g p => star g p (k c) inp
  | Plus p =>
      match inp with
      | x :: inp' => if p x then star true p (k c) inp' else None
      | [] => None
      end
  | Group n r =>
      m r (fun c' inp' =>
             k (<[n := Some (take (length inp - length inp') inp)]> c') inp')
        c inp
  | Backref n =>
      match c !! n with
      | Some (Some w) =>
          match strip_prefix w inp with Some inp' => k c inp' | None => None end
      | _ => k c inp
      end
  | Look r =>
      match m r (fun c' inp' => Some (c', inp')) c inp with
      | Some (c', _) => k c' inp
      | None => None
      end
  | Eos => match inp with [] => k c [] | _ => None end
  end.

(** A compiled pattern: the pattern and its number of capturing groups. *)
Record RegExp : Type := mkRegExp { pattern : regex; ngroups : nat }.

(** The array returned by a successful [exec]: [index] and the groups, entry
    0 being the matched text. *)
Record MatchResult : Type := mkMatch { index : nat; groups : captures }.

(** [match[i]] *)
Definition group (mr : MatchResult) (i : nat) : optional jsstring :=
  match groups mr !! i with
  | Some (Some w) => some w
  | _ => undefined
  end.

(** [match.index + match[0].length], the position after the match *)
Definition matchEnd (mr : MatchResult) : nat :=
  index mr + length (nullish (group mr 0) []).

(** The pattern tried at the current position only. *)
Definition matchAt (re : RegExp) (inp : jsstring) : option (captures * jsstring) :=
  m (pattern re) (fun c inp' => Some (c, inp')) (replicate (S (ngroups re)) None) inp.

(** The pattern tried at position [i], then [i+1], ... up to and including
    the end of the subject; [inp] is the subject from [i] on. *)
Fixpoint search (re : RegExp) (i : nat) (inp : jsstring) : option MatchResult :=
  match matchAt re inp with
  | Some (c, rest) =>
      Some (mkMatch i (<[0 := Some (take (length inp - length rest) inp)]> c))
  | None =>
      match inp with
      | [] => None
      | _ :: inp' => search re (S i) inp'
      end
  end.

(** RegExpBuiltinExec on the subject [s] from [lastIndex]: [None] is
    JavaScript's [null]. *)
Definition exec (re : RegExp) (s : jsstring) (lastIndex : nat) : option MatchResult :=
  if length s <? lastIndex then None else search re lastIndex (drop lastIndex s).

(** ** The patterns of [parseTags.ts] *)

Definition ws : N -> bool := isWhiteSpace.

(** [/<Kind\s+(\d+)\s+Desc>\s*([\s\S]*?)<\/Kind\s+\1\s+Desc>/g] *)
Definition blockPattern (kind : jsstring) : regex :=
  (Str (str "<" ++ kind) ;; Plus ws ;; Group 1 (Plus isDigit) ;; Plus ws ;;
   Str (str "Desc>") ;; Star true ws ;; Group 2 (Star false anyChar) ;;
   Str (str "</" ++ kind) ;; Plus ws ;; Backref 1 ;; Plus ws ;;
   Str (str "Desc>"))%re.

(** [const editBlockRegex = /<edit\s+(\d+)\s+Desc>\s*([\s\S]*?)<\/edit\s+\1\s+Desc>/g] *)
Definition editBlockRegex : RegExp := mkRegExp (blockPattern (str "edit")) 2.

(** [const clusterBlockRegex = /<Cluster\s+(\d+)\s+Desc>\s*([\s\S]*?)<\/Cluster\s+\1\s+Desc>/g] *)
Definition clusterBlockRegex : RegExp := mkRegExp (blockPattern (str "Cluster")) 2.

(** [const addDelRegex = /<(add|del)>([\s\S]*?)<\/\1>/g] *)
Definition addDelRegex : RegExp :=
  mkRegExp (Str (str "<") ;; Group 1 (Alt (Str (str "add")) (Str (str "del"))) ;;
            Str (str ">") ;; Group 2 (Star false anyChar) ;;
            Str (str "</") ;; Backref 1 ;; Str (str ">"))%re 2.

(** [const editWrapperRegex = /<edit\s+(\d+)[^>]*>([\s\S]*?)<\/edit\s+\1\s*>/g] *)
Definition editWrapperRegex : RegExp :=
  mkRegExp (Str (str "<edit") ;; Plus ws ;; Group 1 (Plus isDigit) ;;
            Star true notGt ;; Str (str ">") ;; Group 2 (Star false anyChar) ;;
            Str (str "</edit") ;; Plus ws ;; Backref 1 ;; Star true ws ;;
            Str (str ">"))%re 2.

(** The brackets U+3010 and U+3011 of the field labels. *)
Definition lbracket : jsstring := [12304%N].
Definition rbracket : jsstring := [12305%N].

(** [/【Label】([\s\S]*?)(?=【|$)/] *)
Definition fieldRegex (label : regex) : RegExp :=
  mkRegExp (Str lbracket ;; label ;; Str rbracket ;;
            Group 1 (Star false anyChar) ;; Look (Alt (Str lbracket) Eos))%re 1.

(** [/【Fact】([\s\S]*?)(?=【|$)/] *)
Definition factRegex : RegExp := fieldRegex (Str (str "Fact")).
(** [/【(?:Investor Insight|Implication)】([\s\S]*?)(?=【|$)/] *)
Definition insightRegex : RegExp :=
  fieldRegex (Alt (Str (str "Investor Insight")) (Str (str "Implication"))).
(** [/【Theme】([\s\S]*?)(?=【|$)/] *)
Definition themeRegex : RegExp := fieldRegex (Str (str "Theme")).
(** [/【Summary】([\s\S]*?)(?=【|$)/] *)
Definition summaryRegex : RegExp := fieldRegex (Str (str "Summary")).
(** [/【Investor Insight】([\s\S]*?)(?=【|$)/] *)
Definition investorInsightRegex : RegExp := fieldRegex (Str (str "Investor Insight")).

(** ** String methods *)

(** The string without its leading characters of class [p]. *)
Fixpoint dropWhile (p : N -> bool) (s : jsstring) : jsstring :=
  match s with
  | x :: s' => if p x then dropWhile p s' else s
  | [] => []
  end.

(** [s.trim()] *)
Definition trimStart (s : jsstring) : jsstring := dropWhile ws s.
Definition trim (s : jsstring) : jsstring :=
  rev (dropWhile ws (rev (trimStart s))).

(** [s.trim().length > 0] *)
Definition nonBlank (s : jsstring) : bool := 0 <? length (trim s).

(** [s.slice(a, b)] for [0 <= a, b] *)
Definition slice (s : jsstring) (a b : nat) : jsstring := take (b - a) (drop a s).

(** [s.replace(/\s+/g, " ")]: every maximal run of white space becomes one
    space; [in_run] tells that the previous character was white space. *)
Fixpoint replaceWs (in_run : bool) (s : jsstring) : jsstring :=
  match s with
  | [] => []
  | x :: s' =>
      if ws x then (if in_run then replaceWs true s' else 32%N :: replaceWs true s')
      else x :: replaceWs false s'
  end.

(** [const normalizeWhitespace = (value) => value.replace(/\s+/g, " ").trim()] *)
Definition normalizeWhitespace (value : jsstring) : jsstring :=
  trim (replaceWs false value).

(** [s.split(/\n+/)]: [cur] is the piece being read. *)
Fixpoint splitLines (in_sep : bool) (cur s : jsstring) : list jsstring :=
  match s with
  | [] => [cur]
  | x :: s' =>
      if isNewline x then
        (if in_sep then splitLines true cur s' else cur :: splitLines true [] s')
      else splitLines false (cur ++ [x]) s'
  end.

(** [s.includes(t)] *)
Fixpoint includes (s t : jsstring) : bool :=
  match strip_prefix t s with
  | Some _ => true
  | None => match s with [] => false | _ :: s' => includes s' t end
  end.

(** [s.startsWith(t)] *)
Definition startsWith (s t : jsstring) : bool :=
  match strip_prefix t s with Some _ => true | None => false end.

(** The maximal digit runs of [s], in order. *)
Fixpoint digitRuns (cur s : jsstring) : list jsstring :=
  match s with
  | [] => match cur with [] => [] | _ => [cur] end
  | x :: s' =>
      if isDigit x then digitRuns (cur ++ [x]) s'
      else match cur with [] => digitRuns [] s' | _ => cur :: digitRuns [] s' end
  end.

(** [s.match(/\d+/g)]: [None] is [null]. *)
Definition matchDigits (s : jsstring) : option (list jsstring) :=
  match digitRuns [] s with [] => None | l => Some l end.

(** The integer that the leading digits of [s] denote in radix 10. *)
Fixpoint parseDigits (acc : Z) (s : jsstring) : Z :=
  match s with
  | x :: s' => if isDigit x then parseDigits (10 * acc + (Z.of_N x - 48)) s' else acc
  | [] => acc
  end.

(** The Number value of a non-negative integer [n]: [n] itself below 2^53,
    otherwise the double nearest to [n], the one with the even significand
    when two are as near (53 bits are kept of the [Z.log2 n + 1] bits of
    [n]).  A [number] is written as the integer it is, and [+Infinity], the
    value of an integer that rounds to 2^1024 or more, as 2^1024, above
    every finite double: the code compares these values, takes the sign of
    their difference and uses them as keys, and 2^1024 does in all three
    what [+Infinity] does. *)
Definition toNumber (n : Z) : Z :=
  if (n <? 2 ^ 53)%Z then n
  else
    let e := (Z.log2 n - 52)%Z in
    let q := Z.shiftr n e in
    let r := (n - Z.shiftl q e)%Z in
    let half := Z.shiftl 1 (e - 1) in
    let q' := if (r <? half)%Z then q
              else if (half <? r)%Z then (q + 1)%Z
              else if Z.even q then q else (q + 1)%Z in
    Z.min (Z.shiftl q' e) (2 ^ 1024).

(** [Number.parseInt(s, 10)]: the Number value of the integer of the
    leading digits, all digits read (ECMAScript lets an implementation
    read the digits after the 20th as 0; the engines read them all).  Its
    argument is always the first group of a pattern, a non-empty run of
    digits, so the [NaN] of a string without digits does not arise. *)
Definition parseInt10 (s : optional jsstring) : Z :=
  toNumber (parseDigits 0 (nullish s [])).

(** ** The data model of [app/types.ts] *)

Module Stage1Item.
Record t : Type := mk { index : Z; fact : jsstring; insight : jsstring }.
End Stage1Item.

Module Stage2Cluster.
Record t : Type := mk {
  index : Z;
  theme : jsstring;
  summary : jsstring;
  investorInsight : jsstring;
  relatedEdits : list Z
}.
End Stage2Cluster.

Module DiffSegment.
(** ["text" | "add" | "del"] *)
Inductive kind : Type := text | add | del.
Record t : Type := mk { type : kind; content : jsstring }.
End DiffSegment.

Module DiffRecord.
Record t : Type := mk {
  editIndex : Z;
  sectionIndex : Z;
  oldHeading : optional jsstring;
  newHeading : optional jsstring;
  segments : list DiffSegment.t
}.
End DiffRecord.

Module ProcessedSentencePair.
Record t : Type := mk {
  oldHeading : optional jsstring;
  newHeading : optional jsstring;
  processedSentencePair : optional jsstring
}.
End ProcessedSentencePair.

Module SectionContentRecord.
Record t : Type := mk {
  index : Z;
  oldHeading : optional jsstring;
  newHeading : optional jsstring;
  oldContent : optional jsstring;
  newContent : optional jsstring
}.
End SectionContentRecord.

Module DiffMetrics.
Record t : Type := mk { adds : nat; deletes : nat; edits : nat }.
End DiffMetrics.

(** ** The module state: [lastIndex] of the four [/g] patterns *)

Inductive global : Type := gEditBlock | gClusterBlock | gAddDel | gEditWrapper.

Definition regexOf (g : global) : RegExp :=
  match g with
  | gEditBlock => editBlockRegex
  | gClusterBlock => clusterBlockRegex
  | gAddDel => addDelRegex
  | gEditWrapper => editWrapperRegex
  end.

Record RegexState : Type := mkState {
  editBlock_lastIndex : nat;
  clusterBlock_lastIndex : nat;
  addDel_lastIndex : nat;
  editWrapper_lastIndex : nat
}.

(** The state when the module has been loaded. *)
Definition loaded : RegexState := mkState 0 0 0 0.

Definition lastIndex (g : global) (st : RegexState) : nat :=
  match g with
  | gEditBlock => editBlock_lastIndex st
  | gClusterBlock => clusterBlock_lastIndex st
  | gAddDel => addDel_lastIndex st
  | gEditWrapper => editWrapper_lastIndex st
  end.

Definition setLastIndex (g : global) (n : nat) (st : RegexState) : RegexState :=
  match g with
  | gEditBlock =>
      mkState n (clusterBlock_lastIndex st) (addDel_lastIndex st) (editWrapper_lastIndex st)
  | gClusterBlock =>
      mkState (editBlock_lastIndex st) n (addDel_lastIndex st) (editWrapper_lastIndex st)
  | gAddDel =>
      mkState (editBlock_lastIndex st) (clusterBlock_lastIndex st) n (editWrapper_lastIndex st)
  | gEditWrapper =>
      mkState (editBlock_lastIndex st) (clusterBlock_lastIndex st) (addDel_lastIndex st) n
  end.

(** A computation on the module state; [None]: it does not return (a loop
    that has used up its fuel). There is no outcome for an exception: on
    inputs of their types the extractors read properties only of values
    that are not [null] or [undefined], or through [?.] and [??]. *)
Definition M (A : Type) : Type := RegexState -> option (A * RegexState).

Definition ret {A} (a : A) : M A := fun st => Some (a, st).
Definition bind {A B} (x : M A) (f : A -> M B) : M B :=
  fun st => match x st with Some (a, st') => f a st' | None => None end.
Definition diverge {A} : M A := fun _ => None.

Notation "'let*' x := e 'in' k" := (bind e (fun x => k))
  (at level 10, x pattern, e at level 100, k at level 200).

(** [g.exec(s)] for a module-level pattern: a match moves [lastIndex] after
    it, a failure resets [lastIndex] to 0. *)
Definition execG (g : global) (s : jsstring) : M (option MatchResult) :=
  fun st =>
    match exec (regexOf g) s (lastIndex g st) with
    | Some mr => Some (Some mr, setLastIndex g (matchEnd mr) st)
    | None => Some (None, setLastIndex g 0 st)
    end.

(** [while ((match = g.exec(s)) !== null) body], as a fold of [body] over
    the loop variables [acc]. *)
Fixpoint whileExec {A} (fuel : nat) (g : global) (s : jsstring)
    (body : MatchResult -> A -> M A) (acc : A) : M A :=
  match fuel with
  | 0 => diverge
  | S fuel' =>
      let* r := execG g s in
      match r with
      | None => ret acc
      | Some mr => let* acc' := body mr acc in whileExec fuel' g s body acc'
      end
  end.

(** [l.forEach((x, i) => f)] from index [i] on, [acc] the variables [f] updates. *)
Fixpoint forEach {A B} (f : B -> nat -> A -> M A) (l : list B) (i : nat) (acc : A) : M A :=
  match l with
  | [] => ret acc
  | x :: l' => let* acc' := f x i acc in forEach f l' (S i) acc'
  end.

(** ** The extractors *)

(** [!raw] for [raw : string | null | undefined] *)
Definition falsy (raw : optional jsstring) : bool :=
  match raw with some (_ :: _) => false | _ => true end.

(** [body.match(re)?.[1] ?? ""] for a pattern without the [g] flag. *)
Definition firstGroup (re : RegExp) (body : jsstring) : jsstring :=
  nullish (opt_chain (exec re body 0) (fun mt => group mt 1)) [].

(** The body of the loop of [parseStage1]; [results] is the array it pushes to. *)
Definition parseStage1_body (mt : MatchResult) (results : list Stage1Item.t)
    : M (list Stage1Item.t) :=
  let index := parseInt10 (group mt 1) in
  let body := nullish (group mt 2) [] in
  ret (results ++ [Stage1Item.mk index
                     (normalizeWhitespace (firstGroup factRegex body))
                     (normalizeWhitespace (firstGroup insightRegex body))]).

(** [export function parseStage1(raw: string | null | undefined): Stage1Item[]];
    the loop has fuel for one more turn than [raw] has positions. *)
Definition parseStage1 (raw : optional jsstring) : M (list Stage1Item.t) :=
  if falsy raw then ret []
  else
    let raw := nullish raw [] in
    whileExec (S (length raw)) gEditBlock raw parseStage1_body [].

(** The marker of the related-edits line. *)
Definition relatedMarker : jsstring :=
  [35442; 24403; 12377; 12427; 32232; 38598; 30058; 21495]%N.

(** The body of the loop of [parseStage2]. *)
Definition parseStage2_body (mt : MatchResult) (clusters : list Stage2Cluster.t)
    : M (list Stage2Cluster.t) :=
  let index := parseInt10 (group mt 1) in
  let body := nullish (group mt 2) [] in
  let relatedLine :=
    List.find (fun line => includes line relatedMarker) (splitLines false [] body) in
  let relatedEdits :=
    match relatedLine with
    | Some line =>
        match matchDigits line with
        | Some nums => List.map (fun num => parseInt10 (some num)) nums
        | None => []
        end
    | None => []
    end in
  ret (clusters ++ [Stage2Cluster.mk index
                      (normalizeWhitespace (firstGroup themeRegex body))
                      (normalizeWhitespace (firstGroup summaryRegex body))
                      (normalizeWhitespace (firstGroup investorInsightRegex body))
                      relatedEdits]).

(** [export function parseStage2(raw: string | null | undefined): Stage2Cluster[]] *)
Definition parseStage2 (raw : optional jsstring) : M (list Stage2Cluster.t) :=
  if falsy raw then ret []
  else
    let raw := nullish raw [] in
    whileExec (S (length raw)) gClusterBlock raw parseStage2_body [].

(** [type === "add"] *)
Definition isStr (v : optional jsstring) (s : jsstring) : bool :=
  match v with some w => bool_decide (w = s) | _ => false end.

(** The body of the loop of [toDiffSegments], on the loop variables
    [segments] and [lastIndex]. *)
Definition toDiffSegments_body (cleaned : jsstring) (mt : MatchResult)
    (vars : list DiffSegment.t * nat) : M (list DiffSegment.t * nat) :=
  let '(segments, lastIndex) := vars in
  let fullMatch := group mt 0 in
  let type := group mt 1 in
  let content := group mt 2 in
  let segments :=
    if lastIndex <? index mt then
      let plainText := slice cleaned lastIndex (index mt) in
      if nonBlank plainText then segments ++ [DiffSegment.mk DiffSegment.text plainText]
      else segments
    else segments in
  let segments :=
    segments ++ [DiffSegment.mk
                   (if isStr type (str "add") then DiffSegment.add else DiffSegment.del)
                   (nullish content [])] in
  ret (segments, index mt + length (nullish fullMatch [])).

(** [export function toDiffSegments(raw: string): DiffSegment[]] *)
Definition toDiffSegments (raw : jsstring) : M (list DiffSegment.t) :=
  let cleaned := raw in
  let* vars := whileExec (S (length cleaned)) gAddDel cleaned
                 (toDiffSegments_body cleaned) ([], 0) in
  let '(segments, lastIndex) := vars in
  let trailing := drop lastIndex cleaned in
  ret (if nonBlank trailing
       then segments ++ [DiffSegment.mk DiffSegment.text trailing]
       else segments).

(** [results.sort((a, b) => cmp(a, b))].  ECMAScript requires the sort to be
    stable; for a consistent comparator the result is then determined, and
    insertion from the right computes it. *)
Fixpoint sortInsert {A} (cmp : A -> A -> Z) (x : A) (l : list A) : list A :=
  match l with
  | [] => [x]
  | y :: l' => if (cmp x y <=? 0)%Z then x :: y :: l' else y :: sortInsert cmp x l'
  end.
Definition sort {A} (cmp : A -> A -> Z) (l : list A) : list A :=
  foldr (sortInsert cmp) [] l.

(** [(a, b) => a.editIndex - b.editIndex]: the sort reads the sign, which is
    the sign of the difference of the integers; the [NaN] of two
    [+Infinity] counts as 0 in the sort, as the 0 of their difference here. *)
Definition byEditIndex (a b : DiffRecord.t) : Z :=
  (DiffRecord.editIndex a - DiffRecord.editIndex b)%Z.

(** The body of the loop over the edit wrappers of one section. *)
Definition buildDiffRecords_body (pair : ProcessedSentencePair.t) (pairIndex : nat)
    (mt : MatchResult) (results : list DiffRecord.t) : M (list DiffRecord.t) :=
  let editIndex := parseInt10 (group mt 1) in
  let body := nullish (group mt 2) [] in
  let* segments := toDiffSegments body in
  ret (results ++ [DiffRecord.mk editIndex (Z.of_nat pairIndex)
                     (ProcessedSentencePair.oldHeading pair)
                     (ProcessedSentencePair.newHeading pair)
                     segments]).

(** The callback of [pairs.forEach]. *)
Definition buildDiffRecords_each (pair : ProcessedSentencePair.t) (pairIndex : nat)
    (results : list DiffRecord.t) : M (list DiffRecord.t) :=
  let text := nullish (ProcessedSentencePair.processedSentencePair pair) [] in
  whileExec (S (length text)) gEditWrapper text
    (buildDiffRecords_body pair pairIndex) results.

(** [export function buildDiffRecords(pairs: ProcessedSentencePair[] | null | undefined): DiffRecord[]] *)
Definition buildDiffRecords (pairs : optional (list ProcessedSentencePair.t))
    : M (list DiffRecord.t) :=
  match pairs with
  | some ((_ :: _) as pairs) =>
      let* results := forEach buildDiffRecords_each pairs 0 [] in
      ret (sort byEditIndex results)
  | _ => ret []
  end.

(** The body of the loop over the segments of a record. *)
Definition countSegment (acc : DiffMetrics.t) (segment : DiffSegment.t) : DiffMetrics.t :=
  match DiffSegment.type segment with
  | DiffSegment.add =>
      DiffMetrics.mk (DiffMetrics.adds acc + 1) (DiffMetrics.deletes acc) (DiffMetrics.edits acc)
  | DiffSegment.del =>
      DiffMetrics.mk (DiffMetrics.adds acc) (DiffMetrics.deletes acc + 1) (DiffMetrics.edits acc)
  | DiffSegment.text => acc
  end.

(** [export function computeDiffMetrics(records: DiffRecord[]): DiffMetrics] *)
Definition computeDiffMetrics (records : list DiffRecord.t) : DiffMetrics.t :=
  foldl (fun acc record =>
           let acc := foldl countSegment acc (DiffRecord.segments record) in
           DiffMetrics.mk (DiffMetrics.adds acc) (DiffMetrics.deletes acc)
             (DiffMetrics.edits acc + 1))
    (DiffMetrics.mk 0 0 0) records.

(** ** The heading filter of [SectionViewer.tsx] *)

(** [typeof heading === "string" && heading.startsWith("1")] *)
Definition isChapterOneHeading (heading : optional jsstring) : bool :=
  match heading with
  | some h => startsWith h (str "1")
  | _ => false
  end.

(** [sections.forEach((section) => sectionMap.set(section.index, section))] *)
Definition sectionMap (sections : list SectionContentRecord.t)
    : gmap Z SectionContentRecord.t :=
  foldl (fun mp section => <[SectionContentRecord.index section := section]> mp) ∅ sections.

(** [const visibleSections = sections.filter(...)] *)
Definition visibleSections (sections : list SectionContentRecord.t)
    : list SectionContentRecord.t :=
  List.filter (fun section =>
                 isChapterOneHeading (SectionContentRecord.oldHeading section)
                 && isChapterOneHeading (SectionContentRecord.newHeading section))
    sections.

(** The callback of [diffRecords?.filter]. *)
Definition recordInScope (sections : list SectionContentRecord.t) (record : DiffRecord.t)
    : bool :=
  let section := sectionMap sections !! DiffRecord.sectionIndex record in
  let oldHeading :=
    nullish_or (DiffRecord.oldHeading record)
      (opt_chain section SectionContentRecord.oldHeading) in
  let newHeading :=
    nullish_or (DiffRecord.newHeading record)
      (opt_chain section SectionContentRecord.newHeading) in
  isChapterOneHeading oldHeading && isChapterOneHeading newHeading.

(** [const filteredDiffRecords = diffRecords?.filter(...) ?? []] *)
Definition filteredDiffRecords (sections : list SectionContentRecord.t)
    (diffRecords : optional (list DiffRecord.t)) : list DiffRecord.t :=
  match diffRecords with
  | some records => List.filter (recordInScope sections) records
  | _ => []
  end.

(** ** The section viewer of [SectionViewer.tsx] *)

(** [while ((match = re.exec(s)) !== null) body] for a pattern that the
    function creates: its [lastIndex], [li], is a variable of the call and
    starts at 0. *)
Fixpoint whileExecLocal {A} (fuel : nat) (re : RegExp) (s : jsstring) (li : nat)
    (body : MatchResult -> A -> M A) (acc : A) : M A :=
  match fuel with
  | 0 => diverge
  | S fuel' =>
      match exec re s li with
      | None => ret acc
      | Some mr =>
          let* acc' := body mr acc in
          whileExecLocal fuel' re s (matchEnd mr) body acc'
      end
  end.

(** The body of the loop of [toRenderableSegments], on the loop variables
    [segments] and [lastIndex]. *)
Definition toRenderableSegments_body (text : jsstring) (mt : MatchResult)
    (vars : list DiffSegment.t * nat) : M (list DiffSegment.t * nat) :=
  let '(segments, lastIndex) := vars in
  let fullMatch := group mt 0 in
  let body := group mt 2 in
  let segments :=
    if lastIndex <? index mt then
      let plainText := slice text lastIndex (index mt) in
      if nonBlank plainText then segments ++ [DiffSegment.mk DiffSegment.text plainText]
      else segments
    else segments in
  let* inner := toDiffSegments (nullish body []) in
  ret (segments ++ inner, index mt + length (nullish fullMatch [])).

(** [const toRenderableSegments = (text: string): DiffSegment[]]; its
    pattern is a literal of the function, the same as [editWrapperRegex]. *)
Definition toRenderableSegments (text : jsstring) : M (list DiffSegment.t) :=
  let* vars := whileExecLocal (S (length text)) editWrapperRegex text 0
                 (toRenderableSegments_body text) ([], 0) in
  let '(segments, lastIndex) := vars in
  let trailing := drop lastIndex text in
  ret (if nonBlank trailing
       then segments ++ [DiffSegment.mk DiffSegment.text trailing]
       else segments).

(** A string that is not [null], [undefined] or empty. *)
Definition truthy (v : optional jsstring) : bool := negb (falsy v).

(** [processedPairs?.forEach((pair, index) => { if (pair.processedSentencePair)
    processedMap.set(index, pair.processedSentencePair) })] from [index] on *)
Fixpoint processedMap_from (pairs : list ProcessedSentencePair.t) (index : nat)
    (mp : gmap Z jsstring) : gmap Z jsstring :=
  match pairs with
  | [] => mp
  | p :: pairs' =>
      processedMap_from pairs' (S index)
        (if truthy (ProcessedSentencePair.processedSentencePair p)
         then <[Z.of_nat index := nullish (ProcessedSentencePair.processedSentencePair p) []]> mp
         else mp)
  end.
Definition processedMap (processedPairs : optional (list ProcessedSentencePair.t))
    : gmap Z jsstring :=
  processedMap_from (nullish processedPairs []) 0 ∅.

(** [filteredDiffRecords.filter((record) => record.sectionIndex === section.index)] *)
Definition relatedRecords (sections : list SectionContentRecord.t)
    (diffRecords : optional (list DiffRecord.t)) (section : SectionContentRecord.t)
    : list DiffRecord.t :=
  List.filter (fun record =>
                 (DiffRecord.sectionIndex record =? SectionContentRecord.index section)%Z)
    (filteredDiffRecords sections diffRecords).

(** The dash U+2014 shown for a section without content. *)
Definition emDash : jsstring := [8212%N].

(** [section.newContent && section.newContent.length > 0 ? section.newContent
    : section.oldContent || "—"] *)
Definition fallbackContent (section : SectionContentRecord.t) : jsstring :=
  if truthy (SectionContentRecord.newContent section)
     && (0 <? length (nullish (SectionContentRecord.newContent section) []))
  then nullish (SectionContentRecord.newContent section) []
  else if truthy (SectionContentRecord.oldContent section)
       then nullish (SectionContentRecord.oldContent section) []
       else emDash.

(** [processedText ? toRenderableSegments(processedText)
    : relatedRecords.flatMap((record) => record.segments)] *)
Definition combinedSegments (sections : list SectionContentRecord.t)
    (diffRecords : optional (list DiffRecord.t))
    (processedPairs : optional (list ProcessedSentencePair.t))
    (section : SectionContentRecord.t) : M (list DiffSegment.t) :=
  match processedMap processedPairs !! SectionContentRecord.index section with
  | Some ((_ :: _) as processedText) => toRenderableSegments processedText
  | _ => ret (flat_map DiffRecord.segments (relatedRecords sections diffRecords section))
  end.

(** What the card of a visible section shows: its segments when there are
    some, the fallback content otherwise. *)
Definition sectionBody (sections : list SectionContentRecord.t)
    (diffRecords : optional (list DiffRecord.t))
    (processedPairs : optional (list ProcessedSentencePair.t))
    (section : SectionContentRecord.t) : M (list DiffSegment.t + jsstring) :=
  let* combined := combinedSegments sections diffRecords processedPairs section in
  ret (if 0 <? length combined then inl combined else inr (fallbackContent section)).

(** [segment.content.split(/\n+/)] and the [<br />] after every line but the
    last, as the three viewers render a segment: the lines, each with the
    flag of its line break. *)
Definition renderLines (content : jsstring) : list (jsstring * bool) :=
  let lines := splitLines false [] content in
  imap (fun idx line => (line, idx <? length lines - 1)) lines.

(** ** The edit cards of [Stage1Viewer.tsx] *)

(** [(diffRecords ?? []).forEach((record) => { const current =
    map.get(record.editIndex) ?? []; current.push(record);
    map.set(record.editIndex, current) })] *)
Definition recordMap (diffRecords : optional (list DiffRecord.t))
    : gmap Z (list DiffRecord.t) :=
  foldl (fun mp record =>
           let current := default [] (mp !! DiffRecord.editIndex record) in
           <[DiffRecord.editIndex record := current ++ [record]]> mp)
    ∅ (nullish diffRecords []).

(** [const records = recordMap.get(item.index) ?? []] *)
Definition recordsOfItem (diffRecords : optional (list DiffRecord.t)) (item : Stage1Item.t)
    : list DiffRecord.t :=
  default [] (recordMap diffRecords !! Stage1Item.index item).

(** [records[0]?.sectionIndex ?? sectionContents?.[0]?.index ?? 0] *)
Definition primarySectionIndex (diffRecords : optional (list DiffRecord.t))
    (sectionContents : optional (list SectionContentRecord.t)) (item : Stage1Item.t) : Z :=
  match recordsOfItem diffRecords item with
  | record :: _ => DiffRecord.sectionIndex record
  | [] =>
      match sectionContents with
      | some (section :: _) => SectionContentRecord.index section
      | _ => 0%Z
      end
  end.

(** ** The normalizers of the route [api/run] *)

(** An entry of the JSON arrays the route reads, seen through the keys the
    normalizers read and with the type their casts give a value, a string;
    a key that is missing is [undefined], a JSON [null] is [null]. *)
Module RawPair.
Record t : Type := mk {
  oldHeading : optional jsstring;
  old_heading : optional jsstring;
  newHeading : optional jsstring;
  new_heading : optional jsstring;
  processedSentencePair : optional jsstring;
  processed_sentence_pair : optional jsstring;
  oldContent : optional jsstring;
  old_content : optional jsstring;
  newContent : optional jsstring;
  new_content : optional jsstring
}.
End RawPair.

(** [a ?? b ?? null] *)
Definition orNull (a b : optional jsstring) : optional jsstring :=
  nullish_or (nullish_or a b) null.

(** [function normalizeProcessedPairs(raw): ProcessedSentencePair[]] *)
Definition normalizeProcessedPairs (raw : list RawPair.t) : list ProcessedSentencePair.t :=
  List.map (fun pair =>
              ProcessedSentencePair.mk
                (orNull (RawPair.oldHeading pair) (RawPair.old_heading pair))
                (orNull (RawPair.newHeading pair) (RawPair.new_heading pair))
                (some (nullish (nullish_or (RawPair.processedSentencePair pair)
                                  (RawPair.processed_sentence_pair pair)) [])))
    raw.

(** [function normalizeSentencePairs(raw): SectionContentRecord[]] *)
Definition normalizeSentencePairs (raw : list RawPair.t) : list SectionContentRecord.t :=
  imap (fun index pair =>
          SectionContentRecord.mk (Z.of_nat index)
            (orNull (RawPair.oldHeading pair) (RawPair.old_heading pair))
            (orNull (RawPair.newHeading pair) (RawPair.new_heading pair))
            (orNull (RawPair.oldContent pair) (RawPair.old_content pair))
            (orNull (RawPair.newContent pair) (RawPair.new_content pair)))
    raw.

(** [if (processedPairs) { const diffRecords = buildDiffRecords(processedPairs);
    payload.metrics = computeDiffMetrics(diffRecords) }]: the metrics of the
    payload, [None] when the route leaves them out. *)
Definition payloadMetrics (processedPairs : option (list ProcessedSentencePair.t))
    : M (option DiffMetrics.t) :=
  match processedPairs with
  | Some pairs =>
      let* diffRecords := buildDiffRecords (some pairs) in
      ret (Some (computeDiffMetrics diffRecords))
  | None => ret None
  end.

(** ** The state of the hook [usePythonRunner] *)

(** ["idle" | "running" | "success" | "error"] *)
Module RunnerStatus.
Inductive t : Type := idle | running | success | error.
End RunnerStatus.

Module Runner.
(** The three state variables of the hook; [None] is [null]. *)
Record state (P : Type) : Type := mkRunner {
  status : RunnerStatus.t;
  error : option jsstring;
  result : option P
}.
Arguments mkRunner {P} _ _ _.
Arguments status {P} _.
Arguments error {P} _.
Arguments result {P} _.

(** What changes the state: the start of [run], its end with a payload, its
    end in the [catch] with a message, and [reset]. Each is one run of
    synchronous code between two [await]s. *)
Inductive event (P : Type) : Type :=
  | RunStart
  | RunDone (payload : P)
  | RunFailed (message : jsstring)
  | Reset.
Arguments RunStart {P}.
Arguments RunDone {P} _.
Arguments RunFailed {P} _.
Arguments Reset {P}.

(** The state after the [useState] calls. *)
Definition initial {P} : state P := mkRunner RunnerStatus.idle None None.

Definition step {P} (st : state P) (e : event P) : state P :=
  match e with
  | RunStart => mkRunner RunnerStatus.running None (result st)
  | RunDone payload => mkRunner RunnerStatus.success (error st) (Some payload)
  | RunFailed message => mkRunner RunnerStatus.error (Some message) (result st)
  | Reset => mkRunner RunnerStatus.idle None None
  end.

(** The state after a sequence of events. *)
Definition after {P} (events : list (event P)) : state P := foldl step initial events.
End Runner.

(** * Notions of the statements

    What a pattern matches, the matches of a loop, the extractors as
    functions of their input, and the inputs of the examples. *)

(** ** What a pattern matches *)

(** [Matches r c w rest c']: with captures [c], the pattern [r] can consume
    the word [w] in front of the remaining input [rest], leaving captures
    [c']. *)
Inductive Matches : regex -> captures -> jsstring -> jsstring -> captures -> Prop :=
  | MStr l c rest : Matches (Str l) c l rest c
  | MCls p x c rest : p x = true -> Matches (Cls p) c [x] rest c
  | MSeq r1 r2 c w1 c1 w2 c2 rest :
      Matches r1 c w1 (w2 ++ rest) c1 -> Matches r2 c1 w2 rest c2 ->
      Matches (Seq r1 r2) c (w1 ++ w2) rest c2
  | MAltL r1 r2 c w rest c' : Matches r1 c w rest c' -> Matches (Alt r1 r2) c w rest c'
  | MAltR r1 r2 c w rest c' : Matches r2 c w rest c' -> Matches (Alt r1 r2) c w rest c'
  | MStar g p c w rest : Forall (fun x => p x = true) w -> Matches (Star g p) c w rest c
  | MPlus p c w rest :
      w <> [] -> Forall (fun x => p x = true) w -> Matches (Plus p) c w rest c
  | MGroup n r c w rest c' :
      Matches r c w rest c' -> Matches (Group n r) c w rest (<[n := Some w]> c')
  | MBackref n c w rest : c !! n = Some (Some w) -> Matches (Backref n) c w rest c
  | MBackrefUndef n c rest :
      (c !! n = None \/ c !! n = Some None) -> Matches (Backref n) c [] rest c
  | MLook r c w rest' rest c' :
      rest = w ++ rest' -> Matches r c w rest' c' -> Matches (Look r) c [] rest c'
  | MEos c : Matches Eos c [] [] c.

(** ** [exec] *)

(** What a successful [exec] from [li] returns: the subject from [index] on
    is the matched text [w] and a rest; [w] is entry 0 of the groups; the
    pattern matches at no position from [li] up to [index]. *)
Record ExecSpec (re : RegExp) (s : jsstring) (li : nat) (mr : MatchResult)
    (w rest : jsstring) (c : captures) : Prop := {
  es_from : li <= index mr;
  es_bound : index mr <= length s;
  es_split : drop (index mr) s = w ++ rest;
  es_match : matchAt re (w ++ rest) = Some (c, rest);
  es_groups : groups mr = <[0 := Some w]> c;
  es_first : forall j, li <= j < index mr -> matchAt re (drop j s) = None
}.

(** A pattern makes progress when it never matches the empty string. *)
Definition progressing (re : RegExp) : Prop :=
  forall inp c rest, matchAt re inp = Some (c, rest) -> length rest < length inp.

(** ** The [exec] loop *)

(** The successive results of [re.exec(s)] from [lastIndex = li] until the
    first [null]. *)
Inductive Scan (re : RegExp) (s : jsstring) : nat -> list MatchResult -> Prop :=
  | Scan_null li : exec re s li = None -> Scan re s li []
  | Scan_match li mr ms :
      exec re s li = Some mr -> Scan re s (matchEnd mr) ms -> Scan re s li (mr :: ms).

(** The matches of the loop, at most [fuel] of them. *)
Fixpoint execAllFuel (fuel : nat) (re : RegExp) (s : jsstring) (li : nat)
    : list MatchResult :=
  match fuel with
  | 0 => []
  | S fuel' =>
      match exec re s li with
      | None => []
      | Some mr => mr :: execAllFuel fuel' re s (matchEnd mr)
      end
  end.

(** All matches of the loop, as a list: a loop of a pattern that makes
    progress has at most [length s] of them. *)
Definition execAll (re : RegExp) (s : jsstring) (li : nat) : list MatchResult :=
  execAllFuel (S (length s)) re s li.

(** ** The shape of a match of each module-level pattern *)

(** [<ty>content</ty>] with [ty] one of [add], [del]. *)
Definition tagged (ty content : jsstring) : jsstring :=
  str "<" ++ ty ++ str ">" ++ content ++ str "</" ++ ty ++ str ">".

(** A run of characters of a class. *)
Definition isRun (p : N -> bool) (w : jsstring) : Prop := Forall (fun x => p x = true) w.

(** [<Kind ws d ws Desc> ws body </Kind ws d ws Desc>]: the same index token
    [d] in the opening and in the closing tag. *)
Definition blockText (kind d body ws1 ws2 ws3 ws4 ws5 : jsstring) : jsstring :=
  (str "<" ++ kind) ++ ws1 ++ d ++ ws2 ++ str "Desc>" ++ ws3 ++ body ++
  (str "</" ++ kind) ++ ws4 ++ d ++ ws5 ++ str "Desc>".

(** [<edit ws d attrs> body </edit ws d ws>] *)
Definition wrapperText (d attrs body ws1 ws2 ws3 : jsstring) : jsstring :=
  str "<edit" ++ ws1 ++ d ++ attrs ++ str ">" ++ body ++
  str "</edit" ++ ws2 ++ d ++ ws3 ++ str ">".

(** ** The extractors as functions of their input *)

(** The item [parseStage1] pushes for a match. *)
Definition stage1ItemOf (mt : MatchResult) : Stage1Item.t :=
  let body := nullish (group mt 2) [] in
  Stage1Item.mk (parseInt10 (group mt 1))
    (normalizeWhitespace (firstGroup factRegex body))
    (normalizeWhitespace (firstGroup insightRegex body)).

(** The result of [parseStage1] when [editBlockRegex.lastIndex] is [li]. *)
Definition parseStage1_value (raw : optional jsstring) (li : nat) : list Stage1Item.t :=
  if falsy raw then []
  else List.map stage1ItemOf (execAll editBlockRegex (nullish raw []) li).

(** The cluster [parseStage2] pushes for a match. *)
Definition stage2ClusterOf (mt : MatchResult) : Stage2Cluster.t :=
  let body := nullish (group mt 2) [] in
  Stage2Cluster.mk (parseInt10 (group mt 1))
    (normalizeWhitespace (firstGroup themeRegex body))
    (normalizeWhitespace (firstGroup summaryRegex body))
    (normalizeWhitespace (firstGroup investorInsightRegex body))
    match List.find (fun line => includes line relatedMarker) (splitLines false [] body) with
    | Some line =>
        match matchDigits line with
        | Some nums => List.map (fun num => parseInt10 (some num)) nums
        | None => []
        end
    | None => []
    end.

(** The result of [parseStage2] when [clusterBlockRegex.lastIndex] is [li]. *)
Definition parseStage2_value (raw : optional jsstring) (li : nat) : list Stage2Cluster.t :=
  if falsy raw then []
  else List.map stage2ClusterOf (execAll clusterBlockRegex (nullish raw []) li).

(** One turn of the loop of [toDiffSegments] on its variables. *)
Definition segStep (cleaned : jsstring) (mt : MatchResult)
    (vars : list DiffSegment.t * nat) : list DiffSegment.t * nat :=
  let '(segments, lastIndex) := vars in
  let segments :=
    if lastIndex <? index mt then
      let plainText := slice cleaned lastIndex (index mt) in
      if nonBlank plainText then segments ++ [DiffSegment.mk DiffSegment.text plainText]
      else segments
    else segments in
  (segments ++ [DiffSegment.mk
                  (if isStr (group mt 1) (str "add") then DiffSegment.add else DiffSegment.del)
                  (nullish (group mt 2) [])],
   index mt + length (nullish (group mt 0) [])).

(** The trailing text after the loop. *)
Definition segFinish (cleaned : jsstring) (vars : list DiffSegment.t * nat)
    : list DiffSegment.t :=
  let '(segments, lastIndex) := vars in
  if nonBlank (drop lastIndex cleaned)
  then segments ++ [DiffSegment.mk DiffSegment.text (drop lastIndex cleaned)]
  else segments.

(** The result of [toDiffSegments] when [addDelRegex.lastIndex] is [li]. *)
Definition segmentsOf (raw : jsstring) (li : nat) : list DiffSegment.t :=
  segFinish raw (foldl (fun a mt => segStep raw mt a) ([], 0) (execAll addDelRegex raw li)).

(** The record [buildDiffRecords] pushes for a match in a section. *)
Definition recordOf (pair : ProcessedSentencePair.t) (pairIndex : nat) (mt : MatchResult)
    : DiffRecord.t :=
  DiffRecord.mk (parseInt10 (group mt 1)) (Z.of_nat pairIndex)
    (ProcessedSentencePair.oldHeading pair) (ProcessedSentencePair.newHeading pair)
    (segmentsOf (nullish (group mt 2) []) 0).

(** The text of a section. *)
Definition sectionText (pair : ProcessedSentencePair.t) : jsstring :=
  nullish (ProcessedSentencePair.processedSentencePair pair) [].

(** The records of one section, in scan order. *)
Definition sectionRecords (pair : ProcessedSentencePair.t) (pairIndex : nat)
    : list DiffRecord.t :=
  List.map (recordOf pair pairIndex) (execAll editWrapperRegex (sectionText pair) 0).

(** The records of the sections from index [i] on, section after section. *)
Fixpoint allSectionRecords (pairs : list ProcessedSentencePair.t) (i : nat)
    : list DiffRecord.t :=
  match pairs with
  | [] => []
  | p :: pairs' => sectionRecords p i ++ allSectionRecords pairs' (S i)
  end.

(** The result of [buildDiffRecords]. *)
Definition buildDiffRecords_value (pairs : optional (list ProcessedSentencePair.t))
    : list DiffRecord.t :=
  sort byEditIndex (allSectionRecords (nullish pairs []) 0).

(** ** The sort of [buildDiffRecords] *)

(** Ascending [editIndex]. *)
Definition editIndex_le (a b : DiffRecord.t) : Prop :=
  (DiffRecord.editIndex a <= DiffRecord.editIndex b)%Z.

(** The records with [editIndex] [k], in order. *)
Definition withEditIndex (k : Z) (l : list DiffRecord.t) : list DiffRecord.t :=
  List.filter (fun r => (DiffRecord.editIndex r =? k)%Z) l.

(** The edit indices of the wrappers of a section, in scan order. *)
Definition sectionEditIndexes (pair : ProcessedSentencePair.t) : list Z :=
  (fun mt => parseInt10 (group mt 1)) <$> execAll editWrapperRegex (sectionText pair) 0.

(** ** The segment tokenizer, piece by piece *)

(** The tokenizer reads its input as gaps and tagged spans. *)
Inductive piece : Type :=
  | Gap (g : jsstring)                (* text outside the tags *)
  | Span (ty content : jsstring).     (* <ty>content</ty> *)

(** The text a piece stands for in the input. *)
Definition piece_source (p : piece) : jsstring :=
  match p with
  | Gap g => g
  | Span ty content => tagged ty content
  end.

(** The segments a piece gives: a gap gives a [text] segment unless it is
    blank after trimming, a span gives its content as it is. *)
Definition piece_segments (p : piece) : list DiffSegment.t :=
  match p with
  | Gap g => if nonBlank g then [DiffSegment.mk DiffSegment.text g] else []
  | Span ty content =>
      [DiffSegment.mk
         (if bool_decide (ty = str "add") then DiffSegment.add else DiffSegment.del)
         content]
  end.

(** The pieces of [raw] from position [li] on, given the matches [ms] of
    [addDelRegex] from there. *)
Fixpoint piecesOf (raw : jsstring) (li : nat) (ms : list MatchResult) : list piece :=
  match ms with
  | [] => [Gap (drop li raw)]
  | mt :: ms' =>
      Gap (slice raw li (index mt))
      :: Span (nullish (group mt 1) []) (nullish (group mt 2) [])
      :: piecesOf raw (matchEnd mt) ms'
  end.

(** All pieces of [raw]. *)
Definition pieces (raw : jsstring) : list piece :=
  piecesOf raw 0 (execAll addDelRegex raw 0).

(** ** Completeness of the matcher *)

(** Patterns without lookahead. *)
Fixpoint lookFree (r : regex) : bool :=
  match r with
  | Seq r1 r2 | Alt r1 r2 => lookFree r1 && lookFree r2
  | Group _ r => lookFree r
  | Look _ => false
  | _ => true
  end.

(** ** The lazy body of a pattern ends at the first closing tag *)

(** The closing tag [</ty>] of a span. *)
Definition spanClose (ty : jsstring) : jsstring := str "</" ++ ty ++ str ">".

(** The closing tag [</Kind ws d ws Desc>] of a block. *)
Definition closeTag (kind d ws4 ws5 : jsstring) : jsstring :=
  (str "</" ++ kind) ++ ws4 ++ d ++ ws5 ++ str "Desc>".

(** ** The metrics aggregator *)

(** [segment.type === k] *)
Definition hasType (k : DiffSegment.kind) (segment : DiffSegment.t) : bool :=
  match DiffSegment.type segment, k with
  | DiffSegment.text, DiffSegment.text
  | DiffSegment.add, DiffSegment.add
  | DiffSegment.del, DiffSegment.del => true
  | _, _ => false
  end.

(** The number of segments of type [k] in a list of segments. *)
Definition countIn (k : DiffSegment.kind) (segments : list DiffSegment.t) : nat :=
  length (List.filter (hasType k) segments).

(** The number of segments of type [k] in all records. *)
Definition countSegments (k : DiffSegment.kind) (records : list DiffRecord.t) : nat :=
  countIn k (flat_map DiffRecord.segments records).

(** One [add] and one [del] segment around a text. *)
Definition sampleRecord (editIndex sectionIndex : Z) : DiffRecord.t :=
  DiffRecord.mk editIndex sectionIndex null null
    [DiffSegment.mk DiffSegment.del (str "old"); DiffSegment.mk DiffSegment.text (str " to ");
     DiffSegment.mk DiffSegment.add (str "new")].

(** ** The heading filter *)

(** The heading is a string that begins with the chapter prefix ["1"]. *)
Definition chapterOne (heading : optional jsstring) : Prop :=
  exists rest, heading = some (str "1" ++ rest).

(** The heading the filter tests for a record: the record's own, or the one
    of the section with the record's [sectionIndex] when the record has
    none. *)
Definition resolvedHeading (sections : list SectionContentRecord.t) (record : DiffRecord.t)
    (own : DiffRecord.t -> optional jsstring)
    (ofSection : SectionContentRecord.t -> optional jsstring) : optional jsstring :=
  nullish_or (own record)
    (opt_chain (sectionMap sections !! DiffRecord.sectionIndex record) ofSection).

(** A section of chapter 1 and a record of that section without headings
    of its own. *)
Definition chapterOneSection : SectionContentRecord.t :=
  SectionContentRecord.mk 0 (some (str "1. Business Overview"))
    (some (str "1. Business Overview")) null null.
Definition bareRecord : DiffRecord.t := DiffRecord.mk 4 0 null null [].

(** A section outside chapter 1 and a record of it with chapter-1 headings
    of its own. *)
Definition chapterTwoSection : SectionContentRecord.t :=
  SectionContentRecord.mk 3 (some (str "2.1 Overview")) (some (str "2.1 Overview")) null null.
Definition headedRecord : DiffRecord.t :=
  DiffRecord.mk 8 3 (some (str "1. Business Overview")) (some (str "1. Business Overview")) [].

(** ** The diff record builder *)

(** Two sections, one with an edit 5 and one with an edit 2. *)
Definition sectionFive : ProcessedSentencePair.t :=
  ProcessedSentencePair.mk (some (str "1. A")) (some (str "1. A"))
    (some (str "x <edit 5>a<add>b</add></edit 5> y")).
Definition sectionTwo : ProcessedSentencePair.t :=
  ProcessedSentencePair.mk (some (str "1. B")) (some (str "1. B"))
    (some (str "<edit 2><del>c</del></edit 2>")).

(** Two sections whose index tokens differ and are the same Number: 2^53 + 1
    is not a double and is read as 2^53. *)
Definition sectionAbove53 : ProcessedSentencePair.t :=
  ProcessedSentencePair.mk null null
    (some (str "<edit 9007199254740993>a</edit 9007199254740993>")).
Definition sectionAt53 : ProcessedSentencePair.t :=
  ProcessedSentencePair.mk null null
    (some (str "<edit 9007199254740992>b</edit 9007199254740992>")).

(** ** The segment tokenizer *)

(** No [<add>…</add>] or [<del>…</del>] span begins at the front of [s]. *)
Definition noSpanAt (s : jsstring) : Prop :=
  forall ty content tail,
    ty = str "add" \/ ty = str "del" -> s <> tagged ty content ++ tail.

(** [Tokenized s l]: the pieces [l] are the reading of [s] in scan order.
    A span is taken at the first position where one begins, its content
    ends at the first closing tag, and the gaps are what is between. *)
Inductive Tokenized : jsstring -> list piece -> Prop :=
  | Tokenized_last g :
      (forall g1 g2, g = g1 ++ g2 -> noSpanAt g2) ->
      Tokenized g [Gap g]
  | Tokenized_span g ty content rest l :
      ty = str "add" \/ ty = str "del" ->
      (forall g1 g2, g = g1 ++ g2 -> g2 <> [] ->
         noSpanAt (g2 ++ tagged ty content ++ rest)) ->
      (forall c1 c2 tail, content = c1 ++ c2 -> c2 <> [] ->
         c2 ++ spanClose ty ++ rest <> spanClose ty ++ tail) ->
      Tokenized rest l ->
      Tokenized (g ++ tagged ty content ++ rest) (Gap g :: Span ty content :: l).

(** ** What the segments keep of the body *)

(** The contents of the segments, one after the other. *)
Definition contents (segments : list DiffSegment.t) : jsstring :=
  flat_map DiffSegment.content segments.

(** What the segments keep of a piece: nothing of a blank gap, the gap
    otherwise; the content of a span, without its tags. *)
Definition piece_kept (p : piece) : jsstring :=
  match p with
  | Gap g => if nonBlank g then g else []
  | Span _ content => content
  end.

(** A section whose edit 1 holds one inserted word, and the record of that
    edit. *)
Definition insertedSection : ProcessedSentencePair.t :=
  ProcessedSentencePair.mk null null (some (str "<edit 1><add>X</add></edit 1>")).
Definition insertedRecord : DiffRecord.t :=
  DiffRecord.mk 1 0 null null [DiffSegment.mk DiffSegment.add (str "X")].

(** ** The block extractor *)

(** The pattern of the blocks of a kind; [editBlockRegex] and
    [clusterBlockRegex] are its two instances. *)
Definition blockRegex (kind : jsstring) : RegExp := mkRegExp (blockPattern kind) 2.

(** The pair (index, body) the loops of [parseStage1] and [parseStage2]
    read from a match. *)
Definition blockOf (mt : MatchResult) : Z * jsstring :=
  (parseInt10 (group mt 1), nullish (group mt 2) []).

(** The blocks of a kind in [raw], in scan order. *)
Definition blocks (kind : jsstring) (raw : jsstring) : list (Z * jsstring) :=
  List.map blockOf (execAll (blockRegex kind) raw 0).

(** The item [parseStage1] builds from a block. *)
Definition stage1ItemOfBlock (block : Z * jsstring) : Stage1Item.t :=
  Stage1Item.mk (fst block)
    (normalizeWhitespace (firstGroup factRegex (snd block)))
    (normalizeWhitespace (firstGroup insightRegex (snd block))).

(** The text is a block of the kind with the index token [d] in both tags. *)
Definition isBlock (kind d body w : jsstring) : Prop :=
  exists ws1 ws2 ws3 ws4 ws5,
    w = blockText kind d body ws1 ws2 ws3 ws4 ws5 /\
    d <> [] /\ isRun isDigit d /\
    ws1 <> [] /\ isRun ws ws1 /\ ws2 <> [] /\ isRun ws ws2 /\ isRun ws ws3 /\
    ws4 <> [] /\ isRun ws ws4 /\ ws5 <> [] /\ isRun ws ws5.

(** A closing tag of the kind with the index token [d] begins at the front
    of [s]. *)
Definition closesAt (kind d s : jsstring) : Prop :=
  exists ws4 ws5 tail,
    ws4 <> [] /\ isRun ws ws4 /\ ws5 <> [] /\ isRun ws ws5 /\
    s = closeTag kind d ws4 ws5 ++ tail.

(** The opening tag [<Kind ws d ws Desc>] of a block with the white space
    that follows it. *)
Definition isOpenTag (kind d o : jsstring) : Prop :=
  exists ws1 ws2 ws3,
    o = (str "<" ++ kind) ++ ws1 ++ d ++ ws2 ++ str "Desc>" ++ ws3 /\
    d <> [] /\ isRun isDigit d /\
    ws1 <> [] /\ isRun ws ws1 /\ ws2 <> [] /\ isRun ws ws2 /\ isRun ws ws3.

(** The closing tag [</Kind ws d ws Desc>] of a block. *)
Definition isCloseTag (kind d c : jsstring) : Prop :=
  exists ws4 ws5,
    c = closeTag kind d ws4 ws5 /\
    ws4 <> [] /\ isRun ws ws4 /\ ws5 <> [] /\ isRun ws ws5.

(** No block of the kind begins at the front of [s]. *)
Definition noBlockAt (kind s : jsstring) : Prop :=
  forall d body w rest, isBlock kind d body w -> s <> w ++ rest.

(** [BlockRead kind s l]: the pairs [l] of an index token and a body are
    the reading of [s] from left to right.  A block is taken at the first
    position where a block begins, that is, an opening tag that a closing
    tag with the same token follows somewhere; its body begins after the
    white space behind the opening tag and ends at the first closing tag
    with the token; the reading goes on behind that closing tag. *)
Inductive BlockRead (kind : jsstring) : jsstring -> list (jsstring * jsstring) -> Prop :=
  | BlockRead_end s :
      (forall p1 p2, s = p1 ++ p2 -> noBlockAt kind p2) ->
      BlockRead kind s []
  | BlockRead_block pre o d body c rest l :
      isOpenTag kind d o -> isCloseTag kind d c ->
      (forall x t, body = x :: t -> ws x = false) ->
      (forall b1 b2, body = b1 ++ b2 -> b2 <> [] -> ~ closesAt kind d (b2 ++ c ++ rest)) ->
      (forall p1 p2, pre = p1 ++ p2 -> p2 <> [] ->
         noBlockAt kind (p2 ++ o ++ body ++ c ++ rest)) ->
      BlockRead kind rest l ->
      BlockRead kind (pre ++ o ++ body ++ c ++ rest) ((d, body) :: l).

(** The index token and the body of a match. *)
Definition tokenOf (mt : MatchResult) : jsstring * jsstring :=
  (nullish (group mt 1) [], nullish (group mt 2) []).

(** The pair the extractor makes of an index token and a body. *)
Definition blockOfToken (b : jsstring * jsstring) : Z * jsstring :=
  (parseInt10 (some (fst b)), snd b).

(** A block of one word between its tags, and the same with another index
    in the closing tag. *)
Definition balancedInput : jsstring := str "<edit 3 Desc>body</edit 3 Desc>".
Definition mismatchedInput : jsstring := str "<edit 3 Desc>x</edit 4 Desc>".

(** A block 2 inside a block 1. *)
Definition nestedInput : jsstring :=
  str "<edit 1 Desc>a<edit 2 Desc>b</edit 2 Desc>c</edit 1 Desc>".

(** Two blocks one after the other. *)
Definition twoBlocksInput : jsstring :=
  str "<edit 1 Desc>a</edit 1 Desc> <edit 2 Desc>b</edit 2 Desc>".

(** ** The module state between calls *)

(** The states the module can be in between two calls of its extractors. *)
Inductive Reachable : RegexState -> Prop :=
  | Reach_loaded : Reachable loaded
  | Reach_parseStage1 st raw out st' :
      Reachable st -> parseStage1 raw st = Some (out, st') -> Reachable st'
  | Reach_parseStage2 st raw out st' :
      Reachable st -> parseStage2 raw st = Some (out, st') -> Reachable st'
  | Reach_toDiffSegments st raw out st' :
      Reachable st -> toDiffSegments raw st = Some (out, st') -> Reachable st'
  | Reach_buildDiffRecords st pairs out st' :
      Reachable st -> buildDiffRecords pairs st = Some (out, st') -> Reachable st'.

(** A computation run twice in a row. *)
Definition twice {A} (c : M A) : M (A * A) :=
  let* a := c in let* b := c in ret (a, b).

(** ** The normal form of [normalizeWhitespace] *)

(** [spaced b s]: every white-space character of [s] is a U+0020 that does
    not follow a white-space character; [b] tells that a white-space
    character precedes [s]. *)
Fixpoint spaced (b : bool) (s : jsstring) : bool :=
  match s with
  | [] => true
  | x :: s' =>
      if ws x then (x =? 32)%N && negb b && spaced true s' else spaced false s'
  end.

(** The characters of [s] that are not white space, in order. *)
Definition inkOf (s : jsstring) : jsstring := List.filter (fun x => negb (ws x)) s.

(** ** The fields of a block body *)

(** [s.indexOf(t)], [None] for -1: the first position of [s] where [t]
    begins. *)
Fixpoint indexOf (s t : jsstring) : option nat :=
  match strip_prefix t s with
  | Some _ => Some 0
  | None => match s with [] => None | _ :: s' => S <$> indexOf s' t end
  end.

(** The label of a field in its brackets. *)
Definition fieldLabel (label : jsstring) : jsstring := lbracket ++ label ++ rbracket.

(** The text up to the next opening bracket U+3010, or to the end. *)
Fixpoint untilBracket (s : jsstring) : jsstring :=
  match s with
  | [] => []
  | x :: s' => if (x =? 12304)%N then [] else x :: untilBracket s'
  end.

(** The text of the field whose label begins at position [n] of [body]. *)
Definition fieldAfter (body : jsstring) (n : nat) (label : jsstring) : jsstring :=
  untilBracket (drop (n + length (fieldLabel label)) body).

(** The field of a label: the text after the first occurrence of the label,
    the empty string when the body does not have the label. *)
Definition fieldText (label body : jsstring) : jsstring :=
  match indexOf body (fieldLabel label) with
  | Some n => fieldAfter body n label
  | None => []
  end.

(** The field of the first label among two, whichever comes first in the
    body. *)
Definition fieldText2 (label1 label2 body : jsstring) : jsstring :=
  match indexOf body (fieldLabel label1), indexOf body (fieldLabel label2) with
  | Some a, Some b =>
      if a <? b then fieldAfter body a label1 else fieldAfter body b label2
  | Some a, None => fieldAfter body a label1
  | None, Some b => fieldAfter body b label2
  | None, None => []
  end.

(** The field found at the front of [inp]: the first of the labels that
    begins there. *)
Fixpoint fieldAt (labels : list jsstring) (inp : jsstring) : option jsstring :=
  match labels with
  | [] => None
  | label :: labels' =>
      match strip_prefix (fieldLabel label) inp with
      | Some r => Some (untilBracket r)
      | None => fieldAt labels' inp
      end
  end.

(** The field found at the first position of [s] where one of the labels
    begins. *)
Fixpoint fieldScan (labels : list jsstring) (s : jsstring) : jsstring :=
  match fieldAt labels s with
  | Some v => v
  | None => match s with [] => [] | _ :: s' => fieldScan labels s' end
  end.

(** ** The segments of [toDiffSegments] *)

(** No two [text] segments follow each other. *)
Definition separated (segments : list DiffSegment.t) : Prop :=
  forall i a b,
    segments !! i = Some a -> segments !! S i = Some b ->
    DiffSegment.type a = DiffSegment.text -> DiffSegment.type b <> DiffSegment.text.

(** A [text] segment is not blank. *)
Definition solid (segment : DiffSegment.t) : Prop :=
  DiffSegment.type segment = DiffSegment.text ->
  nonBlank (DiffSegment.content segment) = true.

(** ** The records of a section and their provenance *)

(** A section whose wrapper has the index 1 in its closing tag and 12
    behind [<edit ] in its opening tag. *)
Definition sectionTwelveOne : ProcessedSentencePair.t :=
  ProcessedSentencePair.mk null null (some (str "<edit 12>x</edit 1>")).

(** The segments of the edits of a text, wrapper after wrapper. *)
Definition wrapperSegments (text : jsstring) : list DiffSegment.t :=
  flat_map (fun mt => segmentsOf (nullish (group mt 2) []) 0)
    (execAll editWrapperRegex text 0).

(** The sum of two metrics, field by field. *)
Definition addMetrics (m1 m2 : DiffMetrics.t) : DiffMetrics.t :=
  DiffMetrics.mk (DiffMetrics.adds m1 + DiffMetrics.adds m2)
    (DiffMetrics.deletes m1 + DiffMetrics.deletes m2)
    (DiffMetrics.edits m1 + DiffMetrics.edits m2).

(** ** The segments of [toRenderableSegments] *)

(** A text with two wrappers, a word before the first and a [del] span
    between them. *)
Definition mixedText : jsstring :=
  str "x <edit 5 k>a<add>b</add></edit 5> y <del>q</del> <edit 2><del>c</del></edit 2>".

(** One turn of the loop of [toRenderableSegments] on its variables. *)
Definition rendStep (text : jsstring) (mt : MatchResult)
    (vars : list DiffSegment.t * nat) : list DiffSegment.t * nat :=
  let '(segments, lastIndex) := vars in
  let segments :=
    if lastIndex <? index mt then
      let plainText := slice text lastIndex (index mt) in
      if nonBlank plainText then segments ++ [DiffSegment.mk DiffSegment.text plainText]
      else segments
    else segments in
  (segments ++ segmentsOf (nullish (group mt 2) []) 0,
   index mt + length (nullish (group mt 0) [])).

(** The segments of the text from [li] on, given the wrappers [ms] from
    there: the gap before a wrapper as a [text] segment unless it is blank,
    the segments of the body of the wrapper, and so on to the rest of the
    text after the last wrapper. *)
Fixpoint renderedFrom (text : jsstring) (li : nat) (ms : list MatchResult)
    : list DiffSegment.t :=
  match ms with
  | [] => piece_segments (Gap (drop li text))
  | mt :: ms' =>
      piece_segments (Gap (slice text li (index mt)))
      ++ segmentsOf (nullish (group mt 2) []) 0
      ++ renderedFrom text (matchEnd mt) ms'
  end.

(** ** The runs of the hook *)

(** The events of runs that do not overlap: a run starts when no run is in
    flight, ends once, and [reset] comes between runs; [inFlight] tells
    that a run has started and not ended. *)
Fixpoint sequential {P} (inFlight : bool) (events : list (Runner.event P)) : bool :=
  match events with
  | [] => true
  | Runner.RunStart :: events' => negb inFlight && sequential true events'
  | Runner.RunDone _ :: events' => inFlight && sequential false events'
  | Runner.RunFailed _ :: events' => inFlight && sequential false events'
  | Runner.Reset :: events' => negb inFlight && sequential false events'
  end.

(** * Lemmas and theorems *)

(** ** What a pattern matches *)

Create HintDb regex_db.
#[local] Hint Constructors Matches : regex_db.

Lemma strip_prefix_Some w inp inp' :
  strip_prefix w inp = Some inp' <-> inp = w ++ inp'.
Proof.
  revert inp. induction w as [|a w IH]; intros inp; simpl.
  - split; congruence.
  - destruct inp as [|b inp]; [split; discriminate|].
    destruct (N.eqb_spec a b) as [->|Hne].
    + rewrite IH. split; congruence.
    + split; [discriminate|]. intros [= -> _]. congruence.
Qed.

Lemma strip_prefix_app w rest : strip_prefix w (w ++ rest) = Some rest.
Proof. by apply strip_prefix_Some. Qed.

Lemma orelse_Some {A} (x y : option A) (a : A) :
  orelse x y = Some a -> x = Some a \/ (x = None /\ y = Some a).
Proof. destruct x; simpl; intros; simplify_eq; auto. Qed.

(** A starred class consumes a run of the class before its continuation
    succeeds. *)
Lemma star_sound {R} g p (k : jsstring -> option R) inp res :
  star g p k inp = Some res ->
  exists w rest, inp = w ++ rest /\ Forall (fun x => p x = true) w /\ k rest = Some res.
Proof.
  induction inp as [|x inp IH]; simpl; intros H.
  - exists [], []. auto.
  - destruct (p x) eqn:Hp; [|exists [], (x :: inp); auto].
    assert (Hcases : star g p k inp = Some res \/ k (x :: inp) = Some res).
    { destruct g; apply orelse_Some in H; tauto. }
    destruct Hcases as [Hs|Hk]; [|exists [], (x :: inp); auto].
    destruct (IH Hs) as (w & rest & -> & Hw & Hk).
    exists (x :: w), rest. split_and!; auto.
Qed.

(** The lazy star stops at the first position where its continuation
    succeeds: the continuation fails after every shorter run. *)
Lemma star_lazy_first {R} p (k : jsstring -> option R) inp res :
  star false p k inp = Some res ->
  exists w rest, inp = w ++ rest /\ Forall (fun x => p x = true) w /\
    k rest = Some res /\
    forall w1 w2, w = w1 ++ w2 -> w2 <> [] -> k (w2 ++ rest) = None.
Proof.
  induction inp as [|x inp IH]; simpl; intros H.
  - exists [], []. split_and!; auto. intros w1 w2 Hw. by destruct w1, w2.
  - assert (Hnil : forall w1 w2 : jsstring, [] = w1 ++ w2 -> w2 <> [] ->
                     k (w2 ++ x :: inp) = None) by (intros [] []; naive_solver).
    destruct (p x) eqn:Hp; [|exists [], (x :: inp); split_and!; auto].
    apply orelse_Some in H as [Hk|[Hk Hs]]; [exists [], (x :: inp); split_and!; auto|].
    destruct (IH Hs) as (w & rest & -> & Hw & Hk' & Hfirst).
    exists (x :: w), rest. split_and!; auto.
    intros [|y w1] w2 Heq Hne; simpl in Heq; simplify_eq.
    + exact Hk.
    + by eapply Hfirst.
Qed.

Lemma take_app_length_sub (w rest : jsstring) :
  take (length (w ++ rest) - length rest) (w ++ rest) = w.
Proof.
  rewrite length_app. replace (length w + length rest - length rest) with (length w) by lia.
  by rewrite take_app_length.
Qed.

(** The matcher is sound: a result comes from a word the pattern matches,
    followed by a success of the continuation. *)
Lemma m_sound r : forall k c inp res,
  m r k c inp = Some res ->
  exists w rest c', inp = w ++ rest /\ Matches r c w rest c' /\ k c' rest = Some res.
Proof.
  induction r as [l|p|r1 IH1 r2 IH2|r1 IH1 r2 IH2|g p|p|n r IH|n|r IH|];
    intros k c inp res H; simpl in H.
  - destruct (strip_prefix l inp) as [inp'|] eqn:Hs; [|done].
    apply strip_prefix_Some in Hs as ->. exists l, inp', c. split_and!; auto with regex_db.
  - destruct inp as [|x inp]; [done|]. destruct (p x) eqn:Hp; [|done].
    exists [x], inp, c. split_and!; auto with regex_db.
  - apply IH1 in H as (w1 & rest1 & c1 & -> & M1 & H).
    apply IH2 in H as (w2 & rest & c2 & -> & M2 & H).
    exists (w1 ++ w2), rest, c2. rewrite <- (assoc_L (++)).
    split_and!; eauto with regex_db.
  - apply orelse_Some in H as [H|[_ H]].
    + apply IH1 in H as (w & rest & c' & -> & M1 & H). eauto 8 with regex_db.
    + apply IH2 in H as (w & rest & c' & -> & M1 & H). eauto 8 with regex_db.
  - apply star_sound in H as (w & rest & -> & Hw & H). eauto 8 with regex_db.
  - destruct inp as [|x inp]; [done|]. destruct (p x) eqn:Hp; [|done].
    apply star_sound in H as (w & rest & -> & Hw & H).
    exists (x :: w), rest, c. split_and!; auto. by constructor; auto.
  - apply IH in H as (w & rest & c' & -> & M1 & H).
    rewrite take_app_length_sub in H. eauto 8 with regex_db.
  - destruct (c !! n) as [[w|]|] eqn:Hc.
    + destruct (strip_prefix w inp) as [inp'|] eqn:Hs; [|done].
      apply strip_prefix_Some in Hs as ->. eauto 8 with regex_db.
    + exists [], inp, c. split_and!; auto with regex_db.
    + exists [], inp, c. split_and!; auto with regex_db.
  - destruct (m r _ c inp) as [[c' rest']|] eqn:Hm; [|done].
    apply IH in Hm as (w & rest & c'' & -> & M1 & Hk). simplify_eq.
    exists [], (w ++ rest'), c'. split_and!; eauto with regex_db.
  - destruct inp; [|done]. exists [], [], c. split_and!; auto with regex_db.
Qed.

(** A match leaves the number of capture entries unchanged. *)
Lemma Matches_length r c w rest c' : Matches r c w rest c' -> length c' = length c.
Proof.
  induction 1; rewrite ?length_insert; congruence.
Qed.

(** ** [exec] *)

Lemma matchAt_sound re inp c rest :
  matchAt re inp = Some (c, rest) ->
  exists w, inp = w ++ rest /\
    Matches (pattern re) (replicate (S (ngroups re)) None) w rest c.
Proof.
  unfold matchAt. intros H.
  apply m_sound in H as (w & rest' & c' & -> & HM & [= <- <-]). eauto.
Qed.

Lemma search_sound re s : forall inp i mr,
  inp = drop i s -> i <= length s ->
  search re i inp = Some mr ->
  exists w rest c, ExecSpec re s i mr w rest c.
Proof.
  induction inp as [|x inp IH]; intros i mr Hinp Hi H; simpl in H.
  - destruct (matchAt re []) as [[c rest]|] eqn:Hm; [|done]. simplify_eq/=.
    destruct (matchAt_sound _ _ _ _ Hm) as (w & Hw & _).
    symmetry in Hw. apply app_eq_nil in Hw as [-> ->].
    exists [], [], c. split; simpl; auto; try lia.
  - destruct (matchAt re (x :: inp)) as [[c rest]|] eqn:Hm.
    + destruct (matchAt_sound _ _ _ _ Hm) as (w & Hw & _).
      injection H as <-.
      change (S (length inp)) with (length (x :: inp)).
      rewrite Hw in Hm |- *. rewrite take_app_length_sub.
      exists w, rest, c. split; cbn [index groups]; auto; try lia. congruence.
    + assert (Hlt : i < length s).
      { apply (f_equal length) in Hinp. rewrite length_drop in Hinp. simpl in Hinp. lia. }
      assert (Hinp' : inp = drop (S i) s).
      { replace (S i) with (i + 1) by lia. by rewrite <- drop_drop, <- Hinp. }
      destruct (IH (S i) mr Hinp' ltac:(lia) H) as (w & rest & c & [H1 H2 H3 H4 H5 H6]).
      exists w, rest, c. split; auto; try lia.
      intros j Hj. destruct (decide (j = i)) as [->|]; [by rewrite <- Hinp|].
      apply H6. lia.
Qed.

Lemma exec_sound re s li mr :
  exec re s li = Some mr -> exists w rest c, ExecSpec re s li mr w rest c.
Proof.
  unfold exec. destruct (Nat.ltb_spec (length s) li); [done|].
  by apply search_sound.
Qed.

Section ExecSpecFacts.
Context {re : RegExp} {s : jsstring} {li : nat} {mr : MatchResult}
  {w rest : jsstring} {c : captures} (E : ExecSpec re s li mr w rest c).

Lemma es_Matches :
  Matches (pattern re) (replicate (S (ngroups re)) None) w rest c.
Proof.
  destruct (matchAt_sound _ _ _ _ (es_match _ _ _ _ _ _ _ E)) as (w' & Hw & HM).
  apply app_inv_tail in Hw as <-. done.
Qed.

Lemma es_length : length c = S (ngroups re).
Proof. rewrite (Matches_length _ _ _ _ _ es_Matches). by rewrite length_replicate. Qed.

Lemma es_group0 : group mr 0 = some w.
Proof.
  unfold group. rewrite (es_groups _ _ _ _ _ _ _ E).
  rewrite list_lookup_insert_eq; [done|]. rewrite es_length. lia.
Qed.

Lemma es_group i : i <> 0 -> groups mr !! i = c !! i.
Proof.
  intros Hi. rewrite (es_groups _ _ _ _ _ _ _ E).
  by rewrite list_lookup_insert_ne.
Qed.

Lemma es_end : matchEnd mr = index mr + length w.
Proof. unfold matchEnd. by rewrite es_group0. Qed.

Lemma es_end_bound : matchEnd mr <= length s.
Proof.
  rewrite es_end. pose proof (f_equal length (es_split _ _ _ _ _ _ _ E)) as H.
  rewrite length_drop, length_app in H. pose proof (es_bound _ _ _ _ _ _ _ E). lia.
Qed.

Lemma es_slice : slice s (index mr) (matchEnd mr) = w.
Proof.
  unfold slice. rewrite es_end, (es_split _ _ _ _ _ _ _ E).
  replace (index mr + length w - index mr) with (length w) by lia.
  by rewrite take_app_length.
Qed.

Lemma es_drop_end : drop (matchEnd mr) s = rest.
Proof.
  rewrite es_end, <- drop_drop, (es_split _ _ _ _ _ _ _ E).
  by rewrite drop_app_length.
Qed.
End ExecSpecFacts.

Lemma progressing_literal x l r n : progressing (mkRegExp (Str (x :: l) ;; r) n).
Proof.
  intros inp c rest H. apply matchAt_sound in H as (w & -> & HM). simpl in HM.
  inversion HM as [| |? ? ? w1 c1 w2 ? ? H1 H2| | | | | | | | |]; subst.
  inversion H1; subst. rewrite !length_app. simpl. lia.
Qed.

Lemma progressing_global g : progressing (regexOf g).
Proof. destruct g; apply progressing_literal. Qed.

Lemma exec_progress re s li mr :
  progressing re -> exec re s li = Some mr ->
  li <= index mr /\ index mr < matchEnd mr /\ matchEnd mr <= length s.
Proof.
  intros Hp H. destruct (exec_sound _ _ _ _ H) as (w & rest & c & E).
  split; [apply E|]. split; [|apply (es_end_bound E)].
  rewrite (es_end E). pose proof (Hp _ _ _ (es_match _ _ _ _ _ _ _ E)) as Hlt.
  rewrite length_app in Hlt. lia.
Qed.

(** ** The [exec] loop *)

Lemma Scan_functional re s li ms1 ms2 :
  Scan re s li ms1 -> Scan re s li ms2 -> ms1 = ms2.
Proof.
  intros H. revert ms2. induction H as [li H|li mr ms H _ IH]; intros ms2 H2.
  - inversion H2; congruence.
  - inversion H2 as [|? mr' ms' H' Hs']; simplify_eq. f_equal. by apply IH.
Qed.

Lemma execAllFuel_Scan re s :
  progressing re ->
  forall fuel li, length s - li < fuel -> Scan re s li (execAllFuel fuel re s li).
Proof.
  intros Hp. induction fuel as [|fuel IH]; intros li Hfuel; [lia|]. simpl.
  destruct (exec re s li) as [mr|] eqn:He; [|by constructor].
  econstructor; [done|]. apply IH.
  destruct (exec_progress _ _ _ _ Hp He) as (? & ? & ?). lia.
Qed.

Lemma execAll_Scan re s li : progressing re -> Scan re s li (execAll re s li).
Proof. intros Hp. apply execAllFuel_Scan; [done|lia]. Qed.

Lemma execAll_null re s li : exec re s li = None -> execAll re s li = [].
Proof. unfold execAll. simpl. by intros ->. Qed.

Lemma Scan_elem re s li ms mt :
  Scan re s li ms -> mt ∈ ms -> exists li', exec re s li' = Some mt.
Proof.
  induction 1 as [li H|li mr ms H _ IH]; [by intros ?%elem_of_nil|].
  rewrite elem_of_cons. intros [->|Hin]; eauto.
Qed.

Lemma lastIndex_set_eq g n st : lastIndex g (setLastIndex g n st) = n.
Proof. by destruct g. Qed.

Lemma lastIndex_set_ne g g' n st :
  g <> g' -> lastIndex g' (setLastIndex g n st) = lastIndex g' st.
Proof. by destruct g, g'. Qed.

Lemma setLastIndex_set g n n' st :
  setLastIndex g n (setLastIndex g n' st) = setLastIndex g n st.
Proof. by destruct g. Qed.

Lemma setLastIndex_id g st : setLastIndex g (lastIndex g st) st = st.
Proof. by destruct g, st. Qed.

Lemma setLastIndex_same g n st : lastIndex g st = n -> setLastIndex g n st = st.
Proof. intros <-. apply setLastIndex_id. Qed.

Section Loop.
Context {A : Type} (g : global) (s : jsstring).
Context (body : MatchResult -> A -> M A) (f : MatchResult -> A -> A).
Context (I : RegexState -> Prop).
Hypothesis I_set : forall st n, I st -> I (setLastIndex g n st).
Hypothesis body_f : forall mt acc st, I st -> body mt acc st = Some (f mt acc, st).

(** A loop whose body computes [f] and leaves the state as it is (on the
    states of [I]) folds [f] over the matches; it returns, and has reset
    [lastIndex] to 0 when it does. *)
Lemma whileExecFuel_fold : forall fuel acc st,
  I st -> length s - lastIndex g st < fuel ->
  whileExec fuel g s body acc st =
    Some (foldl (fun a mt => f mt a) acc (execAllFuel fuel (regexOf g) s (lastIndex g st)),
          setLastIndex g 0 st).
Proof.
  induction fuel as [|fuel IH]; intros acc st HI Hfuel; [lia|].
  simpl. unfold bind, execG.
  destruct (exec (regexOf g) s (lastIndex g st)) as [mr|] eqn:He; [|done].
  rewrite body_f by auto. rewrite IH; rewrite ?lastIndex_set_eq; auto.
  - by rewrite setLastIndex_set.
  - destruct (exec_progress _ _ _ _ (progressing_global g) He) as (? & ? & ?). lia.
Qed.

Lemma whileExec_fold acc st :
  I st ->
  whileExec (S (length s)) g s body acc st =
    Some (foldl (fun a mt => f mt a) acc (execAll (regexOf g) s (lastIndex g st)),
          setLastIndex g 0 st).
Proof. intros HI. apply whileExecFuel_fold; [done|lia]. Qed.
End Loop.

(** ** The shape of a match of each module-level pattern *)

(** Inversion of [Matches] along the syntax of the pattern. *)
Ltac inv_Matches :=
  repeat match goal with
    | H : Matches (Seq _ _) _ _ _ _ |- _ => inversion H; clear H; subst
    | H : Matches (Str _) _ _ _ _ |- _ => inversion H; clear H; subst
    | H : Matches (Alt _ _) _ _ _ _ |- _ => inversion H; clear H; subst
    | H : Matches (Star _ _) _ _ _ _ |- _ => inversion H; clear H; subst
    | H : Matches (Plus _) _ _ _ _ |- _ => inversion H; clear H; subst
    | H : Matches (Group _ _) _ _ _ _ |- _ => inversion H; clear H; subst
    | H : Matches (Backref _) _ _ _ _ |- _ => inversion H; clear H; subst
    end.

Lemma editWrapper_shape w rest c :
  Matches (pattern editWrapperRegex) (replicate 3 None) w rest c ->
  exists d attrs body ws1 ws2 ws3,
    w = wrapperText d attrs body ws1 ws2 ws3 /\
    c = [None; Some d; Some body] /\
    d <> [] /\ isRun isDigit d /\ isRun notGt attrs /\
    ws1 <> [] /\ isRun ws ws1 /\ ws2 <> [] /\ isRun ws ws2 /\ isRun ws ws3.
Proof.
  unfold editWrapperRegex. cbn [pattern replicate]. intros H.
  inv_Matches; cbn [insert list_insert lookup list_lookup] in *; simplify_eq;
    try match goal with H : _ \/ _ |- _ => by destruct H end.
  eexists _, _, _, _, _, _. split; [reflexivity|]. split_and!; eauto.
Qed.

(** ** The extractors as functions of their input *)

Lemma foldl_snoc {A B} (h : B -> A) (ms : list B) : forall acc,
  foldl (fun a mt => a ++ [h mt]) acc ms = acc ++ List.map h ms.
Proof.
  induction ms as [|mt ms IH]; intros acc; simpl.
  - by rewrite app_nil_r.
  - by rewrite IH, <- (assoc_L (++)).
Qed.

Lemma parseStage1_run raw st :
  parseStage1 raw st =
    Some (parseStage1_value raw (lastIndex gEditBlock st),
          if falsy raw then st else setLastIndex gEditBlock 0 st).
Proof.
  unfold parseStage1, parseStage1_value. destruct (falsy raw); [done|].
  rewrite (whileExec_fold gEditBlock _ _ (fun mt a => a ++ [stage1ItemOf mt]) (fun _ => True));
    auto.
  by rewrite foldl_snoc.
Qed.

Lemma parseStage2_run raw st :
  parseStage2 raw st =
    Some (parseStage2_value raw (lastIndex gClusterBlock st),
          if falsy raw then st else setLastIndex gClusterBlock 0 st).
Proof.
  unfold parseStage2, parseStage2_value. destruct (falsy raw); [done|].
  rewrite (whileExec_fold gClusterBlock _ _ (fun mt a => a ++ [stage2ClusterOf mt])
             (fun _ => True)); auto.
  by rewrite foldl_snoc.
Qed.

Lemma toDiffSegments_run raw st :
  toDiffSegments raw st =
    Some (segmentsOf raw (lastIndex gAddDel st), setLastIndex gAddDel 0 st).
Proof.
  unfold toDiffSegments, segmentsOf, bind.
  rewrite (whileExec_fold gAddDel _ _ (segStep raw) (fun _ => True)); auto.
  - by destruct (foldl _ _ _).
  - by intros mt [segments li] st' _.
Qed.

Lemma buildDiffRecords_body_run pair i mt results st :
  lastIndex gAddDel st = 0 ->
  buildDiffRecords_body pair i mt results st = Some (results ++ [recordOf pair i mt], st).
Proof.
  intros H0. unfold buildDiffRecords_body, bind. rewrite toDiffSegments_run, H0.
  by rewrite setLastIndex_same.
Qed.

Lemma buildDiffRecords_each_run pair i results st :
  lastIndex gAddDel st = 0 -> lastIndex gEditWrapper st = 0 ->
  buildDiffRecords_each pair i results st = Some (results ++ sectionRecords pair i, st).
Proof.
  intros Ha Hw. unfold buildDiffRecords_each, sectionRecords. fold (sectionText pair).
  rewrite (whileExec_fold gEditWrapper _ _ (fun mt a => a ++ [recordOf pair i mt])
             (fun st => lastIndex gAddDel st = 0)); auto.
  - by rewrite foldl_snoc, Hw, setLastIndex_same.
  - intros. by apply buildDiffRecords_body_run.
Qed.

Lemma forEach_run pairs : forall i results st,
  lastIndex gAddDel st = 0 -> lastIndex gEditWrapper st = 0 ->
  forEach buildDiffRecords_each pairs i results st =
    Some (results ++ allSectionRecords pairs i, st).
Proof.
  induction pairs as [|pair pairs IH]; intros i results st Ha Hw; simpl.
  - by rewrite app_nil_r.
  - unfold bind. rewrite buildDiffRecords_each_run by done.
    rewrite IH by done. by rewrite <- (assoc_L (++)).
Qed.

Lemma buildDiffRecords_run pairs st :
  lastIndex gAddDel st = 0 -> lastIndex gEditWrapper st = 0 ->
  buildDiffRecords pairs st = Some (buildDiffRecords_value pairs, st).
Proof.
  intros Ha Hw. unfold buildDiffRecords, buildDiffRecords_value.
  destruct pairs as [| |[|pair pairs]]; try done.
  unfold bind. by rewrite forEach_run.
Qed.

(** ** The sort of [buildDiffRecords] *)

Lemma sortInsert_Permutation {A} (cmp : A -> A -> Z) x l : sortInsert cmp x l ≡ₚ x :: l.
Proof.
  induction l as [|y l IH]; simpl; [done|].
  destruct (cmp x y <=? 0)%Z; [done|]. rewrite IH. apply Permutation_swap.
Qed.

Lemma sort_Permutation {A} (cmp : A -> A -> Z) l : sort cmp l ≡ₚ l.
Proof.
  induction l as [|x l IH]; simpl; [done|].
  by rewrite sortInsert_Permutation, IH.
Qed.

Lemma sortInsert_sorted x l :
  StronglySorted editIndex_le l -> StronglySorted editIndex_le (sortInsert byEditIndex x l).
Proof.
  induction 1 as [|y l Hl IH Hy]; simpl; [by repeat constructor|].
  unfold byEditIndex at 1. destruct (Z.leb_spec (DiffRecord.editIndex x - DiffRecord.editIndex y) 0).
  - constructor; [by constructor|]. constructor; [unfold editIndex_le; lia|].
    eapply Forall_impl; [exact Hy|]. unfold editIndex_le. intros; simpl in *; lia.
  - constructor; [done|]. rewrite sortInsert_Permutation.
    constructor; [unfold editIndex_le; lia|done].
Qed.

Lemma sort_sorted l : StronglySorted editIndex_le (sort byEditIndex l).
Proof.
  induction l as [|x l IH]; simpl; [constructor|]. by apply sortInsert_sorted.
Qed.

Lemma sortInsert_stable k x l :
  withEditIndex k (sortInsert byEditIndex x l) = withEditIndex k (x :: l).
Proof.
  induction l as [|y l IH]; [done|]. cbn [sortInsert].
  unfold byEditIndex at 1. destruct (Z.leb_spec (DiffRecord.editIndex x - DiffRecord.editIndex y) 0); [done|].
  unfold withEditIndex in *. cbn [List.filter] in *. rewrite IH.
  destruct (Z.eqb_spec (DiffRecord.editIndex x) k), (Z.eqb_spec (DiffRecord.editIndex y) k);
    try done; lia.
Qed.

Lemma sort_stable k l : withEditIndex k (sort byEditIndex l) = withEditIndex k l.
Proof.
  induction l as [|x l IH]; [done|]. cbn [sort foldr]. fold (sort byEditIndex l).
  rewrite sortInsert_stable. unfold withEditIndex in *. cbn [List.filter]. by rewrite IH.
Qed.

(** In a sorted list a record with a smaller [editIndex] stands before one
    with a larger [editIndex]. *)
Lemma sorted_before l i j ri rj :
  StronglySorted editIndex_le l ->
  l !! i = Some ri -> l !! j = Some rj ->
  (DiffRecord.editIndex ri < DiffRecord.editIndex rj)%Z -> i < j.
Proof.
  intros Hs. revert i j. induction Hs as [|x l Hl IH Hx]; intros i j Hi Hj Hlt; [done|].
  destruct i as [|i], j as [|j]; simpl in *; simplify_eq; try lia.
  - rewrite Forall_forall in Hx. apply list_elem_of_lookup_2 in Hi.
    specialize (Hx _ Hi). unfold editIndex_le in Hx. lia.
  - apply -> Nat.succ_lt_mono. eauto.
Qed.

(** ** The segment tokenizer, piece by piece *)

Lemma isStr_add v :
  isStr v (str "add") = bool_decide (nullish v [] = str "add").
Proof. by destruct v. Qed.

Lemma nonBlank_nil : nonBlank [] = false.
Proof. done. Qed.

Lemma segs_pieces raw ms : forall segs li,
  segFinish raw (foldl (fun a mt => segStep raw mt a) (segs, li) ms) =
    segs ++ flat_map piece_segments (piecesOf raw li ms).
Proof.
  induction ms as [|mt ms IH]; intros segs li.
  - cbn [foldl segFinish piecesOf flat_map piece_segments].
    destruct (nonBlank _); by rewrite ?app_nil_r.
  - cbn [foldl piecesOf flat_map piece_segments]. unfold segStep at 2.
    fold (matchEnd mt). rewrite IH, isStr_add.
    assert (Hgap :
      (if li <? index mt
       then if nonBlank (slice raw li (index mt))
            then segs ++ [DiffSegment.mk DiffSegment.text (slice raw li (index mt))]
            else segs
       else segs) = segs ++ piece_segments (Gap (slice raw li (index mt)))).
    { cbn [piece_segments]. destruct (Nat.ltb_spec li (index mt)) as [Hlt|Hge].
      - destruct (nonBlank _); by rewrite ?app_nil_r.
      - unfold slice. replace (index mt - li) with 0 by lia.
        by rewrite take_0, nonBlank_nil, app_nil_r. }
    rewrite Hgap. by rewrite <- !(assoc_L (++)).
Qed.

Lemma segmentsOf_pieces raw : segmentsOf raw 0 = flat_map piece_segments (pieces raw).
Proof. unfold segmentsOf, pieces. by rewrite segs_pieces. Qed.

Lemma slice_drop (s : jsstring) a b :
  a <= b -> b <= length s -> slice s a b ++ drop b s = drop a s.
Proof.
  intros Hab Hb. unfold slice. replace (drop b s) with (drop (b - a) (drop a s)).
  - apply take_drop.
  - rewrite drop_drop. f_equal. lia.
Qed.

(** ** Completeness of the matcher *)

Lemma orelse_is_Some {A} (x y : option A) : is_Some x \/ is_Some y -> is_Some (orelse x y).
Proof. destruct x; simpl; [eauto|]. by intros [[? [=]]|]. Qed.

Lemma star_continue {R} g p (k : jsstring -> option R) inp :
  is_Some (k inp) -> is_Some (star g p k inp).
Proof.
  intros Hk. destruct inp as [|x inp]; simpl; [done|].
  destruct (p x); [|done]. destruct g; apply orelse_is_Some; auto.
Qed.

Lemma star_complete {R} g p (k : jsstring -> option R) w rest :
  isRun p w -> is_Some (k rest) -> is_Some (star g p k (w ++ rest)).
Proof.
  intros Hw Hk. induction Hw as [|x w Hx Hw IH]; [by apply star_continue|].
  simpl. rewrite Hx. destruct g; apply orelse_is_Some; auto.
Qed.

(** Backtracking loses no match: when the pattern can match a word after
    which the continuation succeeds, the matcher succeeds. *)
Lemma m_complete r c w rest c' :
  Matches r c w rest c' -> lookFree r = true ->
  forall k, is_Some (k c' rest) -> is_Some (m r k c (w ++ rest)).
Proof.
  induction 1 as [l c rest|p x c rest Hp|r1 r2 c w1 c1 w2 c2 rest _ IH1 _ IH2
                 |r1 r2 c w rest c' _ IH|r1 r2 c w rest c' _ IH|g p c w rest Hw
                 |p c w rest Hne Hw|n r c w rest c' _ IH|n c w rest Hc|n c rest Hc
                 |r c w rest' rest c' -> _ _|c];
    intros Hfree k Hk; cbn [m lookFree] in *.
  - by rewrite strip_prefix_app.
  - simpl. by rewrite Hp.
  - apply andb_prop in Hfree as [H1 H2]. rewrite <- (assoc_L (++)). auto.
  - apply andb_prop in Hfree as [H1 H2]. apply orelse_is_Some. auto.
  - apply andb_prop in Hfree as [H1 H2]. apply orelse_is_Some. auto.
  - by apply star_complete.
  - destruct Hw as [|x w Hx Hw]; [done|]. simpl. rewrite Hx. by apply star_complete.
  - apply IH; [done|]. by rewrite take_app_length_sub.
  - by rewrite Hc, strip_prefix_app.
  - by destruct Hc as [-> | ->].
  - done.
  - done.
Qed.

Lemma matchAt_complete re w rest c :
  Matches (pattern re) (replicate (S (ngroups re)) None) w rest c ->
  lookFree (pattern re) = true -> is_Some (matchAt re (w ++ rest)).
Proof. intros HM Hfree. by apply (m_complete _ _ _ _ _ HM). Qed.

(** ** The lazy body of a pattern ends at the first closing tag *)

Lemma m_Seq r1 r2 k c inp : m (r1 ;; r2) k c inp = m r1 (m r2 k) c inp.
Proof. done. Qed.

(** A lazy group followed by [close]: the group takes the shortest text
    after which [close] and the continuation succeed. *)
Lemma lazy_group_first n p close k c inp res :
  m (Group n (Star false p) ;; close) k c inp = Some res ->
  exists body rest, inp = body ++ rest /\ isRun p body /\
    m close k (<[n := Some body]> c) rest = Some res /\
    forall b1 b2, body = b1 ++ b2 -> b2 <> [] ->
      m close k (<[n := Some b1]> c) (b2 ++ rest) = None.
Proof.
  rewrite m_Seq. cbn [m]. intros H.
  apply star_lazy_first in H as (body & rest & -> & Hrun & Hk & Hfirst).
  exists body, rest. rewrite take_app_length_sub in Hk. split_and!; auto.
  intros b1 b2 -> Hb2. specialize (Hfirst b1 b2 eq_refl Hb2).
  rewrite <- (assoc_L (++)) in Hfirst. by rewrite take_app_length_sub in Hfirst.
Qed.

(** The same, read on the words [close] matches: no match of [close]
    begins inside the body. *)
Lemma lazy_group_shortest n p close c inp res :
  lookFree close = true ->
  m (Group n (Star false p) ;; close) (fun c' inp' => Some (c', inp')) c inp = Some res ->
  exists body rest, inp = body ++ rest /\ isRun p body /\
    m close (fun c' inp' => Some (c', inp')) (<[n := Some body]> c) rest = Some res /\
    forall b1 b2 w tail c', body = b1 ++ b2 -> b2 <> [] ->
      Matches close (<[n := Some b1]> c) w tail c' -> b2 ++ rest <> w ++ tail.
Proof.
  intros Hfree H. apply lazy_group_first in H as (body & rest & -> & Hrun & Hk & Hfirst).
  exists body, rest. split_and!; auto.
  intros b1 b2 w tail c' Hbody Hb2 HM Heq.
  specialize (Hfirst b1 b2 Hbody Hb2). rewrite Heq in Hfirst.
  destruct (m_complete _ _ _ _ _ HM Hfree (fun c' inp' => Some (c', inp')))
    as [x Hx]; [done|]. congruence.
Qed.

(** One step of the matcher along a sequence. *)
Ltac step_sound H :=
  rewrite m_Seq in H;
  let w := fresh "w" in let rest := fresh "rest" in let c := fresh "c" in
  let M := fresh "HM" in
  apply m_sound in H as (w & rest & c & -> & M & H).

(** A match of [addDelRegex] at the front of [inp]: its content is followed
    by the first [</ty>] after the opening tag. *)
Lemma addDel_match inp c rest :
  matchAt addDelRegex inp = Some (c, rest) ->
  exists ty content,
    (ty = str "add" \/ ty = str "del") /\
    inp = tagged ty content ++ rest /\ c = [None; Some ty; Some content] /\
    forall c1 c2 tail, content = c1 ++ c2 -> c2 <> [] ->
      c2 ++ spanClose ty ++ rest <> spanClose ty ++ tail.
Proof.
  unfold matchAt, addDelRegex. cbn [pattern ngroups replicate]. intros H.
  do 3 step_sound H.
  apply lazy_group_shortest in H as (content & rest' & -> & _ & H & Hfirst); [|done].
  pose proof H as H'. apply m_sound in H' as (w' & rest'' & c' & -> & HM' & [= <- <-]).
  inv_Matches; cbn [insert list_insert lookup list_lookup] in *; simplify_eq;
    try match goal with H : _ \/ _ |- _ => by destruct H end.
  - exists (str "add"), content. split_and!; auto.
    + unfold tagged. by rewrite <- !(assoc_L (++)).
    + intros c1 c2 tail Hc Hc2 Heq.
      eapply (Hfirst c1 c2 (spanClose (str "add")) tail _ Hc Hc2).
      * unfold spanClose.
        eapply MSeq; [apply MStr|]. eapply MSeq; [by apply MBackref|apply MStr].
      * rewrite <- Heq. unfold spanClose. by rewrite <- !(assoc_L (++)).
  - exists (str "del"), content. split_and!; auto.
    + unfold tagged. by rewrite <- !(assoc_L (++)).
    + intros c1 c2 tail Hc Hc2 Heq.
      eapply (Hfirst c1 c2 (spanClose (str "del")) tail _ Hc Hc2).
      * unfold spanClose.
        eapply MSeq; [apply MStr|]. eapply MSeq; [by apply MBackref|apply MStr].
      * rewrite <- Heq. unfold spanClose. by rewrite <- !(assoc_L (++)).
Qed.

(** Inversion lemmas, one per construct. *)
Lemma Matches_Str_inv l c w rest c' : Matches (Str l) c w rest c' -> w = l /\ c' = c.
Proof. by inversion 1. Qed.

Lemma Matches_Plus_inv p c w rest c' :
  Matches (Plus p) c w rest c' -> w <> [] /\ isRun p w /\ c' = c.
Proof. by inversion 1. Qed.

Lemma Matches_Star_inv g p c w rest c' :
  Matches (Star g p) c w rest c' -> isRun p w /\ c' = c.
Proof. by inversion 1. Qed.

Lemma Matches_Group_inv n r c w rest c' :
  Matches (Group n r) c w rest c' ->
  exists c1, Matches r c w rest c1 /\ c' = <[n := Some w]> c1.
Proof. inversion 1; eauto. Qed.

Lemma Matches_Backref_inv n c w rest c' d :
  c !! n = Some (Some d) -> Matches (Backref n) c w rest c' -> w = d /\ c' = c.
Proof.
  intros Hd. inversion 1 as [| | | | | | | |? ? ? ? Hc|? ? ? Hc| |]; subst.
  - split; congruence.
  - destruct Hc; congruence.
Qed.

Lemma Matches_Seq_inv r1 r2 c w rest c' :
  Matches (r1 ;; r2) c w rest c' ->
  exists w1 w2 c1, w = w1 ++ w2 /\ Matches r1 c w1 (w2 ++ rest) c1 /\ Matches r2 c1 w2 rest c'.
Proof. inversion 1; subst; eauto 8. Qed.

(** A match of a block pattern at the front of [inp]: the index token is
    the same in both tags, and no closing tag with that token begins inside
    the body. *)
Lemma block_match kind inp c rest :
  matchAt (mkRegExp (blockPattern kind) 2) inp = Some (c, rest) ->
  exists d body ws1 ws2 ws3 ws4 ws5,
    inp = blockText kind d body ws1 ws2 ws3 ws4 ws5 ++ rest /\
    c = [None; Some d; Some body] /\
    d <> [] /\ isRun isDigit d /\
    ws1 <> [] /\ isRun ws ws1 /\ ws2 <> [] /\ isRun ws ws2 /\ isRun ws ws3 /\
    ws4 <> [] /\ isRun ws ws4 /\ ws5 <> [] /\ isRun ws ws5 /\
    forall b1 b2 ws4' ws5' tail,
      body = b1 ++ b2 -> b2 <> [] ->
      ws4' <> [] -> isRun ws ws4' -> ws5' <> [] -> isRun ws ws5' ->
      b2 ++ closeTag kind d ws4 ws5 ++ rest <> closeTag kind d ws4' ws5' ++ tail.
Proof.
  unfold matchAt, blockPattern, blockText, closeTag. cbn [pattern ngroups replicate].
  generalize (str "<" ++ kind) (str "</" ++ kind) (str "Desc>"). intros lo lc ld H.
  rewrite m_Seq in H. apply m_sound in H as (o & ? & c1 & -> & M1 & H).
  rewrite m_Seq in H. apply m_sound in H as (ws1 & ? & c2 & -> & M2 & H).
  rewrite m_Seq in H. apply m_sound in H as (d & ? & c3 & -> & M3 & H).
  rewrite m_Seq in H. apply m_sound in H as (ws2 & ? & c4 & -> & M4 & H).
  rewrite m_Seq in H. apply m_sound in H as (o' & ? & c5 & -> & M5 & H).
  rewrite m_Seq in H. apply m_sound in H as (ws3 & ? & c6 & -> & M6 & H).
  apply lazy_group_shortest in H as (body & rest' & -> & _ & H & Hfirst); [|done].
  apply Matches_Str_inv in M1 as [-> ->].
  apply Matches_Plus_inv in M2 as (Hws1 & Rws1 & ->).
  apply Matches_Group_inv in M3 as (c3' & M3 & ->).
  apply Matches_Plus_inv in M3 as (Hd & Rd & ->).
  apply Matches_Plus_inv in M4 as (Hws2 & Rws2 & ->).
  apply Matches_Str_inv in M5 as [-> ->].
  apply Matches_Star_inv in M6 as (Rws3 & ->).
  cbn [insert list_insert] in *.
  pose proof H as H'. apply m_sound in H' as (w' & rest'' & c' & -> & HM' & [= <- <-]).
  apply Matches_Seq_inv in HM' as (l1 & ? & ? & -> & N1 & HM').
  apply Matches_Seq_inv in HM' as (ws4 & ? & ? & -> & N2 & HM').
  apply Matches_Seq_inv in HM' as (d' & ? & ? & -> & N3 & HM').
  apply Matches_Seq_inv in HM' as (ws5 & l2 & ? & -> & N4 & N5).
  apply Matches_Str_inv in N1 as [-> ->].
  apply Matches_Plus_inv in N2 as (Hws4 & Rws4 & ->).
  apply (Matches_Backref_inv _ _ _ _ _ d) in N3 as [-> ->]; [|done].
  apply Matches_Plus_inv in N4 as (Hws5 & Rws5 & ->).
  apply Matches_Str_inv in N5 as [-> ->].
  exists d, body, ws1, ws2, ws3, ws4, ws5. split_and!; auto.
  - by rewrite <- !(assoc_L (++)).
  - intros b1 b2 ws4' ws5' tail Hb Hb2 ? ? ? ? Heq.
    eapply (Hfirst b1 b2 (lc ++ ws4' ++ d ++ ws5' ++ ld) tail _ Hb Hb2).
    + eapply MSeq; [apply MStr|]. eapply MSeq; [by apply MPlus|].
      eapply MSeq; [by apply MBackref|]. eapply MSeq; [by apply MPlus|apply MStr].
    + rewrite <- Heq. by rewrite <- !(assoc_L (++)).
Qed.

(** ** The metrics aggregator *)

Lemma countIn_app k l1 l2 : countIn k (l1 ++ l2) = countIn k l1 + countIn k l2.
Proof. unfold countIn. by rewrite List.filter_app, length_app. Qed.

Lemma countSegment_fold segments : forall acc,
  foldl countSegment acc segments =
    DiffMetrics.mk (DiffMetrics.adds acc + countIn DiffSegment.add segments)
      (DiffMetrics.deletes acc + countIn DiffSegment.del segments)
      (DiffMetrics.edits acc).
Proof.
  induction segments as [|[ty content] segments IH]; intros [a d e].
  - unfold countIn. simpl. f_equal; lia.
  - cbn [foldl]. rewrite IH. unfold countSegment, countIn.
    destruct ty; simpl; f_equal; lia.
Qed.

Lemma computeDiffMetrics_fold records : forall acc,
  foldl (fun acc record =>
           let acc := foldl countSegment acc (DiffRecord.segments record) in
           DiffMetrics.mk (DiffMetrics.adds acc) (DiffMetrics.deletes acc)
             (DiffMetrics.edits acc + 1)) acc records =
    DiffMetrics.mk (DiffMetrics.adds acc + countSegments DiffSegment.add records)
      (DiffMetrics.deletes acc + countSegments DiffSegment.del records)
      (DiffMetrics.edits acc + length records).
Proof.
  induction records as [|record records IH]; intros [a d e].
  - unfold countSegments, countIn. simpl. f_equal; lia.
  - cbn [foldl]. rewrite IH, countSegment_fold. unfold countSegments.
    cbn [flat_map]. rewrite !countIn_app. simpl. f_equal; lia.
Qed.

(** C4: [computeDiffMetrics] returns as [adds] the number of [add] segments
    of all records, as [deletes] the number of [del] segments, and as
    [edits] the number of records, whatever their [editIndex]: two records
    of the same edit count twice, and three records with one [add] and one
    [del] segment each give 3, 3, 3. *)
Theorem computeDiffMetrics_counts :
  (forall records,
     computeDiffMetrics records =
       DiffMetrics.mk (countSegments DiffSegment.add records)
         (countSegments DiffSegment.del records) (length records)) /\
  (forall r1 r2,
     DiffRecord.editIndex r1 = DiffRecord.editIndex r2 ->
     DiffMetrics.edits (computeDiffMetrics [r1; r2]) = 2) /\
  (forall r1 r2 r3,
     Forall (fun r => countIn DiffSegment.add (DiffRecord.segments r) = 1
                      /\ countIn DiffSegment.del (DiffRecord.segments r) = 1)
       [r1; r2; r3] ->
     computeDiffMetrics [r1; r2; r3] = DiffMetrics.mk 3 3 3).
Proof.
  assert (H : forall records,
     computeDiffMetrics records =
       DiffMetrics.mk (countSegments DiffSegment.add records)
         (countSegments DiffSegment.del records) (length records)).
  { intros records. unfold computeDiffMetrics. by rewrite computeDiffMetrics_fold. }
  split; [exact H|]. split.
  - intros r1 r2 _. by rewrite H.
  - intros r1 r2 r3 HF. rewrite H.
    rewrite !Forall_cons in HF. destruct HF as ([A1 D1] & [A2 D2] & [A3 D3] & _).
    unfold countSegments. cbn [flat_map]. rewrite !countIn_app, A1, A2, A3, D1, D2, D3.
    reflexivity.
Qed.

Lemma computeDiffMetrics_counts_witness :
  DiffRecord.editIndex (sampleRecord 7 0) = DiffRecord.editIndex (sampleRecord 7 1) /\
  DiffMetrics.edits (computeDiffMetrics [sampleRecord 7 0; sampleRecord 7 1]) = 2 /\
  Forall (fun r => countIn DiffSegment.add (DiffRecord.segments r) = 1
                   /\ countIn DiffSegment.del (DiffRecord.segments r) = 1)
    [sampleRecord 7 0; sampleRecord 7 1; sampleRecord 9 1] /\
  computeDiffMetrics [sampleRecord 7 0; sampleRecord 7 1; sampleRecord 9 1] =
    DiffMetrics.mk 3 3 3.
Proof.
  assert (HF : Forall (fun r => countIn DiffSegment.add (DiffRecord.segments r) = 1
                                /\ countIn DiffSegment.del (DiffRecord.segments r) = 1)
                 [sampleRecord 7 0; sampleRecord 7 1; sampleRecord 9 1]).
  { repeat constructor. }
  split; [reflexivity|]. split.
  - apply (proj1 (proj2 computeDiffMetrics_counts)). reflexivity.
  - split; [exact HF|]. apply (proj2 (proj2 computeDiffMetrics_counts)). exact HF.
Defined.

(** ** The heading filter *)

Lemma isChapterOneHeading_spec heading :
  isChapterOneHeading heading = true <-> chapterOne heading.
Proof.
  unfold isChapterOneHeading, chapterOne, startsWith. split.
  - destruct heading as [| |h]; try done.
    destruct (strip_prefix (str "1") h) as [rest|] eqn:Hs; [|done].
    apply strip_prefix_Some in Hs as ->. eauto.
  - intros [rest ->]. by rewrite strip_prefix_app.
Qed.

Lemma recordInScope_spec sections record :
  recordInScope sections record = true <->
  chapterOne (resolvedHeading sections record DiffRecord.oldHeading
                SectionContentRecord.oldHeading) /\
  chapterOne (resolvedHeading sections record DiffRecord.newHeading
                SectionContentRecord.newHeading).
Proof.
  unfold recordInScope, resolvedHeading.
  by rewrite andb_true_iff, !isChapterOneHeading_spec.
Qed.

(** C7, as stated, fails for a record: the record below has no heading of
    its own, and the filter keeps it, on the headings of its section. *)
Lemma heading_scope_counterexample :
  filteredDiffRecords [chapterOneSection] (some [bareRecord]) = [bareRecord] /\
  ~ (chapterOne (DiffRecord.oldHeading bareRecord) /\
     chapterOne (DiffRecord.newHeading bareRecord)).
Proof.
  split; [by vm_compute|]. by intros [[rest [=]] _].
Qed.

(** C7, amended: a section is in scope if and only if both of its headings
    are strings that begin with ["1"]; a diff record is in scope if and only
    if both of its headings, each taken from the record or, where the record
    has none, from the section with its [sectionIndex], are strings that
    begin with ["1"]. A record whose own old heading is ["2.1 Overview"] is
    out of scope, and one whose own headings are ["1. Business Overview"]
    is in scope, whatever the sections. *)
Theorem heading_scope :
  (forall sections section,
     section ∈ visibleSections sections <->
     section ∈ sections /\
     chapterOne (SectionContentRecord.oldHeading section) /\
     chapterOne (SectionContentRecord.newHeading section)) /\
  (forall sections records record,
     record ∈ filteredDiffRecords sections (some records) <->
     record ∈ records /\
     chapterOne (resolvedHeading sections record DiffRecord.oldHeading
                   SectionContentRecord.oldHeading) /\
     chapterOne (resolvedHeading sections record DiffRecord.newHeading
                   SectionContentRecord.newHeading)) /\
  (forall sections, filteredDiffRecords sections undefined = []) /\
  (forall sections record,
     DiffRecord.oldHeading record = some (str "2.1 Overview") ->
     recordInScope sections record = false) /\
  (forall sections record,
     DiffRecord.oldHeading record = some (str "1. Business Overview") ->
     DiffRecord.newHeading record = some (str "1. Business Overview") ->
     recordInScope sections record = true).
Proof.
  split_and!.
  - intros sections section. unfold visibleSections.
    rewrite list_elem_of_In, List.filter_In, <- list_elem_of_In.
    by rewrite andb_true_iff, !isChapterOneHeading_spec.
  - intros sections records record. unfold filteredDiffRecords.
    rewrite list_elem_of_In, List.filter_In, <- list_elem_of_In.
    by rewrite recordInScope_spec.
  - done.
  - intros sections record Hold. unfold recordInScope. by rewrite Hold.
  - intros sections record Hold Hnew. unfold recordInScope. by rewrite Hold, Hnew.
Qed.

Lemma heading_scope_witness :
  DiffRecord.oldHeading (DiffRecord.mk 1 0 (some (str "2.1 Overview")) null []) =
    some (str "2.1 Overview") /\
  recordInScope [chapterOneSection]
    (DiffRecord.mk 1 0 (some (str "2.1 Overview")) null []) = false.
Proof.
  split; [reflexivity|].
  by apply (proj1 (proj2 (proj2 (proj2 heading_scope)))).
Defined.

(** C10: in the scope test of a diff record the record's own headings come
    first. A record with both headings of its own is kept or dropped on
    those alone, whatever the sections are; the section with the record's
    [sectionIndex] decides only for a heading the record lacks ([null] or
    [undefined]). *)
Theorem record_headings_precedence :
  (forall sections record h h',
     DiffRecord.oldHeading record = some h ->
     DiffRecord.newHeading record = some h' ->
     recordInScope sections record = startsWith h (str "1") && startsWith h' (str "1")) /\
  (forall sections record own ofSection h,
     own record = some h ->
     resolvedHeading sections record own ofSection = some h) /\
  (forall sections record own ofSection,
     own record = null \/ own record = undefined ->
     resolvedHeading sections record own ofSection =
       opt_chain (sectionMap sections !! DiffRecord.sectionIndex record) ofSection) /\
  (forall sections record,
     recordInScope sections record =
       isChapterOneHeading (resolvedHeading sections record DiffRecord.oldHeading
                              SectionContentRecord.oldHeading)
       && isChapterOneHeading (resolvedHeading sections record DiffRecord.newHeading
                                 SectionContentRecord.newHeading)).
Proof.
  split_and!.
  - intros sections record h h' Hold Hnew. unfold recordInScope. by rewrite Hold, Hnew.
  - intros sections record own ofSection h Hown. unfold resolvedHeading. by rewrite Hown.
  - intros sections record own ofSection [Hown|Hown]; unfold resolvedHeading; by rewrite Hown.
  - done.
Qed.

Lemma record_headings_precedence_witness :
  DiffRecord.oldHeading headedRecord = some (str "1. Business Overview") /\
  DiffRecord.newHeading headedRecord = some (str "1. Business Overview") /\
  recordInScope [chapterTwoSection] headedRecord =
    startsWith (str "1. Business Overview") (str "1")
    && startsWith (str "1. Business Overview") (str "1").
Proof.
  split; [reflexivity|]. split; [reflexivity|].
  by apply (proj1 record_headings_precedence).
Defined.

(** ** The diff record builder *)

Lemma editIndexes_section pair i :
  DiffRecord.editIndex <$> sectionRecords pair i = sectionEditIndexes pair.
Proof.
  unfold sectionRecords, sectionEditIndexes.
  induction (execAll editWrapperRegex (sectionText pair) 0) as [|mt ms IH]; [done|].
  cbn [List.map]. rewrite !fmap_cons, IH. done.
Qed.

Lemma editIndexes_all pairs : forall i,
  DiffRecord.editIndex <$> allSectionRecords pairs i = flat_map sectionEditIndexes pairs.
Proof.
  induction pairs as [|pair pairs IH]; intros i; [done|].
  cbn [allSectionRecords flat_map]. by rewrite fmap_app, IH, editIndexes_section.
Qed.

(** The sequence of edit indices of the result is the same for every order
    of the sections. *)
Lemma editIndexes_order_free pairs pairs' :
  pairs ≡ₚ pairs' ->
  DiffRecord.editIndex <$> buildDiffRecords_value (some pairs) =
  DiffRecord.editIndex <$> buildDiffRecords_value (some pairs').
Proof.
  intros Hperm. unfold buildDiffRecords_value. cbn [nullish].
  apply (StronglySorted_unique Z.le).
  - apply (StronglySorted_fmap _ editIndex_le); [done|apply sort_sorted].
  - apply (StronglySorted_fmap _ editIndex_le); [done|apply sort_sorted].
  - rewrite !sort_Permutation, !editIndexes_all. by apply Permutation_flat_map.
Qed.

(** C2: [buildDiffRecords] returns the records of all sections, those of a
    section being the ones the scan of that section alone gives, sorted
    by ascending [editIndex]; the sort is stable: the records of one
    [editIndex] keep the order of the concatenation, section after section.
    A record with a smaller [editIndex] always stands before one with a
    larger [editIndex], and the sequence of the [editIndex] of the result is
    the same for every order of the sections: with an edit 5 in one section
    and an edit 2 in another, edit 2 comes first in both traversal orders.
    An [editIndex] is the Number [Number.parseInt] returns: the tokens
    9007199254740993 and 9007199254740992 are the same [editIndex], and
    their records keep the order of their sections. *)
Theorem buildDiffRecords_sorted :
  (forall pair i,
     buildDiffRecords_each pair i [] loaded = Some (sectionRecords pair i, loaded)) /\
  (forall pairs, exists out,
     buildDiffRecords pairs loaded = Some (out, loaded) /\
     out ≡ₚ allSectionRecords (nullish pairs []) 0 /\
     StronglySorted editIndex_le out /\
     (forall k, withEditIndex k out = withEditIndex k (allSectionRecords (nullish pairs []) 0)) /\
     (forall i j ri rj,
        out !! i = Some ri -> out !! j = Some rj ->
        (DiffRecord.editIndex ri < DiffRecord.editIndex rj)%Z -> i < j)) /\
  (forall pairs pairs', pairs ≡ₚ pairs' -> exists out out',
     buildDiffRecords (some pairs) loaded = Some (out, loaded) /\
     buildDiffRecords (some pairs') loaded = Some (out', loaded) /\
     DiffRecord.editIndex <$> out = DiffRecord.editIndex <$> out') /\
  (option_map (fun r => List.map (fun rec => (DiffRecord.editIndex rec, DiffRecord.sectionIndex rec))
                          (fst r))
     (buildDiffRecords (some [sectionFive; sectionTwo]) loaded)
   = Some [(2, 1); (5, 0)]%Z) /\
  (option_map (fun r => List.map (fun rec => (DiffRecord.editIndex rec, DiffRecord.sectionIndex rec))
                          (fst r))
     (buildDiffRecords (some [sectionTwo; sectionFive]) loaded)
   = Some [(2, 0); (5, 1)]%Z) /\
  (option_map (fun r => List.map (fun rec => (DiffRecord.editIndex rec, DiffRecord.sectionIndex rec))
                          (fst r))
     (buildDiffRecords (some [sectionAbove53; sectionAt53]) loaded)
   = Some [(9007199254740992, 0); (9007199254740992, 1)]%Z).
Proof.
  split_and!.
  - intros pair i. by rewrite buildDiffRecords_each_run.
  - intros pairs. exists (buildDiffRecords_value pairs).
    rewrite buildDiffRecords_run by done. unfold buildDiffRecords_value.
    split_and!.
    + done.
    + apply sort_Permutation.
    + apply sort_sorted.
    + intros k. apply sort_stable.
    + intros i j ri rj. apply sorted_before, sort_sorted.
  - intros pairs pairs' Hperm.
    exists (buildDiffRecords_value (some pairs)), (buildDiffRecords_value (some pairs')).
    rewrite !buildDiffRecords_run by done. split_and!; try done.
    by apply editIndexes_order_free.
  - by vm_compute.
  - by vm_compute.
  - by vm_compute.
Qed.

Lemma buildDiffRecords_sorted_witness :
  exists out ri rj,
    buildDiffRecords (some [sectionFive; sectionTwo]) loaded = Some (out, loaded) /\
    out !! 0 = Some ri /\ out !! 1 = Some rj /\
    (DiffRecord.editIndex ri < DiffRecord.editIndex rj)%Z /\ 0 < 1.
Proof.
  destruct (proj1 (proj2 buildDiffRecords_sorted) (some [sectionFive; sectionTwo]))
    as (out & Hrun & _ & _ & _ & Hbefore).
  exists out.
  assert (Hout : exists ri rj, out !! 0 = Some ri /\ out !! 1 = Some rj /\
                   (DiffRecord.editIndex ri < DiffRecord.editIndex rj)%Z).
  { vm_compute in Hrun. injection Hrun as <-. eexists _, _.
    split; [reflexivity|]. split; [reflexivity|]. reflexivity. }
  destruct Hout as (ri & rj & H0 & H1 & Hlt).
  exists ri, rj.
  exact (conj Hrun (conj H0 (conj H1 (conj Hlt (Hbefore 0 1 ri rj H0 H1 Hlt))))).
Defined.

(** ** The segment tokenizer *)

Lemma Tokenized_source s l : Tokenized s l -> flat_map piece_source l = s.
Proof.
  induction 1 as [g _|g ty content rest l _ _ _ _ IH]; cbn [flat_map piece_source].
  - apply app_nil_r.
  - by rewrite IH.
Qed.

Lemma addDel_Matches ty content tail :
  ty = str "add" \/ ty = str "del" ->
  Matches (pattern addDelRegex) (replicate 3 None) (tagged ty content) tail
    [None; Some ty; Some content].
Proof.
  intros Hty. unfold addDelRegex, tagged. cbn [pattern replicate].
  eapply MSeq; [apply MStr|].
  eapply MSeq; [apply (MGroup 1); destruct Hty as [-> | ->];
                [apply MAltL|apply MAltR]; apply MStr|].
  eapply MSeq; [apply MStr|].
  eapply MSeq; [apply (MGroup 2), (MStar false); by apply Forall_forall|].
  eapply MSeq; [apply MStr|]. eapply MSeq; [by apply MBackref|apply MStr].
Qed.

Lemma matchAt_noSpan s : matchAt addDelRegex s = None -> noSpanAt s.
Proof.
  intros Hnone ty content tail Hty ->.
  destruct (matchAt_complete addDelRegex _ tail _ (addDel_Matches ty content tail Hty))
    as [x Hx]; [done|]. congruence.
Qed.

Lemma search_None re : forall inp i,
  search re i inp = None -> forall j, j <= length inp -> matchAt re (drop j inp) = None.
Proof.
  induction inp as [|x inp IH]; intros i H j Hj; simpl in H.
  - destruct (matchAt re []) as [[]|] eqn:Hm; [done|]. by destruct j.
  - destruct (matchAt re (x :: inp)) as [[]|] eqn:Hm; [done|].
    destruct j as [|j]; [done|]. simpl in *. eapply IH; [done|lia].
Qed.

Lemma exec_None re s li j :
  exec re s li = None -> li <= j <= length s -> matchAt re (drop j s) = None.
Proof.
  unfold exec. intros H Hj. destruct (Nat.ltb_spec (length s) li); [lia|].
  replace j with (li + (j - li)) by lia. rewrite <- drop_drop.
  eapply search_None; [done|]. rewrite length_drop. lia.
Qed.

Lemma drop_app_length' (g1 g2 : jsstring) n : n = length g1 -> drop n (g1 ++ g2) = g2.
Proof. intros ->. apply drop_app_length. Qed.

(** The pieces the loop builds are the reading of the input in scan order. *)
Lemma piecesOf_Tokenized raw li ms :
  Scan addDelRegex raw li ms -> li <= length raw ->
  Tokenized (drop li raw) (piecesOf raw li ms).
Proof.
  induction 1 as [li H|li mt ms H _ IH]; intros Hli; cbn [piecesOf].
  - constructor. intros g1 g2 Hg. apply matchAt_noSpan.
    rewrite <- (drop_app_length' g1 g2 (length g1)), <- Hg, drop_drop by done.
    apply (exec_None _ _ li); [done|].
    apply (f_equal length) in Hg. rewrite length_drop, length_app in Hg. lia.
  - destruct (exec_sound _ _ _ _ H) as (w & rest & c & E).
    destruct (addDel_match _ _ _ (es_match _ _ _ _ _ _ _ E))
      as (ty & content & Hty & Hw & -> & Hclose).
    apply app_inv_tail in Hw as ->.
    assert (Hsplit : drop li raw = slice raw li (index mt) ++ tagged ty content ++ rest).
    { rewrite <- (es_split _ _ _ _ _ _ _ E). symmetry. apply slice_drop; apply E. }
    unfold group. rewrite !(es_group E) by done. cbn [lookup list_lookup nullish].
    rewrite Hsplit. constructor; auto.
    + intros g1 g2 Hg Hg2. apply matchAt_noSpan.
      assert (Hlen : length g1 + length g2 = index mt - li).
      { apply (f_equal length) in Hg. unfold slice in Hg.
        rewrite length_take, length_drop, length_app in Hg.
        pose proof (es_from _ _ _ _ _ _ _ E). pose proof (es_bound _ _ _ _ _ _ _ E). lia. }
      destruct g2 as [|x g2]; [done|]. simpl in Hlen.
      rewrite <- (drop_app_length' g1 ((x :: g2) ++ tagged ty content ++ rest) (length g1)) by done.
      rewrite (assoc_L (++)), <- Hg, <- Hsplit, drop_drop.
      apply (es_first _ _ _ _ _ _ _ E). lia.
    + rewrite <- (es_drop_end E). apply IH, (es_end_bound E).
Qed.

Lemma pieces_Tokenized raw : Tokenized raw (pieces raw).
Proof.
  apply (piecesOf_Tokenized raw 0); [|lia].
  apply execAll_Scan, (progressing_global gAddDel).
Qed.

Lemma toDiffSegments_loaded raw :
  toDiffSegments raw loaded = Some (flat_map piece_segments (pieces raw), loaded).
Proof. by rewrite toDiffSegments_run, <- segmentsOf_pieces. Qed.

(** C5: the tokenizer reads its input in scan order as gaps and spans; a
    span [<ty>content</ty>] gives an [add] or [del] segment whose content is
    the captured text as it is; a gap (before the first span, between two
    spans, after the last one) gives a [text] segment holding the gap as it
    is when the gap is not blank after trimming, and no segment when it is. *)
Theorem toDiffSegments_pieces :
  (forall raw,
     toDiffSegments raw loaded = Some (flat_map piece_segments (pieces raw), loaded) /\
     Tokenized raw (pieces raw) /\
     flat_map piece_source (pieces raw) = raw) /\
  (forall g, piece_segments (Gap g) =
             if nonBlank g then [DiffSegment.mk DiffSegment.text g] else []) /\
  (forall content,
     piece_segments (Span (str "add") content) = [DiffSegment.mk DiffSegment.add content] /\
     piece_segments (Span (str "del") content) = [DiffSegment.mk DiffSegment.del content]) /\
  toDiffSegments (str "pre<add>X</add>mid<del>Y</del>post") loaded =
    Some ([DiffSegment.mk DiffSegment.text (str "pre");
           DiffSegment.mk DiffSegment.add (str "X");
           DiffSegment.mk DiffSegment.text (str "mid");
           DiffSegment.mk DiffSegment.del (str "Y");
           DiffSegment.mk DiffSegment.text (str "post")], loaded) /\
  toDiffSegments (str "<add>X</add>   <del>Y</del>") loaded =
    Some ([DiffSegment.mk DiffSegment.add (str "X");
           DiffSegment.mk DiffSegment.del (str "Y")], loaded) /\
  toDiffSegments (str "<add> X </add>") loaded =
    Some ([DiffSegment.mk DiffSegment.add (str " X ")], loaded).
Proof.
  split_and!.
  - intros raw. split_and!.
    + apply toDiffSegments_loaded.
    + apply pieces_Tokenized.
    + apply Tokenized_source, pieces_Tokenized.
  - done.
  - done.
  - by vm_compute.
  - by vm_compute.
  - by vm_compute.
Qed.

(** ** What the segments keep of the body *)

Lemma contents_pieces l : contents (flat_map piece_segments l) = flat_map piece_kept l.
Proof.
  unfold contents. induction l as [|p l IH]; [done|]. cbn [flat_map].
  rewrite flat_map_app, IH. f_equal.
  destruct p as [g|ty content]; cbn [piece_segments piece_kept].
  - destruct (nonBlank g); simpl; by rewrite ?app_nil_r.
  - simpl. by rewrite app_nil_r.
Qed.

Lemma piece_kept_sublist p : piece_kept p `sublist_of` piece_source p.
Proof.
  destruct p as [g|ty content]; cbn [piece_kept piece_source].
  - destruct (nonBlank g); [done|apply sublist_nil_l].
  - unfold tagged. do 3 apply sublist_inserts_l. by apply sublist_inserts_r.
Qed.

Lemma kept_sublist l : flat_map piece_kept l `sublist_of` flat_map piece_source l.
Proof.
  induction l as [|p l IH]; [done|]. cbn [flat_map].
  apply sublist_app; [apply piece_kept_sublist|done].
Qed.

Lemma piece_kept_length p : length (piece_kept p) <= length (piece_source p).
Proof. apply sublist_length, piece_kept_sublist. Qed.

Lemma kept_length l : length (flat_map piece_kept l) <= length (flat_map piece_source l).
Proof. apply sublist_length, kept_sublist. Qed.

(** The segments give back the input exactly when there is no span and the
    only gap is empty or not blank. *)
Lemma kept_exact s l :
  Tokenized s l ->
  (flat_map piece_kept l = s <-> l = [Gap s] /\ (nonBlank s = true \/ s = [])).
Proof.
  intros HT. split.
  - destruct HT as [g _|g ty content rest l _ _ _ HT]; cbn [flat_map piece_kept].
    + rewrite app_nil_r. destruct (nonBlank g); [auto|]. intros <-. auto.
    + intros Heq. apply (f_equal length) in Heq. exfalso.
      apply Tokenized_source in HT. rewrite <- HT in Heq.
      pose proof (piece_kept_length (Gap g)) as H1. pose proof (kept_length l) as H2.
      cbn [piece_kept piece_source] in H1. unfold tagged in Heq.
      rewrite !length_app in Heq. cbn [piece_kept] in Heq.
      assert (0 < length (str "<")) by (vm_compute; lia). lia.
  - intros [-> Hs]. cbn [flat_map piece_kept]. rewrite app_nil_r.
    destruct Hs as [-> | ->]; done.
Qed.

Lemma elem_of_allSectionRecords r pairs : forall i,
  r ∈ allSectionRecords pairs i ->
  exists pair j, pair ∈ pairs /\ r ∈ sectionRecords pair j.
Proof.
  induction pairs as [|pair pairs IH]; intros i; cbn [allSectionRecords].
  - by intros ?%elem_of_nil.
  - rewrite elem_of_app. intros [Hr|Hr].
    + exists pair, i. split; [apply list_elem_of_here|done].
    + destruct (IH _ Hr) as (pair' & j & Hp & Hj).
      exists pair', j. split; [by apply list_elem_of_further|done].
Qed.

Lemma editWrapper_exec text li mt :
  exec editWrapperRegex text li = Some mt ->
  exists d attrs body ws1 ws2 ws3,
    slice text (index mt) (matchEnd mt) = wrapperText d attrs body ws1 ws2 ws3 /\
    group mt 1 = some d /\ group mt 2 = some body.
Proof.
  intros H. destruct (exec_sound _ _ _ _ H) as (w & rest & c & E).
  destruct (editWrapper_shape _ _ _ (es_Matches E))
    as (d & attrs & body & ws1 & ws2 & ws3 & -> & -> & _).
  exists d, attrs, body, ws1, ws2, ws3. rewrite (es_slice E). unfold group.
  by rewrite !(es_group E).
Qed.

(** C1, as stated, fails: the body of the edit wrapper below is
    [<add>X</add>], and the segments of its record hold [X]. *)
Lemma segments_lossless_counterexample :
  List.map (fun mt => group mt 2) (execAll editWrapperRegex (sectionText insertedSection) 0)
    = [some (str "<add>X</add>")] /\
  buildDiffRecords (some [insertedSection]) loaded = Some ([insertedRecord], loaded) /\
  contents (DiffRecord.segments insertedRecord) = str "X" /\
  contents (DiffRecord.segments insertedRecord) <> str "<add>X</add>".
Proof. split_and!; by vm_compute. Qed.

(** C1, amended: the segments of every record of the engine come from the
    body of an edit wrapper of a section, read in scan order as gaps and
    spans; their contents, one after the other, are that body without the
    tags of its spans and without the gaps that are blank after trimming,
    so a subsequence of the body; they are the body exactly when the body
    has no span and is empty or not blank. *)
Theorem segments_keep_body :
  forall pairs, exists out,
    buildDiffRecords pairs loaded = Some (out, loaded) /\
    forall record, record ∈ out ->
      exists pair pairIndex mt d attrs body ws1 ws2 ws3,
        pair ∈ nullish pairs [] /\
        mt ∈ execAll editWrapperRegex (sectionText pair) 0 /\
        slice (sectionText pair) (index mt) (matchEnd mt) =
          wrapperText d attrs body ws1 ws2 ws3 /\
        record = recordOf pair pairIndex mt /\
        DiffRecord.editIndex record = parseInt10 (some d) /\
        DiffRecord.segments record = flat_map piece_segments (pieces body) /\
        Tokenized body (pieces body) /\
        contents (DiffRecord.segments record) = flat_map piece_kept (pieces body) /\
        contents (DiffRecord.segments record) `sublist_of` body /\
        (contents (DiffRecord.segments record) = body <->
         pieces body = [Gap body] /\ (nonBlank body = true \/ body = [])).
Proof.
  intros pairs. exists (buildDiffRecords_value pairs).
  split; [by apply buildDiffRecords_run|].
  intros record Hin. unfold buildDiffRecords_value in Hin.
  rewrite sort_Permutation in Hin.
  apply elem_of_allSectionRecords in Hin as (pair & j & Hpair & Hin).
  unfold sectionRecords in Hin. apply list_elem_of_In, List.in_map_iff in Hin
    as (mt & <- & Hmt). apply list_elem_of_In in Hmt.
  destruct (Scan_elem _ _ _ _ _
              (execAll_Scan _ (sectionText pair) 0 (progressing_global gEditWrapper)) Hmt)
    as (li & He).
  destruct (editWrapper_exec _ _ _ He) as (d & attrs & body & ws1 & ws2 & ws3 & Hw & H1 & H2).
  exists pair, j, mt, d, attrs, body, ws1, ws2, ws3.
  pose proof (pieces_Tokenized body) as HT.
  assert (Hsegs : DiffRecord.segments (recordOf pair j mt) =
                    flat_map piece_segments (pieces body)).
  { unfold recordOf. cbn [DiffRecord.segments]. rewrite H2. apply segmentsOf_pieces. }
  rewrite Hsegs, contents_pieces. split_and!; auto.
  - unfold recordOf. cbn [DiffRecord.editIndex]. by rewrite H1.
  - rewrite <- (Tokenized_source _ _ HT) at 2. apply kept_sublist.
  - by apply kept_exact.
Qed.

Lemma segments_keep_body_witness :
  exists out record,
    buildDiffRecords (some [insertedSection]) loaded = Some (out, loaded) /\
    record ∈ out /\
    exists pair pairIndex mt d attrs body ws1 ws2 ws3,
      pair ∈ [insertedSection] /\
      mt ∈ execAll editWrapperRegex (sectionText pair) 0 /\
      slice (sectionText pair) (index mt) (matchEnd mt) =
        wrapperText d attrs body ws1 ws2 ws3 /\
      record = recordOf pair pairIndex mt /\
      DiffRecord.editIndex record = parseInt10 (some d) /\
      DiffRecord.segments record = flat_map piece_segments (pieces body) /\
      Tokenized body (pieces body) /\
      contents (DiffRecord.segments record) = flat_map piece_kept (pieces body) /\
      contents (DiffRecord.segments record) `sublist_of` body /\
      (contents (DiffRecord.segments record) = body <->
       pieces body = [Gap body] /\ (nonBlank body = true \/ body = [])).
Proof.
  destruct (segments_keep_body (some [insertedSection])) as (out & Hrun & Hall).
  assert (Hin : exists record, record ∈ out).
  { vm_compute in Hrun. injection Hrun as <-. eexists. apply list_elem_of_here. }
  destruct Hin as (record & Hin).
  exists out, record. exact (conj Hrun (conj Hin (Hall record Hin))).
Defined.

(** ** The block extractor *)

Lemma progressing_block kind : progressing (blockRegex kind).
Proof. apply progressing_literal. Qed.

(** The matches of a loop follow one another without overlap. *)
Lemma Scan_ordered re s li ms :
  progressing re -> Scan re s li ms ->
  Forall (fun mt => li <= index mt /\ index mt < matchEnd mt /\ matchEnd mt <= length s) ms /\
  StronglySorted (fun a b => matchEnd a <= index b) ms.
Proof.
  intros Hp. induction 1 as [li H|li mr ms H _ [IH1 IH2]]; [by split; constructor|].
  destruct (exec_progress _ _ _ _ Hp H) as (H1 & H2 & H3). split.
  - constructor; [done|]. eapply Forall_impl; [exact IH1|]. simpl. lia.
  - constructor; [done|]. eapply Forall_impl; [exact IH1|]. simpl. lia.
Qed.

Lemma StronglySorted_lookup {A} (R : A -> A -> Prop) l i j a b :
  StronglySorted R l -> l !! i = Some a -> l !! j = Some b -> i < j -> R a b.
Proof.
  intros Hs. revert i j. induction Hs as [|x l Hl IH Hx]; intros i j Hi Hj Hlt; [done|].
  destruct i as [|i], j as [|j]; simpl in *; simplify_eq; try lia.
  - rewrite Forall_forall in Hx. by eapply Hx, list_elem_of_lookup_2.
  - eapply IH; eauto. lia.
Qed.

Lemma block_Matches kind d body ws1 ws2 ws3 ws4 ws5 tail :
  d <> [] -> isRun isDigit d ->
  ws1 <> [] -> isRun ws ws1 -> ws2 <> [] -> isRun ws ws2 -> isRun ws ws3 ->
  ws4 <> [] -> isRun ws ws4 -> ws5 <> [] -> isRun ws ws5 ->
  Matches (blockPattern kind) (replicate 3 None)
    (blockText kind d body ws1 ws2 ws3 ws4 ws5) tail [None; Some d; Some body].
Proof.
  intros. unfold blockPattern, blockText. cbn [replicate].
  eapply MSeq; [apply MStr|]. eapply MSeq; [by apply MPlus|].
  eapply MSeq; [by apply (MGroup 1), MPlus|]. eapply MSeq; [by apply MPlus|].
  eapply MSeq; [apply MStr|]. eapply MSeq; [by apply MStar|].
  eapply MSeq; [apply (MGroup 2), (MStar false); by apply Forall_forall|].
  eapply MSeq; [apply MStr|]. eapply MSeq; [by apply MPlus|].
  eapply MSeq; [by apply MBackref|]. eapply MSeq; [by apply MPlus|apply MStr].
Qed.

(** What a match of a block pattern is: a block with the same index token
    in both tags, whose body ends at the first closing tag with that token. *)
Lemma block_exec kind raw li mt :
  exec (blockRegex kind) raw li = Some mt ->
  exists d body ws1 ws2 ws3 ws4 ws5,
    slice raw (index mt) (matchEnd mt) = blockText kind d body ws1 ws2 ws3 ws4 ws5 /\
    group mt 1 = some d /\ group mt 2 = some body /\
    d <> [] /\ isRun isDigit d /\
    ws1 <> [] /\ isRun ws ws1 /\ ws2 <> [] /\ isRun ws ws2 /\ isRun ws ws3 /\
    ws4 <> [] /\ isRun ws ws4 /\ ws5 <> [] /\ isRun ws ws5 /\
    forall b1 b2, body = b1 ++ b2 -> b2 <> [] ->
      ~ closesAt kind d (b2 ++ closeTag kind d ws4 ws5 ++ drop (matchEnd mt) raw).
Proof.
  intros H. destruct (exec_sound _ _ _ _ H) as (w & rest & c & E).
  destruct (block_match _ _ _ _ (es_match _ _ _ _ _ _ _ E))
    as (d & body & ws1 & ws2 & ws3 & ws4 & ws5 & Hw & -> & Hrest).
  apply app_inv_tail in Hw as ->.
  exists d, body, ws1, ws2, ws3, ws4, ws5.
  rewrite (es_slice E), (es_drop_end E). unfold group.
  rewrite !(es_group E) by done. cbn [lookup list_lookup].
  destruct Hrest as (? & ? & ? & ? & ? & ? & ? & ? & ? & ? & ? & Hfirst).
  split_and!; auto.
  intros b1 b2 Hb Hb2 (ws4' & ws5' & tail & ? & ? & ? & ? & Heq).
  by eapply (Hfirst b1 b2 ws4' ws5' tail).
Qed.

Lemma isBlock_exec kind raw li mt :
  exec (blockRegex kind) raw li = Some mt ->
  exists d body,
    isBlock kind d body (slice raw (index mt) (matchEnd mt)) /\
    group mt 1 = some d /\ group mt 2 = some body.
Proof.
  intros H. destruct (block_exec _ _ _ _ H)
    as (d & body & ws1 & ws2 & ws3 & ws4 & ws5 & Hw & H1 & H2 & Hrest).
  exists d, body. split_and!; auto.
  exists ws1, ws2, ws3, ws4, ws5. split; [done|]. tauto.
Qed.

(** A position where the pattern matches is found by [exec], unless an
    earlier position matches. *)
Lemma search_complete re : forall inp i p,
  p <= length inp -> is_Some (matchAt re (drop p inp)) ->
  exists mt, search re i inp = Some mt /\ index mt <= i + p.
Proof.
  induction inp as [|x inp IH]; intros i p Hp Hm; simpl.
  - destruct p; [|simpl in Hp; lia]. simpl in Hm. destruct Hm as [[c rest] ->].
    eexists. split; [done|]. simpl. lia.
  - destruct (matchAt re (x :: inp)) as [[c rest]|] eqn:Hmx.
    + eexists. split; [done|]. simpl. lia.
    + destruct p as [|p]; [simpl in Hm; rewrite Hmx in Hm; by destruct Hm|].
      simpl in Hp, Hm. destruct (IH (S i) p ltac:(lia) Hm) as (mt & Hs & Hi).
      exists mt. split; [done|]. lia.
Qed.

Lemma exec_complete re s li p :
  li <= p <= length s -> is_Some (matchAt re (drop p s)) ->
  exists mt, exec re s li = Some mt /\ index mt <= p.
Proof.
  intros Hp Hm. unfold exec. destruct (Nat.ltb_spec (length s) li); [lia|].
  destruct (search_complete re (drop li s) li (p - li)) as (mt & Hs & Hi).
  - rewrite length_drop. lia.
  - rewrite drop_drop. by replace (li + (p - li)) with p by lia.
  - exists mt. split; [done|]. lia.
Qed.

(** Every position where the pattern matches lies in one of the matches of
    the loop. *)
Lemma Scan_covers re s li ms p :
  progressing re -> Scan re s li ms ->
  li <= p <= length s -> is_Some (matchAt re (drop p s)) ->
  exists mt, mt ∈ ms /\ index mt <= p < matchEnd mt.
Proof.
  intros Hprog. induction 1 as [li H|li mr ms H _ IH]; intros Hp Hm.
  - destruct (exec_complete re s li p Hp Hm) as (mt & He & _). congruence.
  - destruct (exec_complete re s li p Hp Hm) as (mt & He & Hi).
    assert (mt = mr) as -> by congruence.
    destruct (decide (p < matchEnd mr)) as [Hlt|Hge].
    + exists mr. split; [apply list_elem_of_here|lia].
    + destruct IH as (mt' & Hin & Hi'); [lia|done|].
      exists mt'. split; [by apply list_elem_of_further|done].
Qed.

Lemma execAll_nil re : progressing re -> execAll re [] 0 = [].
Proof.
  intros Hp. rewrite execAll_null; [done|].
  destruct (exec re [] 0) as [mt|] eqn:He; [|done].
  destruct (exec_progress _ _ _ _ Hp He) as (_ & ? & ?). simpl in *. lia.
Qed.

Lemma blocks_nil kind : blocks kind [] = [].
Proof. unfold blocks. by rewrite execAll_nil by apply progressing_block. Qed.

Lemma nullish_falsy raw : falsy raw = true -> nullish raw [] = [].
Proof. by destruct raw as [| |[|]]. Qed.

(** The loops of [parseStage1] and [parseStage2] run over the matches of
    the block pattern of their kind. *)
Lemma parseStage1_matches raw :
  parseStage1 raw loaded =
    Some (List.map stage1ItemOf (execAll (blockRegex (str "edit")) (nullish raw []) 0), loaded).
Proof.
  rewrite parseStage1_run. unfold parseStage1_value. destruct (falsy raw) eqn:Hf; [|done].
  by rewrite (nullish_falsy _ Hf), execAll_nil by apply progressing_block.
Qed.

Lemma parseStage2_matches raw :
  parseStage2 raw loaded =
    Some (List.map stage2ClusterOf (execAll (blockRegex (str "Cluster")) (nullish raw []) 0),
          loaded).
Proof.
  rewrite parseStage2_run. unfold parseStage2_value. destruct (falsy raw) eqn:Hf; [|done].
  by rewrite (nullish_falsy _ Hf), execAll_nil by apply progressing_block.
Qed.

Lemma parseStage1_loaded raw :
  parseStage1 raw loaded =
    Some (List.map stage1ItemOfBlock (blocks (str "edit") (nullish raw [])), loaded).
Proof.
  rewrite parseStage1_run. unfold parseStage1_value.
  destruct (falsy raw) eqn:Hf.
  - by rewrite (nullish_falsy _ Hf), blocks_nil.
  - unfold blocks. by rewrite List.map_map.
Qed.

Lemma block_elem kind raw mt :
  mt ∈ execAll (blockRegex kind) raw 0 ->
  exists li, exec (blockRegex kind) raw li = Some mt.
Proof.
  intros Hin. eapply Scan_elem; [apply execAll_Scan, progressing_block|exact Hin].
Qed.

(** The greedy star gives its continuation the longest run after which the
    continuation succeeds. *)
Lemma star_greedy_last {R} p (k : jsstring -> option R) inp res :
  star true p k inp = Some res ->
  exists w rest, inp = w ++ rest /\ isRun p w /\ k rest = Some res /\
    forall w2 rest2, rest = w2 ++ rest2 -> w2 <> [] -> isRun p w2 -> k rest2 = None.
Proof.
  induction inp as [|x inp IH]; simpl.
  - intros Hk. exists [], []. split_and!; [done|constructor|done|].
    intros w2 rest2 E Hw2. by destruct w2.
  - destruct (p x) eqn:Hp.
    + intros [H|[Hnone Hk]]%orelse_Some.
      * apply IH in H as (w & rest & -> & Hw & Hk & Hmax).
        exists (x :: w), rest. split_and!; [done|by constructor|done|done].
      * exists [], (x :: inp). split_and!; [done|constructor|done|].
        intros w2 rest2 E Hw2 Hrun. destruct w2 as [|y w2]; [done|]. simplify_eq/=.
        apply Forall_cons in Hrun as [_ Hrun].
        destruct (k rest2) eqn:Hk2; [|done].
        destruct (star_complete true p k w2 rest2 Hrun) as [res2 Hres2]; [by rewrite Hk2|].
        congruence.
    + intros Hk. exists [], (x :: inp). split_and!; [done|constructor|done|].
      intros w2 rest2 E Hw2 Hrun. destruct w2 as [|y w2]; [done|]. simplify_eq/=.
      apply Forall_cons in Hrun as [Hy _]. congruence.
Qed.

Lemma m_Star g p k c inp : m (Star g p) k c inp = star g p (k c) inp.
Proof. done. Qed.

(** A match of a block pattern at the front of [inp], as [block_match] has
    it, and the body does not begin with white space: the [\s*] behind the
    opening tag has taken it. *)
Lemma block_match_tight kind inp c rest :
  matchAt (mkRegExp (blockPattern kind) 2) inp = Some (c, rest) ->
  exists d body ws1 ws2 ws3 ws4 ws5,
    inp = blockText kind d body ws1 ws2 ws3 ws4 ws5 ++ rest /\
    c = [None; Some d; Some body] /\
    d <> [] /\ isRun isDigit d /\
    ws1 <> [] /\ isRun ws ws1 /\ ws2 <> [] /\ isRun ws ws2 /\ isRun ws ws3 /\
    ws4 <> [] /\ isRun ws ws4 /\ ws5 <> [] /\ isRun ws ws5 /\
    (forall b1 b2 ws4' ws5' tail,
       body = b1 ++ b2 -> b2 <> [] ->
       ws4' <> [] -> isRun ws ws4' -> ws5' <> [] -> isRun ws ws5' ->
       b2 ++ closeTag kind d ws4 ws5 ++ rest <> closeTag kind d ws4' ws5' ++ tail) /\
    (forall x t, body = x :: t -> ws x = false).
Proof.
  unfold matchAt, blockPattern, blockText, closeTag. cbn [pattern ngroups replicate].
  generalize (str "<" ++ kind) (str "</" ++ kind) (str "Desc>"). intros lo lc ld H.
  rewrite m_Seq in H. apply m_sound in H as (o & ? & c1 & -> & M1 & H).
  rewrite m_Seq in H. apply m_sound in H as (ws1 & ? & c2 & -> & M2 & H).
  rewrite m_Seq in H. apply m_sound in H as (d & ? & c3 & -> & M3 & H).
  rewrite m_Seq in H. apply m_sound in H as (ws2 & ? & c4 & -> & M4 & H).
  rewrite m_Seq in H. apply m_sound in H as (o' & ? & c5 & -> & M5 & H).
  rewrite m_Seq, m_Star in H.
  apply star_greedy_last in H as (ws3 & ? & -> & Rws3 & H & Hmax).
  pose proof H as Hbody.
  apply lazy_group_shortest in H as (body & rest' & -> & _ & H & Hfirst); [|done].
  apply Matches_Str_inv in M1 as [-> ->].
  apply Matches_Plus_inv in M2 as (Hws1 & Rws1 & ->).
  apply Matches_Group_inv in M3 as (c3' & M3 & ->).
  apply Matches_Plus_inv in M3 as (Hd & Rd & ->).
  apply Matches_Plus_inv in M4 as (Hws2 & Rws2 & ->).
  apply Matches_Str_inv in M5 as [-> ->].
  cbn [insert list_insert] in *.
  pose proof H as H'. apply m_sound in H' as (w' & rest'' & c' & -> & HM' & [= <- <-]).
  pose proof HM' as Hclose.
  apply Matches_Seq_inv in HM' as (l1 & ? & ? & -> & N1 & HM').
  apply Matches_Seq_inv in HM' as (ws4 & ? & ? & -> & N2 & HM').
  apply Matches_Seq_inv in HM' as (d' & ? & ? & -> & N3 & HM').
  apply Matches_Seq_inv in HM' as (ws5 & l2 & ? & -> & N4 & N5).
  apply Matches_Str_inv in N1 as [-> ->].
  apply Matches_Plus_inv in N2 as (Hws4 & Rws4 & ->).
  apply (Matches_Backref_inv _ _ _ _ _ d) in N3 as [-> ->]; [|done].
  apply Matches_Plus_inv in N4 as (Hws5 & Rws5 & ->).
  apply Matches_Str_inv in N5 as [-> ->].
  exists d, body, ws1, ws2, ws3, ws4, ws5. split_and!; auto.
  - by rewrite <- !(assoc_L (++)).
  - intros b1 b2 ws4' ws5' tail Hb Hb2 ? ? ? ? Heq.
    eapply (Hfirst b1 b2 (lc ++ ws4' ++ d ++ ws5' ++ ld) tail _ Hb Hb2).
    + eapply MSeq; [apply MStr|]. eapply MSeq; [by apply MPlus|].
      eapply MSeq; [by apply MBackref|]. eapply MSeq; [by apply MPlus|apply MStr].
    + rewrite <- Heq. by rewrite <- !(assoc_L (++)).
  - intros x t -> . destruct (ws x) eqn:Hx; [|done]. exfalso.
    assert (is_Some (m (Group 2 (Star false anyChar);; Str lc;; Plus ws;; Backref 1;; Plus ws;; Str ld)
                       (fun c' inp' => Some (c', inp')) [None; Some d; None]
                       ((t ++ lc ++ ws4 ++ d ++ ws5 ++ ld) ++ rest''))) as [r Hr].
    { eapply (m_complete _ _ _ _ [None; Some d; Some t]); [|done|done].
      eapply MSeq; [apply (MGroup 2), (MStar false); by apply Forall_forall|].
      eapply MSeq; [apply MStr|]. eapply MSeq; [by apply MPlus|].
      eapply MSeq; [by apply MBackref|]. eapply MSeq; [by apply MPlus|apply MStr]. }
    rewrite (Hmax [x] ((t ++ lc ++ ws4 ++ d ++ ws5 ++ ld) ++ rest'')) in Hr; [done| |done|].
    + by rewrite <- !(assoc_L (++)).
    + by repeat constructor.
Qed.

Lemma isBlock_tags kind d body o c :
  isOpenTag kind d o -> isCloseTag kind d c -> isBlock kind d body (o ++ body ++ c).
Proof.
  intros (ws1 & ws2 & ws3 & -> & ?) (ws4 & ws5 & -> & ?).
  exists ws1, ws2, ws3, ws4, ws5. split; [|tauto].
  unfold blockText, closeTag. by rewrite <- !(assoc_L (++)).
Qed.

Lemma matchAt_noBlock kind s : matchAt (blockRegex kind) s = None -> noBlockAt kind s.
Proof.
  intros Hnone d body w rest (ws1 & ws2 & ws3 & ws4 & ws5 & -> & Hrest) ->.
  destruct (matchAt_complete (blockRegex kind)
              (blockText kind d body ws1 ws2 ws3 ws4 ws5) rest [None; Some d; Some body])
    as [x Hx]; [apply block_Matches; tauto|done|congruence].
Qed.

(** The matches of the loop are the reading of the input from left to
    right. *)
Lemma tokens_BlockRead kind raw li ms :
  Scan (blockRegex kind) raw li ms -> li <= length raw ->
  BlockRead kind (drop li raw) (List.map tokenOf ms).
Proof.
  induction 1 as [li H|li mt ms H _ IH]; intros Hli; cbn [List.map].
  - constructor. intros p1 p2 Hp. apply matchAt_noBlock.
    rewrite <- (drop_app_length' p1 p2 (length p1)), <- Hp, drop_drop by done.
    apply (exec_None _ _ li); [done|].
    apply (f_equal length) in Hp. rewrite length_drop, length_app in Hp. lia.
  - destruct (exec_sound _ _ _ _ H) as (w & rest & c & E).
    destruct (block_match_tight _ _ _ _ (es_match _ _ _ _ _ _ _ E))
      as (d & body & ws1 & ws2 & ws3 & ws4 & ws5 & Hw & -> & Hd & Rd & H1 & R1 & H2 & R2
          & R3 & H4 & R4 & H5 & R5 & Hfirst & Htight).
    apply app_inv_tail in Hw as ->.
    set (o := (str "<" ++ kind) ++ ws1 ++ d ++ ws2 ++ str "Desc>" ++ ws3).
    set (cl := closeTag kind d ws4 ws5).
    assert (Hsplit : drop li raw = slice raw li (index mt) ++ o ++ body ++ cl ++ rest).
    { rewrite <- (slice_drop raw li (index mt)) by apply E.
      rewrite (es_split _ _ _ _ _ _ _ E). unfold blockText, o, cl, closeTag.
      by rewrite <- !(assoc_L (++)). }
    unfold tokenOf, group. rewrite !(es_group E) by done. cbn [lookup list_lookup nullish].
    rewrite Hsplit. constructor.
    + exists ws1, ws2, ws3. by split_and!.
    + exists ws4, ws5. by split_and!.
    + done.
    + intros b1 b2 Hb Hb2 (ws4' & ws5' & tail & ? & ? & ? & ? & Heq).
      by eapply (Hfirst b1 b2 ws4' ws5' tail).
    + intros p1 p2 Hp Hp2. apply matchAt_noBlock.
      assert (Hlen : length p1 + length p2 = index mt - li).
      { apply (f_equal length) in Hp. unfold slice in Hp.
        rewrite length_take, length_drop, length_app in Hp.
        pose proof (es_from _ _ _ _ _ _ _ E). pose proof (es_bound _ _ _ _ _ _ _ E). lia. }
      destruct p2 as [|x p2]; [done|]. simpl in Hlen.
      rewrite <- (drop_app_length' p1 ((x :: p2) ++ o ++ body ++ cl ++ rest) (length p1)) by done.
      rewrite (assoc_L (++)), <- Hp, <- Hsplit, drop_drop.
      apply (es_first _ _ _ _ _ _ _ E). lia.
    + rewrite <- (es_drop_end E). apply IH, (es_end_bound E).
Qed.

Lemma blocks_tokens kind raw :
  blocks kind raw = List.map blockOfToken (List.map tokenOf (execAll (blockRegex kind) raw 0)).
Proof.
  unfold blocks. rewrite List.map_map. apply List.map_ext_in. intros mt Hmt.
  apply list_elem_of_In in Hmt.
  destruct (Scan_elem _ _ _ _ _ (execAll_Scan _ raw 0 (progressing_block kind)) Hmt)
    as (li & He).
  destruct (block_exec _ _ _ _ He) as (d & body & ? & ? & ? & ? & ? & _ & H1 & H2 & _).
  unfold blockOf, blockOfToken, tokenOf. by rewrite H1, H2.
Qed.

(** ** The reading of the blocks is unique *)

Lemma digit_not_ws x : isDigit x = true -> ws x = false.
Proof.
  unfold isDigit. intros [H1 H2]%andb_prop.
  apply N.leb_le in H1, H2.
  assert (x = 48 \/ x = 49 \/ x = 50 \/ x = 51 \/ x = 52 \/ x = 53 \/ x = 54 \/ x = 55
          \/ x = 56 \/ x = 57)%N as Hx by lia.
  destruct Hx as [->|[->|[->|[->|[->|[->|[->|[->|[->| ->]]]]]]]]]; reflexivity.
Qed.

Lemma ws_not_digit x : ws x = true -> isDigit x = false.
Proof.
  intros Hx. destruct (isDigit x) eqn:Hd; [|done].
  apply digit_not_ws in Hd. congruence.
Qed.

(** A run of a class in front of a character outside the class, or of the
    end, is determined by the text. *)
Lemma run_split_unique p (w1 : jsstring) : forall w2 r1 r2,
  isRun p w1 -> isRun p w2 -> w1 ++ r1 = w2 ++ r2 ->
  (forall x t, r1 = x :: t -> p x = false) ->
  (forall x t, r2 = x :: t -> p x = false) ->
  w1 = w2 /\ r1 = r2.
Proof.
  induction w1 as [|x w1 IH]; intros w2 r1 r2 H1 H2 E Hr1 Hr2.
  - destruct w2 as [|y w2]; [done|]. simpl in E.
    apply Forall_cons in H2 as [Hy _]. rewrite (Hr1 _ _ E) in Hy. done.
  - apply Forall_cons in H1 as [Hx H1]. destruct w2 as [|y w2]; simpl in E.
    + rewrite (Hr2 x (w1 ++ r1)) in Hx; done.
    + apply Forall_cons in H2 as [_ H2]. simplify_eq.
      destruct (IH w2 r1 r2) as [-> ->]; auto.
Qed.

Lemma head_run p q (w r : jsstring) :
  w <> [] -> isRun p w -> (forall x, p x = true -> q x = false) ->
  forall x t, w ++ r = x :: t -> q x = false.
Proof.
  intros Hw Hrun Hpq x t E. destruct w as [|y w]; [done|]. simplify_eq/=.
  apply Forall_cons in Hrun as [Hy _]. auto.
Qed.

Lemma head_Desc q (r : jsstring) :
  q 68%N = false -> forall x t, str "Desc>" ++ r = x :: t -> q x = false.
Proof. intros Hq x t E. change (str "Desc>") with [68; 101; 115; 99; 62]%N in E. by simplify_eq/=. Qed.

Lemma head_close kind d c r :
  isCloseTag kind d c -> forall x t, c ++ r = x :: t -> ws x = false.
Proof.
  intros (ws4 & ws5 & -> & _) x t E. unfold closeTag in E.
  change (str "</") with [60; 47]%N in E. by simplify_eq/=.
Qed.

Lemma openTag_unique kind d d' o o' r r' :
  isOpenTag kind d o -> isOpenTag kind d' o' -> o ++ r = o' ++ r' ->
  (forall x t, r = x :: t -> ws x = false) ->
  (forall x t, r' = x :: t -> ws x = false) ->
  d = d' /\ o = o' /\ r = r'.
Proof.
  intros (ws1 & ws2 & ws3 & -> & Hd & Rd & H1 & R1 & H2 & R2 & R3)
         (ws1' & ws2' & ws3' & -> & Hd' & Rd' & H1' & R1' & H2' & R2' & R3') E Hr Hr'.
  rewrite <- !(assoc_L (++)) in E. do 2 apply app_inv_head in E.
  destruct (run_split_unique ws _ _ _ _ R1 R1' E) as [<- E1];
    [by apply (head_run isDigit ws); [| |apply digit_not_ws]..|].
  destruct (run_split_unique isDigit _ _ _ _ Rd Rd' E1) as [<- E2];
    [by apply (head_run ws isDigit); [| |apply ws_not_digit]..|].
  destruct (run_split_unique ws _ _ _ _ R2 R2' E2) as [<- E3]; [by apply head_Desc..|].
  apply app_inv_head in E3.
  destruct (run_split_unique ws _ _ _ _ R3 R3' E3) as [<- E4]; [done..|].
  by subst.
Qed.

Lemma closeTag_unique kind d c c' r r' :
  d <> [] -> isRun isDigit d ->
  isCloseTag kind d c -> isCloseTag kind d c' -> c ++ r = c' ++ r' ->
  c = c' /\ r = r'.
Proof.
  intros Hd Rd (ws4 & ws5 & -> & H4 & R4 & H5 & R5)
         (ws4' & ws5' & -> & H4' & R4' & H5' & R5') E.
  unfold closeTag in *. rewrite <- !(assoc_L (++)) in E. do 2 apply app_inv_head in E.
  destruct (run_split_unique ws _ _ _ _ R4 R4' E) as [<- E1];
    [by apply (head_run isDigit ws); [| |apply digit_not_ws]..|].
  apply app_inv_head in E1.
  destruct (run_split_unique ws _ _ _ _ R5 R5' E1) as [<- E2]; [by apply head_Desc..|].
  apply app_inv_head in E2. by subst.
Qed.

Lemma body_head kind d body c rest :
  isCloseTag kind d c -> (forall x t, body = x :: t -> ws x = false) ->
  forall x t, body ++ c ++ rest = x :: t -> ws x = false.
Proof.
  intros Hc Hb x t E. destruct body as [|y body].
  - by apply (head_close kind d c rest Hc x t).
  - simplify_eq/=. by apply (Hb x body).
Qed.

Lemma BlockRead_functional kind s l :
  BlockRead kind s l -> forall l', BlockRead kind s l' -> l = l'.
Proof.
  induction 1 as [s Hnone|pre o d body c rest l Ho Hc Ht Hf Hl _ IH]; intros l' H'.
  - inversion H' as [|pre' o' d' body' c' rest' l'' Ho' Hc' Ht' Hf' Hl' Hr' E]; [done|].
    exfalso. subst.
    apply (Hnone pre' (o' ++ body' ++ c' ++ rest') eq_refl d' body' (o' ++ body' ++ c') rest').
    + by apply isBlock_tags.
    + by rewrite <- !(assoc_L (++)).
  - inversion H' as [s' Hnone E|pre' o' d' body' c' rest' l'' Ho' Hc' Ht' Hf' Hl' Hr' E].
    + exfalso. subst.
      apply (Hnone pre (o ++ body ++ c ++ rest) eq_refl d body (o ++ body ++ c) rest).
      * by apply isBlock_tags.
      * by rewrite <- !(assoc_L (++)).
    + subst l'. clear H'.
      assert (pre' = pre /\ o' ++ body' ++ c' ++ rest' = o ++ body ++ c ++ rest) as [-> E'].
      { apply app_eq_inv in E as [(k & -> & E)|(k & -> & E)].
        - destruct k as [|x k]; [by rewrite app_nil_r|]. exfalso.
          apply (Hl' pre (x :: k) eq_refl ltac:(done) d body (o ++ body ++ c) rest).
          + by apply isBlock_tags.
          + rewrite <- E. by rewrite <- !(assoc_L (++)).
        - destruct k as [|x k]; [by rewrite app_nil_r|]. exfalso.
          apply (Hl pre' (x :: k) eq_refl ltac:(done) d' body' (o' ++ body' ++ c') rest').
          + by apply isBlock_tags.
          + rewrite <- E. by rewrite <- !(assoc_L (++)). }
      clear E.
      destruct (openTag_unique kind d' d o' o _ _ Ho' Ho E') as (-> & -> & E);
        [by eapply body_head..|].
      assert (body' = body /\ c' ++ rest' = c ++ rest) as [-> E2].
      { apply app_eq_inv in E as [(k & -> & E)|(k & -> & E)].
        - destruct k as [|x k]; [by rewrite app_nil_r|]. exfalso.
          apply (Hf' body (x :: k) eq_refl ltac:(done)).
          destruct Hc as (ws4 & ws5 & -> & ?). exists ws4, ws5, rest.
          split_and!; try tauto. done.
        - destruct k as [|x k]; [by rewrite app_nil_r|]. exfalso.
          apply (Hf body' (x :: k) eq_refl ltac:(done)).
          destruct Hc' as (ws4 & ws5 & -> & ?). exists ws4, ws5, rest'.
          split_and!; try tauto. done. }
      destruct Ho as (? & ? & ? & _ & Hd & Rd & _).
      destruct (closeTag_unique kind d c' c rest' rest Hd Rd Hc' Hc E2) as [-> ->].
      f_equal. by apply IH.
Qed.

(** C3, as stated, fails: in the input below the region
    [<edit 2 Desc>b</edit 2 Desc>] has the same index token in its opening
    and in its closing tag, and alone it gives the pair (2, [b]); the
    extractor yields one result, the block 1 around it, and none for the
    region. *)
Lemma block_region_counterexample :
  nestedInput =
    str "<edit 1 Desc>a" ++ str "<edit 2 Desc>b</edit 2 Desc>" ++ str "c</edit 1 Desc>" /\
  isBlock (str "edit") (str "2") (str "b") (str "<edit 2 Desc>b</edit 2 Desc>") /\
  blocks (str "edit") (str "<edit 2 Desc>b</edit 2 Desc>") = [(2%Z, str "b")] /\
  blocks (str "edit") nestedInput = [(1%Z, str "a<edit 2 Desc>b</edit 2 Desc>c")] /\
  parseStage1 (some nestedInput) loaded = Some ([Stage1Item.mk 1 [] []], loaded).
Proof.
  split_and!.
  - reflexivity.
  - exists (str " "), (str " "), [], (str " "), (str " ").
    split; [reflexivity|]. split_and!; try done; by repeat constructor.
  - by vm_compute.
  - by vm_compute.
  - by vm_compute.
Qed.

(** C3, amended: the block extractor reads its input from left to right.
    It yields one (index, body) result for each block of the reading: a
    block is taken at the first position, at or after the end of the block
    before, where an opening tag is followed somewhere by a closing tag with
    the textually identical index token; its body begins after the white
    space behind the opening tag and ends at the first closing tag with
    that token; the index is the token read by [Number.parseInt].  The
    reading of an input is unique, so the results are exactly its blocks:
    a region with identical tokens inside a block, or across two blocks,
    gives no result of its own.  [parseStage1] builds one item for each
    result.  Every match is a block with the same token in both tags, and
    every such block of the input begins inside a match.
    [<edit 3 Desc>body</edit 3 Desc>] gives the one pair (3, [body]),
    [<edit 3 Desc>x</edit 4 Desc>] gives nothing. *)
Theorem block_extractor_results :
  (forall raw,
     parseStage1 raw loaded =
       Some (List.map stage1ItemOfBlock (blocks (str "edit") (nullish raw [])), loaded)) /\
  (forall kind raw, exists l,
     BlockRead kind raw l /\ blocks kind raw = List.map blockOfToken l) /\
  (forall kind raw l l', BlockRead kind raw l -> BlockRead kind raw l' -> l = l') /\
  (forall kind raw l, BlockRead kind raw l -> blocks kind raw = List.map blockOfToken l) /\
  (forall kind raw mt,
     mt ∈ execAll (blockRegex kind) raw 0 ->
     exists d body,
       isBlock kind d body (slice raw (index mt) (matchEnd mt)) /\
       blockOf mt = blockOfToken (d, body)) /\
  (forall kind raw pre d body w rest,
     raw = pre ++ w ++ rest -> isBlock kind d body w ->
     exists mt, mt ∈ execAll (blockRegex kind) raw 0 /\
                index mt <= length pre < matchEnd mt) /\
  blocks (str "edit") balancedInput = [(3%Z, str "body")] /\
  parseStage1 (some balancedInput) loaded = Some ([Stage1Item.mk 3 [] []], loaded) /\
  blocks (str "edit") mismatchedInput = [] /\
  parseStage1 (some mismatchedInput) loaded = Some ([], loaded) /\
  blocks (str "edit") twoBlocksInput = [(1%Z, str "a"); (2%Z, str "b")] /\
  blocks (str "edit") nestedInput = [(1%Z, str "a<edit 2 Desc>b</edit 2 Desc>c")].
Proof.
  assert (forall kind raw,
            BlockRead kind raw (List.map tokenOf (execAll (blockRegex kind) raw 0))) as Hread.
  { intros kind raw. apply (tokens_BlockRead kind raw 0); [|lia].
    apply execAll_Scan, progressing_block. }
  split_and!.
  - apply parseStage1_loaded.
  - intros kind raw. eexists. split; [apply Hread|apply blocks_tokens].
  - intros kind raw l l' Hl Hl'. by apply (BlockRead_functional kind raw).
  - intros kind raw l Hl. rewrite blocks_tokens. f_equal.
    by apply (BlockRead_functional kind raw).
  - intros kind raw mt Hin. apply block_elem in Hin as (li & He).
    destruct (isBlock_exec _ _ _ _ He) as (d & body & Hblock & H1 & H2).
    exists d, body. split; [done|]. unfold blockOf, blockOfToken. by rewrite H1, H2.
  - intros kind raw pre d body w rest -> (ws1 & ws2 & ws3 & ws4 & ws5 & -> & Hrest).
    eapply (Scan_covers (blockRegex kind)).
    + apply progressing_block.
    + apply execAll_Scan, progressing_block.
    + rewrite length_app. lia.
    + rewrite drop_app_length.
      apply (matchAt_complete (blockRegex kind) _ _ [None; Some d; Some body]); [|done].
      apply block_Matches; tauto.
  - by vm_compute.
  - by vm_compute.
  - by vm_compute.
  - by vm_compute.
  - by vm_compute.
  - by vm_compute.
Qed.

Lemma block_extractor_results_witness :
  exists l,
    BlockRead (str "edit") balancedInput l /\
    blocks (str "edit") balancedInput = List.map blockOfToken l /\
    forall l', BlockRead (str "edit") balancedInput l' -> l' = l.
Proof.
  destruct (proj1 (proj2 block_extractor_results) (str "edit") balancedInput)
    as (l & Hl & Hb).
  exists l. split; [exact Hl|]. split; [exact Hb|].
  intros l' Hl'.
  exact (proj1 (proj2 (proj2 block_extractor_results)) _ _ _ _ Hl' Hl).
Defined.

(** C6, as stated, fails: the body of the one block found in the input
    below holds the opening tag of block 2, a block of its own. *)
Lemma block_body_counterexample :
  blocks (str "edit") nestedInput = [(1%Z, str "a<edit 2 Desc>b</edit 2 Desc>c")] /\
  includes (str "a<edit 2 Desc>b</edit 2 Desc>c") (str "<edit 2 Desc>") = true /\
  blocks (str "edit") (str "<edit 2 Desc>b</edit 2 Desc>") = [(2%Z, str "b")].
Proof. split_and!; by vm_compute. Qed.

(** C6, amended: the matches of the block extractor, over which the loops
    of [parseStage1] and [parseStage2] run, do not overlap, each begins at
    or after the end of the one before; the body of a match ends at the
    first closing tag that repeats the index token of its opening tag, no
    such closing tag begins inside the body. *)
Theorem block_matches_disjoint :
  (forall raw,
     parseStage1 raw loaded =
       Some (List.map stage1ItemOf (execAll (blockRegex (str "edit")) (nullish raw []) 0),
             loaded)) /\
  (forall raw,
     parseStage2 raw loaded =
       Some (List.map stage2ClusterOf
               (execAll (blockRegex (str "Cluster")) (nullish raw []) 0), loaded)) /\
  (forall kind raw i j mi mj,
     execAll (blockRegex kind) raw 0 !! i = Some mi ->
     execAll (blockRegex kind) raw 0 !! j = Some mj ->
     i < j -> matchEnd mi <= index mj) /\
  (forall kind raw mt,
     mt ∈ execAll (blockRegex kind) raw 0 ->
     index mt < matchEnd mt /\ matchEnd mt <= length raw) /\
  (forall kind raw mt,
     mt ∈ execAll (blockRegex kind) raw 0 ->
     exists d body ws1 ws2 ws3 ws4 ws5,
       slice raw (index mt) (matchEnd mt) = blockText kind d body ws1 ws2 ws3 ws4 ws5 /\
       group mt 1 = some d /\ group mt 2 = some body /\
       forall b1 b2, body = b1 ++ b2 -> b2 <> [] ->
         ~ closesAt kind d (b2 ++ closeTag kind d ws4 ws5 ++ drop (matchEnd mt) raw)).
Proof.
  split_and!.
  - apply parseStage1_matches.
  - apply parseStage2_matches.
  - intros kind raw i j mi mj Hi Hj Hlt.
    destruct (Scan_ordered _ _ _ _ (progressing_block kind)
                (execAll_Scan _ raw 0 (progressing_block kind))) as [_ Hs].
    by apply (StronglySorted_lookup _ _ i j mi mj Hs).
  - intros kind raw mt Hin.
    destruct (Scan_ordered _ _ _ _ (progressing_block kind)
                (execAll_Scan _ raw 0 (progressing_block kind))) as [Hall _].
    rewrite Forall_forall in Hall. destruct (Hall _ Hin) as (_ & ? & ?). done.
  - intros kind raw mt Hin. apply block_elem in Hin as (li & He).
    destruct (block_exec _ _ _ _ He)
      as (d & body & ws1 & ws2 & ws3 & ws4 & ws5 & Hw & H1 & H2 & Hrest).
    exists d, body, ws1, ws2, ws3, ws4, ws5. split_and!; auto. tauto.
Qed.

Lemma block_matches_disjoint_witness :
  exists mi mj,
    execAll (blockRegex (str "edit")) twoBlocksInput 0 !! 0 = Some mi /\
    execAll (blockRegex (str "edit")) twoBlocksInput 0 !! 1 = Some mj /\
    0 < 1 /\ matchEnd mi <= index mj.
Proof.
  assert (H : exists mi mj,
             execAll (blockRegex (str "edit")) twoBlocksInput 0 !! 0 = Some mi /\
             execAll (blockRegex (str "edit")) twoBlocksInput 0 !! 1 = Some mj).
  { eexists _, _. split; by vm_compute. }
  destruct H as (mi & mj & Hi & Hj). exists mi, mj.
  exact (conj Hi (conj Hj (conj Nat.lt_0_1
           (proj1 (proj2 (proj2 block_matches_disjoint)) _ _ 0 1 mi mj Hi Hj Nat.lt_0_1)))).
Defined.

(** ** The module state between calls *)

Lemma Reachable_loaded st : Reachable st -> st = loaded.
Proof.
  induction 1 as [|st raw out st' _ -> H|st raw out st' _ -> H
                 |st raw out st' _ -> H|st pairs out st' _ -> H]; [done|..].
  - rewrite parseStage1_run in H. by destruct (falsy raw); simplify_eq.
  - rewrite parseStage2_run in H. by destruct (falsy raw); simplify_eq.
  - rewrite toDiffSegments_run in H. by simplify_eq.
  - rewrite buildDiffRecords_run in H by done. by simplify_eq.
Qed.

Lemma parseStage2_loaded raw :
  parseStage2 raw loaded = Some (parseStage2_value raw 0, loaded).
Proof. rewrite parseStage2_run. by destruct (falsy raw). Qed.

Lemma twice_run {A} (c : M A) out st :
  c st = Some (out, st) -> twice c st = Some ((out, out), st).
Proof. intros H. unfold twice, bind. by rewrite !H. Qed.

(** C8: in every state the module can be in between two calls, whatever
    calls came before and whatever [lastIndex] they left, an extractor gives
    for the same input the same output, and leaves the state as it found
    it; run twice in a row it gives the same output twice. *)
Theorem extractors_idempotent :
  forall st1 st2, Reachable st1 -> Reachable st2 ->
    (forall raw, exists out,
       parseStage1 raw st1 = Some (out, st1) /\ parseStage1 raw st2 = Some (out, st2) /\
       twice (parseStage1 raw) st1 = Some ((out, out), st1)) /\
    (forall raw, exists out,
       parseStage2 raw st1 = Some (out, st1) /\ parseStage2 raw st2 = Some (out, st2) /\
       twice (parseStage2 raw) st1 = Some ((out, out), st1)) /\
    (forall raw, exists out,
       toDiffSegments raw st1 = Some (out, st1) /\ toDiffSegments raw st2 = Some (out, st2) /\
       twice (toDiffSegments raw) st1 = Some ((out, out), st1)) /\
    (forall pairs, exists out,
       buildDiffRecords pairs st1 = Some (out, st1) /\
       buildDiffRecords pairs st2 = Some (out, st2) /\
       twice (buildDiffRecords pairs) st1 = Some ((out, out), st1)).
Proof.
  intros st1 st2 ->%Reachable_loaded ->%Reachable_loaded. split_and!.
  - intros raw. eexists. split_and!; [apply parseStage1_loaded..|].
    apply twice_run, parseStage1_loaded.
  - intros raw. eexists. split_and!; [apply parseStage2_loaded..|].
    apply twice_run, parseStage2_loaded.
  - intros raw. eexists. split_and!; [apply toDiffSegments_loaded..|].
    apply twice_run, toDiffSegments_loaded.
  - intros pairs. eexists. split_and!; [by apply buildDiffRecords_run..|].
    by apply twice_run, buildDiffRecords_run.
Qed.

(** The state after a first call of [parseStage1]. *)
Lemma parseStage1_reaches :
  exists out st, parseStage1 (some nestedInput) loaded = Some (out, st) /\ Reachable st.
Proof.
  exists (List.map stage1ItemOfBlock (blocks (str "edit") nestedInput)), loaded.
  split; [apply parseStage1_loaded|].
  eapply Reach_parseStage1; [apply Reach_loaded|apply (parseStage1_loaded (some nestedInput))].
Qed.

Lemma extractors_idempotent_witness :
  Reachable loaded /\ Reachable loaded /\
  exists out,
    parseStage1 (some balancedInput) loaded = Some (out, loaded) /\
    parseStage1 (some balancedInput) loaded = Some (out, loaded) /\
    twice (parseStage1 (some balancedInput)) loaded = Some ((out, out), loaded).
Proof.
  split; [apply Reach_loaded|]. split; [apply Reach_loaded|].
  exact (proj1 (extractors_idempotent loaded loaded Reach_loaded Reach_loaded)
           (some balancedInput)).
Defined.

(** C9: for an absent or empty input every extractor returns the empty
    list, and for every input every extractor returns: no input makes it
    fail or run on for ever. *)
Theorem extractors_total :
  forall st, Reachable st ->
    (parseStage1 undefined st = Some ([], st) /\
     parseStage1 null st = Some ([], st) /\
     parseStage1 (some []) st = Some ([], st)) /\
    (parseStage2 undefined st = Some ([], st) /\
     parseStage2 null st = Some ([], st) /\
     parseStage2 (some []) st = Some ([], st)) /\
    toDiffSegments [] st = Some ([], st) /\
    (buildDiffRecords undefined st = Some ([], st) /\
     buildDiffRecords null st = Some ([], st) /\
     buildDiffRecords (some []) st = Some ([], st)) /\
    (forall raw, exists out, parseStage1 raw st = Some (out, st)) /\
    (forall raw, exists out, parseStage2 raw st = Some (out, st)) /\
    (forall raw, exists out, toDiffSegments raw st = Some (out, st)) /\
    (forall pairs, exists out, buildDiffRecords pairs st = Some (out, st)).
Proof.
  intros st ->%Reachable_loaded. split_and!; try done.
  - intros raw. eexists. apply parseStage1_loaded.
  - intros raw. eexists. apply parseStage2_loaded.
  - intros raw. eexists. apply toDiffSegments_loaded.
  - intros pairs. eexists. by apply buildDiffRecords_run.
Qed.

Lemma extractors_total_witness :
  Reachable loaded /\
  parseStage1 null loaded = Some ([], loaded) /\
  exists out, buildDiffRecords (some [sectionFive; sectionTwo]) loaded = Some (out, loaded).
Proof.
  split; [apply Reach_loaded|].
  pose proof (extractors_total loaded Reach_loaded) as (H1 & _ & _ & _ & _ & _ & _ & H8).
  split; [exact (proj1 (proj2 H1))|]. exact (H8 (some [sectionFive; sectionTwo])).
Defined.

(** ** The examples of the specification for the field extractor *)

(** The body [【Fact】A  B\n\n【Investor Insight】C] gives the fact [A B] and
    the insight [C]. *)
Example parseStage1_fields :
  parseStage1
    (some (str "<edit 3 Desc>" ++ lbracket ++ str "Fact" ++ rbracket ++ str "A  B"
           ++ [10; 10]%N ++ lbracket ++ str "Investor Insight" ++ rbracket ++ str "C"
           ++ str "</edit 3 Desc>")) loaded
  = Some ([Stage1Item.mk 3 (str "A B") (str "C")], loaded).
Proof. by vm_compute. Qed.

(** A cluster with a line of related edits. *)
Example parseStage2_fields :
  parseStage2
    (some (str "<Cluster 1 Desc>" ++ lbracket ++ str "Theme" ++ rbracket ++ str " T "
           ++ [10]%N ++ relatedMarker ++ str ": 1, 2, 10" ++ [10]%N
           ++ lbracket ++ str "Investor Insight" ++ rbracket ++ str "I"
           ++ str "</Cluster 1 Desc>")) loaded
  = Some ([Stage2Cluster.mk 1 (str "T " ++ relatedMarker ++ str ": 1, 2, 10") []
             (str "I") [1; 2; 10]%Z], loaded).
Proof. by vm_compute. Qed.

(** ** [normalizeWhitespace] *)

Lemma spaced_replaceWs v : forall b, spaced b (replaceWs b v) = true.
Proof.
  induction v as [|x v IH]; intros b; simpl; [done|].
  destruct (ws x) eqn:Hx.
  - destruct b; [apply IH|]. simpl. change (ws 32%N) with true. simpl. apply IH.
  - simpl. rewrite Hx. apply IH.
Qed.

Lemma replaceWs_spaced s : forall b, spaced b s = true -> replaceWs b s = s.
Proof.
  induction s as [|x s IH]; intros b H; simpl in *; [done|].
  destruct (ws x) eqn:Hx.
  - apply andb_prop in H as [H H3]. apply andb_prop in H as [H1 H2].
    apply N.eqb_eq in H1 as ->. destruct b; [done|]. by rewrite (IH true).
  - by rewrite (IH false).
Qed.

Lemma spaced_weaken s b : spaced b s = true -> spaced false s = true.
Proof.
  destruct s as [|x s]; simpl; [done|]. destruct (ws x); [|done].
  intros H. apply andb_prop in H as [H H3]. apply andb_prop in H as [H1 H2].
  by rewrite H1, H3.
Qed.

Lemma spaced_app l1 l2 : forall b,
  spaced b (l1 ++ l2) = true -> spaced b l1 = true /\ spaced false l2 = true.
Proof.
  induction l1 as [|x l1 IH]; intros b H; simpl in *.
  - split; [done|]. by eapply spaced_weaken.
  - destruct (ws x).
    + apply andb_prop in H as [H H3]. apply andb_prop in H as [H1 H2].
      apply IH in H3 as [H3 H4]. by rewrite H1, H2, H3.
    + by apply IH.
Qed.

Lemma dropWhile_split p s :
  exists l, s = l ++ dropWhile p s /\ isRun p l.
Proof.
  induction s as [|x s (l & IH & Hl)]; simpl.
  - exists []. split; [done|constructor].
  - destruct (p x) eqn:Hp.
    + exists (x :: l). split; [by rewrite IH at 1|]. by constructor.
    + exists []. split; [done|constructor].
Qed.

Lemma dropWhile_head p s x t : dropWhile p s = x :: t -> p x = false.
Proof.
  induction s as [|y s IH]; simpl; [done|].
  destruct (p y) eqn:Hp; [done|]. intros. by simplify_eq.
Qed.

Lemma dropWhile_id p s :
  (forall x t, s = x :: t -> p x = false) -> dropWhile p s = s.
Proof. destruct s as [|x s]; simpl; [done|]. intros H. by rewrite (H x s). Qed.

(** [trim] cuts a run of white space from each end. *)
Lemma trim_split s :
  exists l1 l3, s = l1 ++ trim s ++ l3 /\ isRun ws l1 /\ isRun ws l3.
Proof.
  unfold trim, trimStart.
  destruct (dropWhile_split ws s) as (l1 & H1 & Hl1).
  destruct (dropWhile_split ws (rev (dropWhile ws s))) as (l3 & H3 & Hl3).
  exists l1, (rev l3). split_and!.
  - rewrite H1 at 1. f_equal. rewrite <- rev_app_distr, <- H3. by rewrite rev_involutive.
  - done.
  - by apply Forall_rev.
Qed.

Lemma trim_head s x t : trim s = x :: t -> ws x = false.
Proof.
  intros H. unfold trim in H.
  destruct (dropWhile_split ws (rev (trimStart s))) as (l3 & H3 & _).
  apply (f_equal (@rev N)) in H3. rewrite rev_involutive, rev_app_distr, H in H3.
  unfold trimStart in H3. simpl in H3. by apply dropWhile_head in H3.
Qed.

Lemma trim_last s t x : trim s = t ++ [x] -> ws x = false.
Proof.
  intros H. unfold trim in H.
  apply (f_equal (@rev N)) in H. rewrite rev_involutive, rev_app_distr in H.
  simpl in H. by apply dropWhile_head in H.
Qed.

Lemma trim_id s :
  (forall x t, s = x :: t -> ws x = false) ->
  (forall t x, s = t ++ [x] -> ws x = false) -> trim s = s.
Proof.
  intros Hh Hl. unfold trim, trimStart. rewrite (dropWhile_id ws s Hh).
  rewrite dropWhile_id; [apply rev_involutive|].
  intros x t H. apply (Hl (rev t) x).
  apply (f_equal (@rev N)) in H. by rewrite rev_involutive in H.
Qed.

Lemma normalizeWhitespace_spaced value : spaced false (normalizeWhitespace value) = true.
Proof.
  unfold normalizeWhitespace.
  destruct (trim_split (replaceWs false value)) as (l1 & l3 & H & _ & _).
  pose proof (spaced_replaceWs value false) as Hs. rewrite H in Hs.
  apply spaced_app in Hs as [_ Hs]. by apply spaced_app in Hs as [Hs _].
Qed.

(** X1: [normalizeWhitespace] is idempotent: a fact or an insight that has
    been normalized is left as it is by a second normalization. *)
Theorem normalizeWhitespace_idempotent value :
  normalizeWhitespace (normalizeWhitespace value) = normalizeWhitespace value.
Proof.
  unfold normalizeWhitespace at 1.
  rewrite (replaceWs_spaced _ _ (normalizeWhitespace_spaced value)).
  apply trim_id; unfold normalizeWhitespace; [apply trim_head | apply trim_last].
Qed.

Lemma spaced_lookup s : forall b i x,
  spaced b s = true -> s !! i = Some x -> ws x = true ->
  x = 32%N /\
  match i with 0 => b = false | S j => exists y, s !! j = Some y /\ ws y = false end /\
  forall z, s !! S i = Some z -> ws z = false.
Proof.
  induction s as [|a s IH]; intros b i x Hs Hi Hx; [done|].
  destruct i as [|j]; simpl in *.
  - simplify_eq. rewrite Hx in Hs.
    apply andb_prop in Hs as [Hs H3]. apply andb_prop in Hs as [H1 H2].
    apply N.eqb_eq in H1. apply negb_true_iff in H2. split_and!; [done..|].
    intros z Hz. destruct s as [|z' s]; simplify_eq/=.
    destruct (ws z); [|done]. by rewrite andb_false_r in H3.
  - assert (spaced (ws a) s = true) as Hs'.
    { destruct (ws a); [|done]. by apply andb_prop in Hs as [_ Hs]. }
    destruct (IH (ws a) j x Hs' Hi Hx) as (H1 & H2 & H3).
    split_and!; [done| |done].
    destruct j as [|j']; [by exists a|done].
Qed.

(** X2: in a normalized string every white-space character is a single
    U+0020 between two characters that are not white space: no leading or
    trailing white space, no tab or line break, no run of spaces. *)
Theorem normalizeWhitespace_normal value i x :
  normalizeWhitespace value !! i = Some x -> ws x = true ->
  x = 32%N /\
  exists y z, 0 < i /\
    normalizeWhitespace value !! (i - 1) = Some y /\ ws y = false /\
    normalizeWhitespace value !! (S i) = Some z /\ ws z = false.
Proof.
  intros Hi Hx.
  destruct (spaced_lookup _ _ _ _ (normalizeWhitespace_spaced value) Hi Hx) as (H1 & H2 & H3).
  split; [done|].
  destruct i as [|j].
  - destruct (normalizeWhitespace value) as [|x' t] eqn:E; simplify_eq/=.
    apply trim_head in E. congruence.
  - destruct H2 as (y & Hy & Hwy).
    destruct (normalizeWhitespace value !! S (S j)) as [z|] eqn:Hz.
    + exists y, z. split_and!; [lia| |done|done|by apply H3].
      by replace (S j - 1) with j by lia.
    + exfalso. apply lookup_ge_None in Hz.
      assert (normalizeWhitespace value = take (S j) (normalizeWhitespace value) ++ [x]) as E.
      { rewrite <- (take_drop (S j) (normalizeWhitespace value)) at 1. f_equal.
        apply lookup_lt_Some in Hi as Hlt.
        rewrite (drop_S _ x _ Hi). f_equal. apply drop_ge. lia. }
      apply trim_last in E. congruence.
Qed.

Lemma normalizeWhitespace_normal_witness :
  normalizeWhitespace (str "fact  one") !! 4 = Some 32%N /\ ws 32%N = true /\
  exists y z, 0 < 4 /\
    normalizeWhitespace (str "fact  one") !! (4 - 1) = Some y /\ ws y = false /\
    normalizeWhitespace (str "fact  one") !! 5 = Some z /\ ws z = false.
Proof.
  split; [reflexivity|]. split; [reflexivity|].
  apply (normalizeWhitespace_normal (str "fact  one") 4 32%N); reflexivity.
Defined.

Lemma inkOf_replaceWs v : forall b, inkOf (replaceWs b v) = inkOf v.
Proof.
  unfold inkOf. induction v as [|x v IH]; intros b; simpl; [done|].
  destruct (ws x) eqn:Hx; simpl.
  - destruct b; [apply IH|]. simpl. change (ws 32%N) with true. simpl. apply IH.
  - rewrite Hx. simpl. by rewrite IH.
Qed.

Lemma inkOf_app l1 l2 : inkOf (l1 ++ l2) = inkOf l1 ++ inkOf l2.
Proof. apply List.filter_app. Qed.

Lemma inkOf_run l : isRun ws l -> inkOf l = [].
Proof.
  unfold inkOf. induction 1 as [|x l Hx _ IH]; simpl; [done|]. by rewrite Hx.
Qed.

Lemma inkOf_trim s : inkOf (trim s) = inkOf s.
Proof.
  destruct (trim_split s) as (l1 & l3 & H & H1 & H3).
  rewrite H at 2. rewrite !inkOf_app, (inkOf_run l1), (inkOf_run l3) by done.
  by rewrite app_nil_r.
Qed.

(** X3: normalizing changes white space only: the characters that are not
    white space are kept, all of them and in their order; the result is
    empty exactly for a value of white space only. *)
Theorem normalizeWhitespace_ink value :
  inkOf (normalizeWhitespace value) = inkOf value /\
  (normalizeWhitespace value = [] <-> isRun ws value).
Proof.
  assert (inkOf (normalizeWhitespace value) = inkOf value) as Hink.
  { unfold normalizeWhitespace. by rewrite inkOf_trim, inkOf_replaceWs. }
  split; [done|]. split.
  - intros E. rewrite E in Hink. unfold inkOf in Hink. simpl in Hink.
    unfold isRun. apply Forall_forall. intros x Hx.
    destruct (ws x) eqn:Hw; [done|].
    assert (In x (List.filter (fun x => negb (ws x)) value)) as Hin.
    { apply List.filter_In. split; [by apply list_elem_of_In|by rewrite Hw]. }
    rewrite <- Hink in Hin. destruct Hin.
  - intros Hrun. apply inkOf_run in Hrun. rewrite <- Hink in Hrun.
    destruct (normalizeWhitespace value) as [|x t] eqn:E; [done|].
    apply trim_head in E as Hx. unfold inkOf in Hrun. simpl in Hrun.
    by rewrite Hx in Hrun.
Qed.

(** ** The fields of a block body *)

Lemma strip_prefix_app_l a b inp :
  strip_prefix (a ++ b) inp =
    match strip_prefix a inp with Some r => strip_prefix b r | None => None end.
Proof.
  revert inp. induction a as [|x a IH]; intros inp; simpl; [done|].
  destruct inp as [|y inp]; [done|]. destruct (x =? y)%N; [apply IH|done].
Qed.

Lemma take_untilBracket r : take (length (untilBracket r)) r = untilBracket r.
Proof.
  induction r as [|x r IH]; simpl; [done|].
  destruct (x =? 12304)%N; simpl; [done|]. by rewrite IH.
Qed.

(** The lazy [[\s\S]*?] in front of a continuation that accepts exactly at
    an opening bracket or at the end stops at the first of them. *)
Lemma star_until {R} (K : jsstring -> option R) (f : jsstring -> R) :
  (forall inp, K inp = match inp with
                       | [] => Some (f [])
                       | x :: _ => if (x =? 12304)%N then Some (f inp) else None
                       end) ->
  forall r, star false anyChar K r = Some (f (drop (length (untilBracket r)) r)).
Proof.
  intros HK. induction r as [|x r IH]; simpl.
  - by rewrite HK.
  - rewrite (HK (x :: r)). destruct (x =? 12304)%N; simpl; [done|]. apply IH.
Qed.

Lemma field_tail c r :
  m (Group 1 (Star false anyChar) ;; Look (Alt (Str lbracket) Eos))
    (fun c' inp' => Some (c', inp')) c r =
  Some (<[1 := Some (untilBracket r)]> c, drop (length (untilBracket r)) r).
Proof.
  cbn [m].
  rewrite (star_until _ (fun inp' => (<[1 := Some (take (length r - length inp') r)]> c, inp'))).
  - rewrite length_drop.
    assert (length (untilBracket r) <= length r) as Hle.
    { rewrite <- take_untilBracket. rewrite length_take. lia. }
    replace (length r - (length r - length (untilBracket r)))
      with (length (untilBracket r)) by lia.
    by rewrite take_untilBracket.
  - intros [|x inp]; [done|]. unfold lbracket. cbn [strip_prefix].
    rewrite (N.eqb_sym 12304 x). by destruct (x =? 12304)%N.
Qed.

Lemma m_Str l k c inp :
  m (Str l) k c inp =
    match strip_prefix l inp with Some inp' => k c inp' | None => None end.
Proof. done. Qed.

Lemma label_tail label c r1 :
  m (Str label)
    (m (Str rbracket ;; Group 1 (Star false anyChar) ;; Look (Alt (Str lbracket) Eos))
       (fun c' inp' => Some (c', inp'))) c r1 =
    match strip_prefix (label ++ rbracket) r1 with
    | Some r => Some (<[1 := Some (untilBracket r)]> c, drop (length (untilBracket r)) r)
    | None => None
    end.
Proof.
  rewrite strip_prefix_app_l, m_Str.
  destruct (strip_prefix label r1) as [r2|]; [|done].
  rewrite m_Seq, m_Str.
  destruct (strip_prefix rbracket r2) as [r|]; [|done].
  by rewrite field_tail.
Qed.

Lemma field_matchAt label inp :
  fst <$> matchAt (fieldRegex (Str label)) inp =
    (fun v => [None; Some v]) <$> fieldAt [label] inp.
Proof.
  unfold matchAt, fieldRegex, fieldAt, fieldLabel. cbn [pattern ngroups].
  rewrite strip_prefix_app_l, m_Seq, m_Str.
  destruct (strip_prefix lbracket inp) as [r1|]; [|done].
  rewrite m_Seq, label_tail.
  by destruct (strip_prefix (label ++ rbracket) r1).
Qed.

Lemma insight_matchAt inp :
  fst <$> matchAt insightRegex inp =
    (fun v => [None; Some v]) <$> fieldAt [str "Investor Insight"; str "Implication"] inp.
Proof.
  unfold matchAt, insightRegex, fieldRegex, fieldAt, fieldLabel. cbn [pattern ngroups].
  rewrite !strip_prefix_app_l, m_Seq, m_Str.
  destruct (strip_prefix lbracket inp) as [r1|]; [|done].
  rewrite m_Seq.
  change (m (Alt ?a ?b) ?k ?c ?i) with (orelse (m a k c i) (m b k c i)).
  rewrite !label_tail.
  destruct (strip_prefix (str "Investor Insight" ++ rbracket) r1); [done|].
  by destruct (strip_prefix (str "Implication" ++ rbracket) r1).
Qed.

(** The first group of the first match of a field pattern, by the field
    found at each position. *)
Lemma firstGroup_scan re labels :
  (forall inp, fst <$> matchAt re inp = (fun v => [None; Some v]) <$> fieldAt labels inp) ->
  forall body, firstGroup re body = fieldScan labels body.
Proof.
  intros Hat body. unfold firstGroup, exec. simpl. rewrite drop_0.
  enough (forall i, nullish (opt_chain (search re i body) (fun mt => group mt 1)) []
                    = fieldScan labels body) as H by apply H.
  induction body as [|x body IH]; intros i.
  - specialize (Hat []). simpl.
    destruct (matchAt re []) as [[c rest]|], (fieldAt labels []) as [v|];
      simplify_eq/=; done.
  - specialize (Hat (x :: body)). cbn [search fieldScan].
    destruct (matchAt re (x :: body)) as [[c rest]|], (fieldAt labels (x :: body)) as [v|];
      simplify_eq/=; [done|]. apply IH.
Qed.

Lemma strip_prefix_drop t s r : strip_prefix t s = Some r -> drop (length t) s = r.
Proof. intros E. apply strip_prefix_Some in E as ->. apply drop_app_length. Qed.

Lemma fieldScan_one label s : fieldScan [label] s = fieldText label s.
Proof.
  unfold fieldText, fieldAfter. induction s as [|x s IH]; cbn [fieldScan fieldAt indexOf].
  - destruct (strip_prefix (fieldLabel label) []) as [r|] eqn:E; [|done].
    by rewrite Nat.add_0_l, (strip_prefix_drop _ _ _ E).
  - destruct (strip_prefix (fieldLabel label) (x :: s)) as [r|] eqn:E.
    + by rewrite Nat.add_0_l, (strip_prefix_drop _ _ _ E).
    + rewrite IH. by destruct (indexOf s (fieldLabel label)).
Qed.

(** X4: the field of a label ([Fact], [Theme], [Summary], [Investor Insight])
    is the text after the first occurrence of the bracketed label up to the
    next opening bracket or the end of the body, and the empty string when
    the body does not have the label. *)
Theorem field_value label body :
  firstGroup (fieldRegex (Str label)) body = fieldText label body.
Proof.
  rewrite (firstGroup_scan _ [label]); [apply fieldScan_one|].
  apply field_matchAt.
Qed.

Lemma fieldAfter_cons x s n label :
  fieldAfter (x :: s) (S n) label = fieldAfter s n label.
Proof. done. Qed.

Lemma fieldScan_two a b s :
  (forall inp r, strip_prefix (fieldLabel a) inp = Some r ->
                 strip_prefix (fieldLabel b) inp = None) ->
  fieldScan [a; b] s = fieldText2 a b s.
Proof.
  intros Hab. unfold fieldText2.
  induction s as [|x s IH]; cbn [fieldScan fieldAt indexOf].
  - destruct (strip_prefix (fieldLabel a) []) as [r|] eqn:Ea.
    + rewrite (Hab _ _ Ea). unfold fieldAfter.
      by rewrite Nat.add_0_l, (strip_prefix_drop _ _ _ Ea).
    + destruct (strip_prefix (fieldLabel b) []) as [r|] eqn:Eb; [|done].
      unfold fieldAfter. by rewrite Nat.add_0_l, (strip_prefix_drop _ _ _ Eb).
  - destruct (strip_prefix (fieldLabel a) (x :: s)) as [r|] eqn:Ea.
    + rewrite (Hab _ _ Ea).
      assert (fieldAfter (x :: s) 0 a = untilBracket r) as ->.
      { unfold fieldAfter. by rewrite Nat.add_0_l, (strip_prefix_drop _ _ _ Ea). }
      by destruct (indexOf s (fieldLabel b)).
    + destruct (strip_prefix (fieldLabel b) (x :: s)) as [r|] eqn:Eb.
      * assert (fieldAfter (x :: s) 0 b = untilBracket r) as ->.
        { unfold fieldAfter. by rewrite Nat.add_0_l, (strip_prefix_drop _ _ _ Eb). }
        by destruct (indexOf s (fieldLabel a)).
      * rewrite IH.
        destruct (indexOf s (fieldLabel a)) as [n1|], (indexOf s (fieldLabel b)) as [n2|];
          simpl; rewrite ?fieldAfter_cons; done.
Qed.

(** X5: the insight of an edit block is the field of [Investor Insight] or
    of [Implication], whichever label comes first in the body; the empty
    string when the body has neither. *)
Theorem insight_value body :
  firstGroup insightRegex body =
    fieldText2 (str "Investor Insight") (str "Implication") body.
Proof.
  rewrite (firstGroup_scan _ [str "Investor Insight"; str "Implication"]).
  - apply fieldScan_two. intros inp r E. apply strip_prefix_Some in E as ->. reflexivity.
  - apply insight_matchAt.
Qed.

(** ** [includes] *)

Lemma includes_false s t :
  includes s t = false -> forall pre post, s <> pre ++ t ++ post.
Proof.
  induction s as [|x s IH]; simpl; intros H pre post E.
  - destruct (strip_prefix t []) eqn:Es; [done|].
    destruct pre; [|done]. simpl in E. rewrite E, strip_prefix_app in Es. done.
  - destruct (strip_prefix t (x :: s)) eqn:Es; [done|].
    destruct pre as [|y pre].
    + simpl in E. rewrite E, strip_prefix_app in Es. done.
    + simplify_eq/=. by eapply IH.
Qed.

(** ** The segments of [toDiffSegments] *)

Lemma separated_short segments : length segments <= 1 -> separated segments.
Proof.
  intros Hl i a b Ha Hb. apply lookup_lt_Some in Hb. lia.
Qed.

Lemma separated_cons a segments :
  DiffSegment.type a <> DiffSegment.text -> separated segments -> separated (a :: segments).
Proof.
  intros Ha Hs [|i] x y Hx Hy Ht; simplify_eq/=; try done.
  exact (Hs i x y Hx Hy Ht).
Qed.

Lemma separated_text_cons a b segments :
  DiffSegment.type b <> DiffSegment.text -> separated (b :: segments) ->
  separated (a :: b :: segments).
Proof.
  intros Hb Hs [|i] x y Hx Hy Ht; simplify_eq/=; try done.
  exact (Hs i x y Hx Hy Ht).
Qed.

Lemma pieces_separated raw ms : forall li,
  separated (flat_map piece_segments (piecesOf raw li ms)) /\
  Forall solid (flat_map piece_segments (piecesOf raw li ms)).
Proof.
  induction ms as [|mt ms IH]; intros li; simpl.
  - rewrite app_nil_r. destruct (nonBlank (drop li raw)) eqn:Hb.
    + split; [apply separated_short; simpl; lia|].
      constructor; [intros _; exact Hb | constructor].
    + split; [apply separated_short; simpl; lia|]. constructor.
  - destruct (IH (matchEnd mt)) as [Hs Hf].
    set (span := DiffSegment.mk (if bool_decide _ then _ else _) _).
    assert (DiffSegment.type span <> DiffSegment.text) as Hspan.
    { unfold span. simpl. by destruct (bool_decide _). }
    destruct (nonBlank (slice raw li (index mt))) eqn:Hb; simpl.
    + split.
      * apply separated_text_cons; [done|]. by apply separated_cons.
      * constructor; [intros _; exact Hb|]. constructor; [by intros ?|]. done.
    + split; [by apply separated_cons|]. constructor; [by intros ?|]. done.
Qed.

(** X6: [toDiffSegments] never emits a blank [text] segment and never two
    [text] segments in a row: between two texts there is an [add] or a
    [del]. *)
Theorem toDiffSegments_separated raw :
  exists out,
    toDiffSegments raw loaded = Some (out, loaded) /\
    separated out /\ Forall solid out.
Proof.
  exists (flat_map piece_segments (pieces raw)). split; [apply toDiffSegments_loaded|].
  apply pieces_separated.
Qed.

Lemma tagged_close ty content : exists pre, tagged ty content = pre ++ spanClose ty.
Proof.
  exists (str "<" ++ ty ++ str ">" ++ content). unfold tagged, spanClose.
  by rewrite <- !(assoc_L (++)).
Qed.

Lemma exec_addDel_close raw li mt :
  exec addDelRegex raw li = Some mt ->
  exists ty pre post, (ty = str "add" \/ ty = str "del") /\ raw = pre ++ spanClose ty ++ post.
Proof.
  intros He. apply exec_sound in He as (w & rest & c & Hes).
  pose proof (es_split _ _ _ _ _ _ _ Hes) as Hsplit.
  pose proof (es_match _ _ _ _ _ _ _ Hes) as Hm.
  apply addDel_match in Hm as (ty & content & Hty & E & _).
  destruct (tagged_close ty content) as (pre & Hpre).
  exists ty, (take (index mt) raw ++ pre), rest. split; [done|].
  rewrite <- (take_drop (index mt) raw) at 1. rewrite Hsplit, E, Hpre.
  by rewrite <- !(assoc_L (++)).
Qed.

(** X7: a text without a closing tag [</add>] or [</del>] has no span: it
    is one [text] segment as it is, or nothing when it is blank. *)
Theorem toDiffSegments_plain raw :
  includes raw (str "</add>") = false -> includes raw (str "</del>") = false ->
  toDiffSegments raw loaded =
    Some (if nonBlank raw then [DiffSegment.mk DiffSegment.text raw] else [], loaded).
Proof.
  intros Ha Hd. rewrite toDiffSegments_loaded. unfold pieces.
  destruct (exec addDelRegex raw 0) as [mt|] eqn:He.
  - apply exec_addDel_close in He as (ty & pre & post & [-> | ->] & E).
    + by apply (includes_false _ _ Ha) in E.
    + by apply (includes_false _ _ Hd) in E.
  - rewrite (execAll_null _ _ _ He). simpl. rewrite app_nil_r. by rewrite drop_0.
Qed.

Lemma toDiffSegments_plain_witness :
  toDiffSegments (str "no <add> here") loaded =
    Some ([DiffSegment.mk DiffSegment.text (str "no <add> here")], loaded).
Proof.
  exact (toDiffSegments_plain (str "no <add> here") eq_refl eq_refl).
Defined.

(** ** The metrics and the order of the records *)

Lemma computeDiffMetrics_formula records :
  computeDiffMetrics records =
    DiffMetrics.mk (countSegments DiffSegment.add records)
      (countSegments DiffSegment.del records) (length records).
Proof. unfold computeDiffMetrics. by rewrite computeDiffMetrics_fold. Qed.

Lemma countIn_Permutation k l1 l2 : l1 ≡ₚ l2 -> countIn k l1 = countIn k l2.
Proof.
  unfold countIn. induction 1 as [|x l1 l2 _ IH|x y l|l1 l2 l3 _ IH1 _ IH2]; simpl.
  - done.
  - destruct (hasType k x); simpl; by rewrite IH.
  - by destruct (hasType k x), (hasType k y).
  - by rewrite IH1.
Qed.

Lemma flat_map_Permutation {A B} (f : A -> list B) l1 l2 :
  l1 ≡ₚ l2 -> flat_map f l1 ≡ₚ flat_map f l2.
Proof.
  induction 1 as [|x l1 l2 _ IH|x y l|l1 l2 l3 _ IH1 _ IH2]; simpl.
  - done.
  - by rewrite IH.
  - rewrite !(assoc_L (++)). f_equiv. apply Permutation_app_comm.
  - by rewrite IH1.
Qed.

Lemma countSegments_Permutation k records records' :
  records ≡ₚ records' -> countSegments k records = countSegments k records'.
Proof.
  intros Hp. unfold countSegments. apply countIn_Permutation.
  by apply flat_map_Permutation.
Qed.

Lemma computeDiffMetrics_Permutation records records' :
  records ≡ₚ records' -> computeDiffMetrics records = computeDiffMetrics records'.
Proof.
  intros Hp. rewrite !computeDiffMetrics_formula.
  by rewrite (countSegments_Permutation _ _ _ Hp), (countSegments_Permutation _ _ _ Hp),
    (Permutation_length Hp).
Qed.

(** X8: the metrics do not depend on the order of the records. *)
Theorem computeDiffMetrics_order records records' :
  records ≡ₚ records' -> computeDiffMetrics records = computeDiffMetrics records'.
Proof. apply computeDiffMetrics_Permutation. Qed.

Lemma computeDiffMetrics_order_witness :
  computeDiffMetrics [sampleRecord 1 0; bareRecord] =
  computeDiffMetrics [bareRecord; sampleRecord 1 0].
Proof.
  apply (computeDiffMetrics_order [sampleRecord 1 0; bareRecord]
           [bareRecord; sampleRecord 1 0]).
  apply perm_swap.
Defined.

(** X9: the metrics of two lists of records put together are the sums of
    their metrics, and the metrics of no record are all 0. *)
Theorem computeDiffMetrics_app records1 records2 :
  computeDiffMetrics (records1 ++ records2) =
    addMetrics (computeDiffMetrics records1) (computeDiffMetrics records2) /\
  computeDiffMetrics [] = DiffMetrics.mk 0 0 0.
Proof.
  split; [|done]. rewrite !computeDiffMetrics_formula. unfold addMetrics, countSegments. simpl.
  by rewrite flat_map_app, !countIn_app, length_app.
Qed.

(** ** The provenance of the records *)

Lemma parseDigits_nonneg s : forall acc, (0 <= acc)%Z -> (0 <= parseDigits acc s)%Z.
Proof.
  induction s as [|x s IH]; intros acc Hacc; simpl; [done|].
  destruct (isDigit x) eqn:Hx; [|done]. apply IH.
  unfold isDigit in Hx. apply andb_prop in Hx as [H1 H2]. apply N.leb_le in H1. lia.
Qed.

Lemma toNumber_exact n : (n < 2 ^ 53)%Z -> toNumber n = n.
Proof. intros Hn. unfold toNumber. by rewrite (proj2 (Z.ltb_lt _ _) Hn). Qed.

Lemma toNumber_nonneg n : (0 <= n)%Z -> (0 <= toNumber n)%Z.
Proof.
  intros Hn. unfold toNumber. destruct (n <? 2 ^ 53)%Z; [done|].
  assert (0 <= Z.shiftr n (Z.log2 n - 52))%Z as Hq by by apply Z.shiftr_nonneg.
  apply Z.min_glb; [|by apply Z.pow_nonneg].
  apply Z.shiftl_nonneg.
  repeat match goal with |- context [if ?b then _ else _] => destruct b end; lia.
Qed.

Lemma parseInt10_nonneg v : (0 <= parseInt10 v)%Z.
Proof. by apply toNumber_nonneg, parseDigits_nonneg. Qed.

Lemma elem_of_allSectionRecords_at r pairs : forall i,
  r ∈ allSectionRecords pairs i ->
  exists j pair, pairs !! j = Some pair /\ r ∈ sectionRecords pair (i + j).
Proof.
  induction pairs as [|p pairs IH]; intros i; simpl.
  - by intros ?%elem_of_nil.
  - intros [H|H]%elem_of_app.
    + exists 0, p. by rewrite Nat.add_0_r.
    + apply IH in H as (j & pair & Hj & Hr). exists (S j), pair.
      split; [done|]. by replace (i + S j) with (S i + j) by lia.
Qed.

Lemma buildDiffRecords_value_elem pairs record :
  record ∈ buildDiffRecords_value pairs ->
  exists i pair mt,
    nullish pairs [] !! i = Some pair /\
    mt ∈ execAll editWrapperRegex (sectionText pair) 0 /\
    record = recordOf pair i mt.
Proof.
  intros Hr. unfold buildDiffRecords_value in Hr. rewrite sort_Permutation in Hr.
  apply elem_of_allSectionRecords_at in Hr as (i & pair & Hi & Hr).
  unfold sectionRecords in Hr.
  apply list_elem_of_In, in_map_iff in Hr as (mt & <- & Hmt).
  exists i, pair, mt. split_and!; [done| |done]. by apply list_elem_of_In.
Qed.

Lemma editWrapper_exec_shape text li mt :
  exec editWrapperRegex text li = Some mt ->
  exists d attrs body ws1 ws2 ws3,
    text = take (index mt) text ++ wrapperText d attrs body ws1 ws2 ws3
           ++ drop (matchEnd mt) text /\
    group mt 1 = some d /\ group mt 2 = some body /\
    d <> [] /\ isRun isDigit d /\ isRun notGt attrs /\
    ws1 <> [] /\ isRun ws ws1 /\ ws2 <> [] /\ isRun ws ws2 /\ isRun ws ws3.
Proof.
  intros H. destruct (exec_sound _ _ _ _ H) as (w & rest & c & E).
  destruct (editWrapper_shape _ _ _ (es_Matches E))
    as (d & attrs & body & ws1 & ws2 & ws3 & -> & -> & Hrest).
  exists d, attrs, body, ws1, ws2, ws3. split_and!; try tauto.
  - rewrite <- (take_drop (index mt) text) at 1.
    by rewrite (es_split _ _ _ _ _ _ _ E), (es_drop_end E).
  - unfold group. by rewrite !(es_group E).
  - unfold group. by rewrite !(es_group E).
Qed.

(** X10: every record of [buildDiffRecords] comes from an edit wrapper that
    stands in the text of a section of the input: the text of the section
    at some position [i] of [pairs] has [<edit d attrs>body</edit d>], with
    the same non-empty run of digits [d] in both tags and [attrs] without
    [>]; the [sectionIndex] of the record is [i], its headings are the
    headings of that section, its [editIndex] is the Number that
    [Number.parseInt] reads from [d], never negative, and its segments are
    the segments of [body].  The digits of the opening tag that the closing
    tag does not repeat belong to [attrs]: [<edit 12>x</edit 1>] is the
    wrapper of index 1.  A token from 2^53 on is rounded to a double:
    9007199254740993 gives the [editIndex] 9007199254740992. *)
Theorem buildDiffRecords_provenance :
  (forall pairs, exists out,
     buildDiffRecords pairs loaded = Some (out, loaded) /\
     forall record, record ∈ out ->
       exists i pair pre d attrs body ws1 ws2 ws3 rest,
         nullish pairs [] !! i = Some pair /\
         sectionText pair = pre ++ wrapperText d attrs body ws1 ws2 ws3 ++ rest /\
         d <> [] /\ isRun isDigit d /\ isRun notGt attrs /\
         ws1 <> [] /\ isRun ws ws1 /\ ws2 <> [] /\ isRun ws ws2 /\ isRun ws ws3 /\
         DiffRecord.sectionIndex record = Z.of_nat i /\
         DiffRecord.oldHeading record = ProcessedSentencePair.oldHeading pair /\
         DiffRecord.newHeading record = ProcessedSentencePair.newHeading pair /\
         DiffRecord.editIndex record = parseInt10 (some d) /\
         DiffRecord.editIndex record ∈ sectionEditIndexes pair /\
         (0 <= DiffRecord.editIndex record)%Z /\
         DiffRecord.segments record = flat_map piece_segments (pieces body)) /\
  option_map (fun r => List.map DiffRecord.editIndex (fst r))
    (buildDiffRecords (some [sectionTwelveOne]) loaded) = Some [1%Z] /\
  option_map (fun r => List.map DiffRecord.editIndex (fst r))
    (buildDiffRecords (some [sectionAbove53]) loaded) = Some [9007199254740992%Z].
Proof.
  split_and!; [|by vm_compute..].
  intros pairs. exists (buildDiffRecords_value pairs).
  split; [by apply buildDiffRecords_run|].
  intros record (i & pair & mt & Hi & Hmt & ->)%buildDiffRecords_value_elem.
  destruct (Scan_elem _ _ _ _ _
              (execAll_Scan _ (sectionText pair) 0 (progressing_global gEditWrapper)) Hmt)
    as (li & He).
  destruct (editWrapper_exec_shape _ _ _ He)
    as (d & attrs & body & ws1 & ws2 & ws3 & Htext & H1 & H2 & Hrest).
  exists i, pair, (take (index mt) (sectionText pair)), d, attrs, body, ws1, ws2, ws3,
    (drop (matchEnd mt) (sectionText pair)).
  unfold recordOf. cbn [DiffRecord.sectionIndex DiffRecord.oldHeading DiffRecord.newHeading
                          DiffRecord.editIndex DiffRecord.segments].
  rewrite H1, H2. cbn [nullish].
  split_and!; try tauto; try done.
  - unfold sectionEditIndexes. apply list_elem_of_fmap. exists mt. by rewrite H1.
  - apply parseInt10_nonneg.
  - apply segmentsOf_pieces.
Qed.

Lemma buildDiffRecords_provenance_witness :
  exists out record i pair d,
    buildDiffRecords (some [sectionFive; sectionTwo]) loaded = Some (out, loaded) /\
    record ∈ out /\
    [sectionFive; sectionTwo] !! i = Some pair /\
    DiffRecord.sectionIndex record = Z.of_nat i /\
    DiffRecord.editIndex record = parseInt10 (some d).
Proof.
  destruct (proj1 buildDiffRecords_provenance (some [sectionFive; sectionTwo]))
    as (out & Hrun & Hall).
  assert (Hin : exists record, record ∈ out).
  { vm_compute in Hrun. injection Hrun as <-. eexists. apply list_elem_of_here. }
  destruct Hin as (record & Hin).
  destruct (Hall record Hin)
    as (i & pair & pre & d & attrs & body & ws1 & ws2 & ws3 & rest & Hi & _ & _ & _ & _ & _
        & _ & _ & _ & _ & Hs & _ & _ & He & _ & _).
  exists out, record, i, pair, d. exact (conj Hrun (conj Hin (conj Hi (conj Hs He)))).
Defined.

(** ** The loop of a pattern of its own *)

Section LoopLocal.
Context {A : Type} (re : RegExp) (s : jsstring).
Context (body : MatchResult -> A -> M A) (f : MatchResult -> A -> A).
Context (I : RegexState -> Prop).
Hypothesis re_progressing : progressing re.
Hypothesis body_f : forall mt acc st, I st -> body mt acc st = Some (f mt acc, st).

Lemma whileExecLocalFuel_fold : forall fuel li acc st,
  I st -> length s - li < fuel ->
  whileExecLocal fuel re s li body acc st =
    Some (foldl (fun a mt => f mt a) acc (execAllFuel fuel re s li), st).
Proof.
  induction fuel as [|fuel IH]; intros li acc st HI Hfuel; [lia|].
  simpl. destruct (exec re s li) as [mr|] eqn:He; [|done].
  unfold bind. rewrite body_f by done. apply IH; [done|].
  destruct (exec_progress _ _ _ _ re_progressing He) as (? & ? & ?). lia.
Qed.

Lemma whileExecLocal_fold acc st :
  I st ->
  whileExecLocal (S (length s)) re s 0 body acc st =
    Some (foldl (fun a mt => f mt a) acc (execAll re s 0), st).
Proof. intros HI. apply whileExecLocalFuel_fold; [done|lia]. Qed.
End LoopLocal.

(** ** [toRenderableSegments] *)

Lemma toRenderableSegments_body_run text mt vars st :
  lastIndex gAddDel st = 0 ->
  toRenderableSegments_body text mt vars st = Some (rendStep text mt vars, st).
Proof.
  intros Ha. destruct vars as [segments li].
  unfold toRenderableSegments_body, rendStep, bind.
  by rewrite toDiffSegments_run, Ha, setLastIndex_same.
Qed.

Lemma rend_fold text ms : forall segs li,
  segFinish text (foldl (fun a mt => rendStep text mt a) (segs, li) ms) =
    segs ++ renderedFrom text li ms.
Proof.
  induction ms as [|mt ms IH]; intros segs li.
  - cbn [foldl segFinish renderedFrom piece_segments].
    destruct (nonBlank _); by rewrite ?app_nil_r.
  - cbn [foldl renderedFrom piece_segments]. unfold rendStep at 2.
    fold (matchEnd mt). rewrite IH.
    assert (Hgap :
      (if li <? index mt
       then if nonBlank (slice text li (index mt))
            then segs ++ [DiffSegment.mk DiffSegment.text (slice text li (index mt))]
            else segs
       else segs) =
      segs ++ (if nonBlank (slice text li (index mt))
               then [DiffSegment.mk DiffSegment.text (slice text li (index mt))]
               else [])).
    { destruct (Nat.ltb_spec li (index mt)) as [Hlt|Hge].
      - destruct (nonBlank _); by rewrite ?app_nil_r.
      - unfold slice. replace (index mt - li) with 0 by lia.
        by rewrite take_0, nonBlank_nil, app_nil_r. }
    rewrite Hgap. by rewrite <- !(assoc_L (++)).
Qed.

Lemma toRenderableSegments_run text st :
  lastIndex gAddDel st = 0 ->
  toRenderableSegments text st =
    Some (renderedFrom text 0 (execAll editWrapperRegex text 0), st).
Proof.
  intros Ha. unfold toRenderableSegments, bind.
  rewrite (whileExecLocal_fold editWrapperRegex text _ (rendStep text)
             (fun st => lastIndex gAddDel st = 0)); auto.
  - pose proof (rend_fold text (execAll editWrapperRegex text 0) [] 0) as H.
    unfold segFinish in H.
    destruct (foldl _ _ _) as [segments li]. by rewrite H.
  - apply (progressing_global gEditWrapper).
  - intros. by apply toRenderableSegments_body_run.
Qed.

Lemma gap_countIn k g :
  k <> DiffSegment.text -> countIn k (piece_segments (Gap g)) = 0.
Proof. intros Hk. simpl. destruct (nonBlank g); [|done]. by destruct k. Qed.

Lemma renderedFrom_wrappers text ms : forall li,
  flat_map (fun mt => segmentsOf (nullish (group mt 2) []) 0) ms
    `sublist_of` renderedFrom text li ms /\
  forall k, k <> DiffSegment.text ->
    countIn k (renderedFrom text li ms) =
    countIn k (flat_map (fun mt => segmentsOf (nullish (group mt 2) []) 0) ms).
Proof.
  induction ms as [|mt ms IH]; intros li; cbn [renderedFrom flat_map].
  - split; [apply sublist_nil_l|]. intros k Hk. by rewrite gap_countIn.
  - destruct (IH (matchEnd mt)) as [Hsub Hcount]. split.
    + apply sublist_inserts_l. by apply sublist_app.
    + intros k Hk. by rewrite !countIn_app, gap_countIn, Hcount.
Qed.

Lemma sectionRecords_segments pair i :
  flat_map DiffRecord.segments (sectionRecords pair i) = wrapperSegments (sectionText pair).
Proof.
  unfold sectionRecords, wrapperSegments.
  induction (execAll editWrapperRegex (sectionText pair) 0) as [|mt ms IH]; simpl; [done|].
  by rewrite IH.
Qed.

(** X11: the section view of a processed text is the text read wrapper by
    wrapper: before each wrapper the text since the wrapper before, as it
    is, as one [text] segment unless it is blank; then the segments of the
    body of the wrapper, those of the record that [buildDiffRecords] makes
    of it; after the last wrapper the rest of the text in the same way.  So
    the view has the segments of the records of the section in the order of
    the wrappers, and no other [add] or [del] segment.  It returns, and
    leaves the module state as it is. *)
Theorem toRenderableSegments_records :
  (forall pair i, exists out,
     toRenderableSegments (sectionText pair) loaded = Some (out, loaded) /\
     out = renderedFrom (sectionText pair) 0
             (execAll editWrapperRegex (sectionText pair) 0) /\
     List.map DiffRecord.segments (sectionRecords pair i) =
       List.map (fun mt => segmentsOf (nullish (group mt 2) []) 0)
         (execAll editWrapperRegex (sectionText pair) 0) /\
     flat_map DiffRecord.segments (sectionRecords pair i) `sublist_of` out /\
     countIn DiffSegment.add out =
       countIn DiffSegment.add (flat_map DiffRecord.segments (sectionRecords pair i)) /\
     countIn DiffSegment.del out =
       countIn DiffSegment.del (flat_map DiffRecord.segments (sectionRecords pair i))) /\
  (forall text li,
     renderedFrom text li [] =
       if nonBlank (drop li text)
       then [DiffSegment.mk DiffSegment.text (drop li text)] else []) /\
  (forall text li mt ms,
     renderedFrom text li (mt :: ms) =
       (if nonBlank (slice text li (index mt))
        then [DiffSegment.mk DiffSegment.text (slice text li (index mt))] else [])
       ++ segmentsOf (nullish (group mt 2) []) 0
       ++ renderedFrom text (matchEnd mt) ms) /\
  toRenderableSegments mixedText loaded =
    Some ([DiffSegment.mk DiffSegment.text (str "x ");
           DiffSegment.mk DiffSegment.text (str "a");
           DiffSegment.mk DiffSegment.add (str "b");
           DiffSegment.mk DiffSegment.text (str " y <del>q</del> ");
           DiffSegment.mk DiffSegment.del (str "c")], loaded).
Proof.
  split_and!; [|done|done|by vm_compute].
  intros pair i. eexists. split; [by apply toRenderableSegments_run|].
  split; [done|]. split.
  { unfold sectionRecords. by rewrite List.map_map. }
  rewrite sectionRecords_segments. unfold wrapperSegments.
  destruct (renderedFrom_wrappers (sectionText pair)
              (execAll editWrapperRegex (sectionText pair) 0) 0) as [Hsub Hcount].
  split_and!; [done|by apply Hcount..].
Qed.

Lemma exec_editWrapper_close text li mt :
  exec editWrapperRegex text li = Some mt ->
  exists pre post, text = pre ++ str "</edit" ++ post.
Proof.
  intros He.
  destruct (exec_progress _ _ _ _ (progressing_global gEditWrapper) He) as (H1 & H2 & H3).
  apply editWrapper_exec in He as (d & attrs & body & ws1 & ws2 & ws3 & Hs & _).
  exists (take (index mt) text ++ str "<edit" ++ ws1 ++ d ++ attrs ++ str ">" ++ body),
    (ws2 ++ d ++ ws3 ++ str ">" ++ drop (matchEnd mt) text).
  rewrite <- (take_drop (index mt) text) at 1.
  rewrite <- (slice_drop text (index mt) (matchEnd mt)) by lia.
  rewrite Hs. unfold wrapperText. by rewrite <- !(assoc_L (++)).
Qed.

(** X12: a processed text without a closing tag [</edit] is shown as one
    [text] segment as it is: [add] and [del] markup outside an edit wrapper
    is not made into segments. *)
Theorem toRenderableSegments_plain text :
  includes text (str "</edit") = false ->
  toRenderableSegments text loaded =
    Some (if nonBlank text then [DiffSegment.mk DiffSegment.text text] else [], loaded).
Proof.
  intros Hno. rewrite toRenderableSegments_run by done.
  destruct (exec editWrapperRegex text 0) as [mt|] eqn:He.
  - apply exec_editWrapper_close in He as (pre & post & E).
    by apply (includes_false _ _ Hno) in E.
  - rewrite (execAll_null _ _ _ He). simpl. by rewrite drop_0.
Qed.

Lemma toRenderableSegments_plain_witness :
  toRenderableSegments (str "a <add>b</add>") loaded =
    Some ([DiffSegment.mk DiffSegment.text (str "a <add>b</add>")], loaded).
Proof.
  exact (toRenderableSegments_plain (str "a <add>b</add>") eq_refl).
Defined.

(** ** The metrics of the route *)

Lemma allSectionRecords_segments pairs : forall i,
  flat_map DiffRecord.segments (allSectionRecords pairs i) =
    flat_map (fun p => wrapperSegments (sectionText p)) pairs.
Proof.
  induction pairs as [|p pairs IH]; intros i; simpl; [done|].
  by rewrite flat_map_app, sectionRecords_segments, IH.
Qed.

Lemma allSectionRecords_length pairs : forall i,
  length (allSectionRecords pairs i) = length (flat_map sectionEditIndexes pairs).
Proof.
  induction pairs as [|p pairs IH]; intros i; simpl; [done|].
  rewrite !length_app, IH. f_equal.
  unfold sectionRecords, sectionEditIndexes. by rewrite length_map, length_fmap.
Qed.

Lemma payloadMetrics_run pairs :
  payloadMetrics (Some pairs) loaded =
    Some (Some (DiffMetrics.mk
                  (countIn DiffSegment.add
                     (flat_map (fun p => wrapperSegments (sectionText p)) pairs))
                  (countIn DiffSegment.del
                     (flat_map (fun p => wrapperSegments (sectionText p)) pairs))
                  (length (flat_map sectionEditIndexes pairs))), loaded).
Proof.
  unfold payloadMetrics, bind. rewrite buildDiffRecords_run by done.
  unfold ret, buildDiffRecords_value. cbn [nullish].
  rewrite (computeDiffMetrics_Permutation _ _ (sort_Permutation byEditIndex _)).
  rewrite computeDiffMetrics_formula. unfold countSegments.
  by rewrite allSectionRecords_segments, allSectionRecords_length.
Qed.

(** X13: the metrics the route puts into the payload count the wrappers of
    all sections as edits, and do not depend on the order of the sections,
    although the records and their [sectionIndex] do. *)
Theorem payloadMetrics_order pairs pairs' :
  pairs ≡ₚ pairs' ->
  exists metrics,
    payloadMetrics (Some pairs) loaded = Some (Some metrics, loaded) /\
    payloadMetrics (Some pairs') loaded = Some (Some metrics, loaded) /\
    DiffMetrics.edits metrics = length (flat_map sectionEditIndexes pairs).
Proof.
  intros Hp. eexists. split; [apply payloadMetrics_run|]. split; [|done].
  rewrite payloadMetrics_run.
  pose proof (flat_map_Permutation (fun p => wrapperSegments (sectionText p)) _ _ Hp) as Hs.
  pose proof (flat_map_Permutation sectionEditIndexes _ _ Hp) as Hl.
  by rewrite (countIn_Permutation _ _ _ Hs), (countIn_Permutation _ _ _ Hs),
    (Permutation_length Hl).
Qed.

Lemma payloadMetrics_order_witness :
  exists metrics,
    payloadMetrics (Some [sectionFive; sectionTwo]) loaded = Some (Some metrics, loaded) /\
    payloadMetrics (Some [sectionTwo; sectionFive]) loaded = Some (Some metrics, loaded) /\
    DiffMetrics.edits metrics = length (flat_map sectionEditIndexes [sectionFive; sectionTwo]).
Proof.
  apply (payloadMetrics_order [sectionFive; sectionTwo] [sectionTwo; sectionFive]).
  apply perm_swap.
Defined.

(** ** The maps of the section viewer *)

Lemma processedMap_from_lookup pairs : forall index mp (k : Z),
  processedMap_from pairs index mp !! k =
    match (if decide (Z.of_nat index <= k)%Z then pairs !! (Z.to_nat k - index) else None) with
    | Some p =>
        if truthy (ProcessedSentencePair.processedSentencePair p)
        then Some (sectionText p) else mp !! k
    | None => mp !! k
    end.
Proof.
  induction pairs as [|p pairs IH]; intros index mp k; simpl.
  - by destruct (decide _).
  - rewrite IH. clear IH.
    destruct (decide (Z.of_nat (S index) <= k)%Z) as [Hk|Hk].
    + rewrite decide_True by lia.
      replace (Z.to_nat k - index) with (S (Z.to_nat k - S index)) by lia. simpl.
      destruct (pairs !! (Z.to_nat k - S index)) as [q|].
      * destruct (truthy (ProcessedSentencePair.processedSentencePair q)); [done|].
        destruct (truthy _); [|done]. rewrite lookup_insert_ne by lia. done.
      * destruct (truthy _); [|done]. rewrite lookup_insert_ne by lia. done.
    + destruct (decide (Z.of_nat index <= k)%Z) as [Hk'|Hk'].
      * assert (k = Z.of_nat index) as -> by lia.
        replace (Z.to_nat (Z.of_nat index) - index) with 0 by lia. simpl.
        destruct (truthy _); [|done]. by rewrite lookup_insert_eq.
      * destruct (truthy _); [|done]. rewrite lookup_insert_ne by lia. done.
Qed.

(** X14: the processed text the section viewer finds for a section index
    is the text of the pair at that position of [processedPairs], when the
    pair has a text that is not empty; there is none for a position outside
    the array, for a pair without text or with an empty one, or when
    [processedPairs] is missing. *)
Theorem processedMap_lookup processedPairs i :
  processedMap processedPairs !! Z.of_nat i =
    match nullish processedPairs [] !! i with
    | Some p =>
        if truthy (ProcessedSentencePair.processedSentencePair p)
        then Some (sectionText p) else None
    | None => None
    end /\
  forall k, (k < 0)%Z -> processedMap processedPairs !! k = None.
Proof.
  unfold processedMap. split.
  - rewrite processedMap_from_lookup. rewrite decide_True by lia.
    replace (Z.to_nat (Z.of_nat i) - 0) with i by lia.
    destruct (_ !! i) as [p|]; [|done]. by destruct (truthy _).
  - intros k Hk. rewrite processedMap_from_lookup. by rewrite decide_False by lia.
Qed.

Lemma fallbackContent_nonempty section : fallbackContent section <> [].
Proof.
  unfold fallbackContent, truthy, falsy.
  destruct (SectionContentRecord.newContent section) as [| |[|x t]],
    (SectionContentRecord.oldContent section) as [| |[|y u]]; done.
Qed.

(** X15: the card of a section always has a body: the segments of the
    processed text or of the related records when there are some, and
    otherwise the new content, the old content or a dash, never an empty
    string. *)
Theorem sectionBody_shown sections diffRecords processedPairs section :
  exists shown,
    sectionBody sections diffRecords processedPairs section loaded = Some (shown, loaded) /\
    match shown with
    | inl segments => segments <> []
    | inr content => content = fallbackContent section /\ content <> []
    end.
Proof.
  unfold sectionBody, combinedSegments, bind.
  set (related := flat_map DiffRecord.segments (relatedRecords sections diffRecords section)).
  assert (forall combined : list DiffSegment.t,
            match (if 0 <? length combined
                   then inl combined else inr (fallbackContent section))
                  : list DiffSegment.t + jsstring with
            | inl segments => segments <> []
            | inr content => content = fallbackContent section /\ content <> []
            end) as Hshown.
  { intros [|x t]; simpl; [|done]. split; [done|apply fallbackContent_nonempty]. }
  destruct (processedMap processedPairs !! SectionContentRecord.index section)
    as [[|x text]|].
  - eexists. split; [reflexivity|apply Hshown].
  - rewrite toRenderableSegments_run by done. eexists. split; [reflexivity|apply Hshown].
  - eexists. split; [reflexivity|apply Hshown].
Qed.

Lemma find_app {A} (f : A -> bool) l1 l2 :
  List.find f (l1 ++ l2) =
    match List.find f l1 with Some x => Some x | None => List.find f l2 end.
Proof.
  induction l1 as [|x l1 IH]; simpl; [done|]. by destruct (f x).
Qed.

Lemma sectionMap_snoc sections section :
  sectionMap (sections ++ [section]) =
    <[SectionContentRecord.index section := section]> (sectionMap sections).
Proof. unfold sectionMap. by rewrite foldl_app. Qed.

(** X16: the section of an index in the section map is the last section of
    the array with that index: on a repeated index the later section
    replaces the earlier one, and an index that no section has is not in
    the map. *)
Theorem sectionMap_last sections k :
  sectionMap sections !! k =
    List.find (fun section => (SectionContentRecord.index section =? k)%Z) (rev sections).
Proof.
  induction sections as [|section sections IH] using rev_ind; [done|].
  rewrite sectionMap_snoc, rev_app_distr. simpl.
  destruct (Z.eqb_spec (SectionContentRecord.index section) k) as [->|Hne].
  - by rewrite lookup_insert_eq.
  - by rewrite lookup_insert_ne.
Qed.

Lemma sectionMap_positions sections :
  (forall j section, sections !! j = Some section ->
                     SectionContentRecord.index section = Z.of_nat j) ->
  forall i, sectionMap sections !! Z.of_nat i = sections !! i.
Proof.
  induction sections as [|section sections IH] using rev_ind; intros Hpos i; [done|].
  rewrite sectionMap_snoc.
  assert (SectionContentRecord.index section = Z.of_nat (length sections)) as Hidx.
  { apply Hpos. by rewrite lookup_app_r, Nat.sub_diag. }
  destruct (decide (i = length sections)) as [->|Hne].
  - rewrite Hidx, lookup_insert_eq. by rewrite lookup_app_r, Nat.sub_diag.
  - rewrite lookup_insert_ne by lia. rewrite IH.
    + destruct (decide (i < length sections)) as [Hlt|Hge].
      * by rewrite lookup_app_l.
      * rewrite lookup_ge_None_2 by lia. symmetry. apply lookup_ge_None_2.
        rewrite length_app. simpl. lia.
    + intros j s Hj. apply Hpos. rewrite lookup_app_l; [done|]. by eapply lookup_lt_Some.
Qed.

(** X17: the sections the route makes of the JSON array are numbered by
    their position, as many as the entries; so the section map of the
    viewer gives for an index the section at that position. *)
Theorem normalizeSentencePairs_positions raw i :
  length (normalizeSentencePairs raw) = length raw /\
  SectionContentRecord.index <$> normalizeSentencePairs raw !! i =
    (fun _ => Z.of_nat i) <$> raw !! i /\
  sectionMap (normalizeSentencePairs raw) !! Z.of_nat i = normalizeSentencePairs raw !! i.
Proof.
  unfold normalizeSentencePairs. split_and!.
  - apply length_imap.
  - rewrite list_lookup_imap. by destruct (raw !! i).
  - apply sectionMap_positions. intros j section.
    rewrite list_lookup_imap. destruct (raw !! j); intros; by simplify_eq/=.
Qed.

(** ** The record map of the edit cards *)

Lemma recordMap_fold records : forall (mp : gmap Z (list DiffRecord.t)) k,
  foldl (fun mp record =>
           let current := default [] (mp !! DiffRecord.editIndex record) in
           <[DiffRecord.editIndex record := current ++ [record]]> mp) mp records !! k =
    match mp !! k, withEditIndex k records with
    | None, [] => None
    | o, l => Some (default [] o ++ l)
    end.
Proof.
  induction records as [|r records IH]; intros mp k; simpl.
  - destruct (mp !! k); simpl; by rewrite ?app_nil_r.
  - rewrite IH. unfold withEditIndex. simpl.
    destruct (Z.eqb_spec (DiffRecord.editIndex r) k) as [->|Hne].
    + rewrite lookup_insert_eq.
      destruct (mp !! k); simpl; by rewrite <- ?(assoc_L (++)).
    + rewrite lookup_insert_ne by done. done.
Qed.

(** X18: the records of an edit card are the records with the index of the
    item, in the order of [diffRecords]; none when no record has the index
    or when [diffRecords] is missing. *)
Theorem recordMap_lookup diffRecords item :
  recordsOfItem diffRecords item =
    withEditIndex (Stage1Item.index item) (nullish diffRecords []) /\
  (recordMap diffRecords !! Stage1Item.index item = None <->
   withEditIndex (Stage1Item.index item) (nullish diffRecords []) = []).
Proof.
  unfold recordsOfItem, recordMap. rewrite recordMap_fold, lookup_empty.
  destruct (withEditIndex _ _); simpl; split; try done.
Qed.

Lemma withEditIndex_app k l1 l2 :
  withEditIndex k (l1 ++ l2) = withEditIndex k l1 ++ withEditIndex k l2.
Proof. apply List.filter_app. Qed.

Lemma withEditIndex_section_nil k pair i :
  k ∉ sectionEditIndexes pair -> withEditIndex k (sectionRecords pair i) = [].
Proof.
  unfold sectionEditIndexes, sectionRecords, withEditIndex.
  induction (execAll editWrapperRegex (sectionText pair) 0) as [|mt ms IH]; simpl; [done|].
  intros Hk. apply not_elem_of_cons in Hk as [Hne Hk].
  destruct (Z.eqb_spec (parseInt10 (group mt 1)) k) as [E|_]; [by rewrite E in Hne|].
  by apply IH.
Qed.

Lemma withEditIndex_section_head k pair i :
  k ∈ sectionEditIndexes pair ->
  exists record rest,
    withEditIndex k (sectionRecords pair i) = record :: rest /\
    DiffRecord.sectionIndex record = Z.of_nat i.
Proof.
  unfold sectionEditIndexes, sectionRecords, withEditIndex.
  induction (execAll editWrapperRegex (sectionText pair) 0) as [|mt ms IH]; simpl.
  - by intros ?%elem_of_nil.
  - intros Hk. destruct (Z.eqb_spec (parseInt10 (group mt 1)) k) as [E|Hne].
    + by eexists _, _.
    + apply elem_of_cons in Hk as [Hk|Hk]; [by rewrite Hk in Hne|]. by apply IH.
Qed.

Lemma withEditIndex_first k pairs : forall n i pair,
  pairs !! i = Some pair ->
  k ∈ sectionEditIndexes pair ->
  (forall j p, j < i -> pairs !! j = Some p -> k ∉ sectionEditIndexes p) ->
  exists record rest,
    withEditIndex k (allSectionRecords pairs n) = record :: rest /\
    DiffRecord.sectionIndex record = Z.of_nat (n + i).
Proof.
  induction pairs as [|p pairs IH]; intros n i pair Hi Hk Hbefore; [done|].
  simpl. rewrite withEditIndex_app. destruct i as [|i]; simplify_eq/=.
  - destruct (withEditIndex_section_head _ _ n Hk) as (record & rest & -> & Hs).
    exists record, (rest ++ withEditIndex k (allSectionRecords pairs (S n))).
    split; [done|]. by rewrite Nat.add_0_r.
  - rewrite withEditIndex_section_nil by (apply (Hbefore 0); [lia|done]). simpl.
    destruct (IH (S n) i pair Hi Hk) as (record & rest & -> & Hs).
    + intros j q Hj Hq. apply (Hbefore (S j)); [lia|done].
    + exists record, rest. split; [done|]. rewrite Hs. f_equal. lia.
Qed.

(** X19: with the records of [buildDiffRecords], the section an edit card
    links to is the first section of [pairs] that has a wrapper with the
    index of the item, the indices being the Numbers [Number.parseInt]
    returns: the card of the item 9007199254740992 links to a section
    whose token is 9007199254740993 when that section comes first. *)
Theorem primarySectionIndex_first :
  (forall pairs sectionContents item i pair,
     pairs !! i = Some pair ->
     Stage1Item.index item ∈ sectionEditIndexes pair ->
     (forall j p, j < i -> pairs !! j = Some p ->
                  Stage1Item.index item ∉ sectionEditIndexes p) ->
     exists out,
       buildDiffRecords (some pairs) loaded = Some (out, loaded) /\
       primarySectionIndex (some out) sectionContents item = Z.of_nat i) /\
  sectionEditIndexes sectionAbove53 = [9007199254740992%Z] /\
  option_map
    (fun r => primarySectionIndex (some (fst r)) undefined
                (Stage1Item.mk 9007199254740992 [] []))
    (buildDiffRecords (some [sectionAbove53; sectionAt53]) loaded) = Some 0%Z.
Proof.
  split_and!; [|by vm_compute..].
  intros pairs sectionContents item i pair Hi Hk Hbefore.
  exists (buildDiffRecords_value (some pairs)).
  split; [by apply buildDiffRecords_run|].
  unfold primarySectionIndex, recordsOfItem, recordMap.
  rewrite recordMap_fold, lookup_empty. cbn [nullish].
  unfold buildDiffRecords_value. rewrite sort_stable. cbn [nullish].
  destruct (withEditIndex_first _ _ 0 _ _ Hi Hk Hbefore) as (record & rest & -> & Hs).
  by simpl.
Qed.

Lemma primarySectionIndex_first_witness :
  exists out,
    buildDiffRecords (some [sectionFive; sectionTwo]) loaded = Some (out, loaded) /\
    primarySectionIndex (some out) undefined (Stage1Item.mk 2 [] []) = Z.of_nat 1.
Proof.
  apply (proj1 primarySectionIndex_first [sectionFive; sectionTwo] undefined
           (Stage1Item.mk 2 [] []) 1 sectionTwo).
  - reflexivity.
  - vm_compute. apply list_elem_of_here.
  - intros [|j] p Hj Hp; [|lia]. simplify_eq/=. vm_compute.
    intros H. apply list_elem_of_In in H. simpl in H. by destruct H as [H|[]].
Defined.

(** X20: an item without a record links to the first section of
    [sectionContents], and to section 0 when there is no section. *)
Theorem primarySectionIndex_fallback diffRecords sectionContents item :
  withEditIndex (Stage1Item.index item) (nullish diffRecords []) = [] ->
  primarySectionIndex diffRecords sectionContents item =
    match sectionContents with
    | some (section :: _) => SectionContentRecord.index section
    | _ => 0%Z
    end.
Proof.
  intros Hnone. unfold primarySectionIndex, recordsOfItem, recordMap.
  by rewrite recordMap_fold, lookup_empty, Hnone.
Qed.

Lemma primarySectionIndex_fallback_witness :
  primarySectionIndex (some [bareRecord]) (some [chapterTwoSection]) (Stage1Item.mk 9 [] [])
  = 3%Z.
Proof.
  exact (primarySectionIndex_fallback (some [bareRecord]) (some [chapterTwoSection])
           (Stage1Item.mk 9 [] []) eq_refl).
Defined.

(** ** The lines of a segment *)

Lemma splitLines_spec s : forall b cur,
  Forall (fun x => isNewline x = false) cur ->
  Forall (Forall (fun x => isNewline x = false)) (splitLines b cur s) /\
  concat (splitLines b cur s) = cur ++ List.filter (fun x => negb (isNewline x)) s /\
  0 < length (splitLines b cur s).
Proof.
  induction s as [|x s IH]; intros b cur Hcur; simpl.
  - split_and!; [by constructor|by rewrite !app_nil_r|lia].
  - destruct (isNewline x) eqn:Hx; simpl.
    + destruct b.
      * by apply IH.
      * destruct (IH true [] (Forall_nil_2 _)) as (H1 & H2 & H3).
        split_and!; [by constructor|simpl; by rewrite H2|simpl; lia].
    + destruct (IH false (cur ++ [x])) as (H1 & H2 & H3).
      { apply Forall_app. split; [done|]. by constructor. }
      split_and!; [done| |done]. by rewrite H2, <- (assoc_L (++)).
Qed.

(** X21: the lines a viewer renders for a segment have no line break in
    them, together they are the content without its line breaks, there is
    at least one, and a [<br />] follows every line but the last. *)
Theorem renderLines_lines content :
  Forall (fun line => Forall (fun x => isNewline x = false) (fst line)) (renderLines content) /\
  concat (fst <$> renderLines content) = List.filter (fun x => negb (isNewline x)) content /\
  0 < length (renderLines content) /\
  forall i line br,
    renderLines content !! i = Some (line, br) ->
    br = bool_decide (S i < length (renderLines content)).
Proof.
  destruct (splitLines_spec content false [] (Forall_nil_2 _)) as (H1 & H2 & H3).
  unfold renderLines.
  assert (fst <$> imap (fun idx line => (line, idx <? length (splitLines false [] content) - 1))
                    (splitLines false [] content) = splitLines false [] content) as Hfst.
  { apply list_eq. intros i. rewrite list_lookup_fmap, list_lookup_imap.
    by destruct (_ !! i). }
  split_and!.
  - apply Forall_lookup_2. intros i [line br]. rewrite list_lookup_imap.
    destruct (_ !! i) eqn:Hi; intros; simplify_eq/=.
    by apply (Forall_lookup_1 _ _ _ _ H1 Hi).
  - by rewrite Hfst.
  - by rewrite length_imap.
  - intros i line br. rewrite list_lookup_imap, length_imap.
    destruct (_ !! i) eqn:Hi; intros; simplify_eq/=.
    destruct (Nat.ltb_spec i (length (splitLines false [] content) - 1)).
    + by rewrite bool_decide_eq_true_2 by lia.
    + by rewrite bool_decide_eq_false_2 by lia.
Qed.

(** ** The state of the hook *)

Lemma after_snoc {P} (events : list (Runner.event P)) e :
  Runner.after (events ++ [e]) = Runner.step (Runner.after events) e.
Proof. unfold Runner.after. by rewrite foldl_app. Qed.

Lemma sequential_error {P} (events : list (Runner.event P)) : forall st b,
  (b = true -> Runner.error st = None) ->
  (Runner.status st = RunnerStatus.success -> Runner.error st = None) ->
  sequential b events = true ->
  Runner.status (foldl Runner.step st events) = RunnerStatus.success ->
  Runner.error (foldl Runner.step st events) = None.
Proof.
  induction events as [|e events IH]; intros st b Hb Hs Hseq; simpl; [done|].
  destruct e; simpl in Hseq; apply andb_prop in Hseq as [Hf Hseq];
    apply (IH _ _) with (3 := Hseq); simpl; try done.
  intros _. apply Hb. by destruct b.
Qed.

(** X22: whatever the order of the runs and resets of the hook, a status
    [success] comes with a result, a status [error] with a message, a
    status [idle] with neither and a status [running] without a message;
    when the runs do not overlap, a status [success] comes without a
    message as well. *)
Theorem runner_invariants {P} (events : list (Runner.event P)) :
  (Runner.status (Runner.after events) = RunnerStatus.success ->
   is_Some (Runner.result (Runner.after events))) /\
  (Runner.status (Runner.after events) = RunnerStatus.error ->
   is_Some (Runner.error (Runner.after events))) /\
  (Runner.status (Runner.after events) = RunnerStatus.idle ->
   Runner.result (Runner.after events) = None /\
   Runner.error (Runner.after events) = None) /\
  (Runner.status (Runner.after events) = RunnerStatus.running ->
   Runner.error (Runner.after events) = None) /\
  (sequential false events = true ->
   Runner.status (Runner.after events) = RunnerStatus.success ->
   Runner.error (Runner.after events) = None).
Proof.
  split_and!.
  - destruct events as [|e events _] using rev_ind; [done|].
    rewrite after_snoc. by destruct e.
  - destruct events as [|e events _] using rev_ind; [done|].
    rewrite after_snoc. by destruct e.
  - destruct events as [|e events _] using rev_ind; [done|].
    rewrite after_snoc. by destruct e.
  - destruct events as [|e events _] using rev_ind; [done|].
    rewrite after_snoc. by destruct e.
  - apply sequential_error; done.
Qed.

Lemma runner_invariants_witness :
  Runner.error
    (Runner.after [Runner.RunStart; Runner.RunFailed (str "HTTP 500");
                   Runner.RunStart; Runner.RunDone 7]) = None.
Proof.
  apply (runner_invariants
           [Runner.RunStart; Runner.RunFailed (str "HTTP 500");
            Runner.RunStart; Runner.RunDone 7]); reflexivity.
Defined.

(** ** Downstream of the normalizers *)

Lemma lookup_map {A B} (f : A -> B) l : forall i, List.map f l !! i = f <$> l !! i.
Proof. induction l as [|x l IH]; intros [|i]; simpl; auto. Qed.

Lemma orNull_defined a b : orNull a b <> undefined.
Proof. unfold orNull. by destruct a, b. Qed.

(** X23: of the pairs the route makes of the JSON array, the records never
    have an [undefined] heading and have a [sectionIndex] that is a position
    of the array; and the processed text of a position is the value of the
    camelCase key when that is a string, of the snake_case key otherwise,
    when it is not empty. *)
Theorem normalizeProcessedPairs_records raw :
  exists out,
    buildDiffRecords (some (normalizeProcessedPairs raw)) loaded = Some (out, loaded) /\
    (forall record, record ∈ out ->
       DiffRecord.oldHeading record <> undefined /\
       DiffRecord.newHeading record <> undefined /\
       (0 <= DiffRecord.sectionIndex record < Z.of_nat (length raw))%Z) /\
    (forall i,
       processedMap (some (normalizeProcessedPairs raw)) !! Z.of_nat i =
         match raw !! i with
         | Some r =>
             match nullish_or (RawPair.processedSentencePair r)
                     (RawPair.processed_sentence_pair r) with
             | some ((_ :: _) as text) => Some text
             | _ => None
             end
         | None => None
         end).
Proof.
  exists (buildDiffRecords_value (some (normalizeProcessedPairs raw))).
  split; [by apply buildDiffRecords_run|]. split.
  - intros record (i & pair & mt & Hi & Hmt & ->)%buildDiffRecords_value_elem.
    cbn [nullish] in Hi. unfold normalizeProcessedPairs in Hi.
    apply lookup_lt_Some in Hi as Hlt. rewrite length_map in Hlt.
    rewrite lookup_map in Hi. destruct (raw !! i) as [r|]; simplify_eq/=.
    split_and!; [apply orNull_defined..|lia|lia].
  - intros i. unfold processedMap. rewrite processedMap_from_lookup.
    rewrite decide_True by lia. replace (Z.to_nat (Z.of_nat i) - 0) with i by lia.
    cbn [nullish]. unfold normalizeProcessedPairs.
    rewrite lookup_map.
    destruct (raw !! i) as [r|]; simpl; [|done].
    unfold sectionText, truthy, falsy. simpl.
    by destruct (nullish_or _ _) as [| |[|x t]].
Qed.

(** ** The related edits of a cluster *)

Lemma includes_true s t pre post : s = pre ++ t ++ post -> includes s t = true.
Proof.
  intros E. destruct (includes s t) eqn:H; [done|].
  by apply (includes_false _ _ H) in E.
Qed.

Lemma includes_inv s t : includes s t = true -> exists pre post, s = pre ++ t ++ post.
Proof.
  induction s as [|x s IH]; simpl.
  - destruct (strip_prefix t []) as [r|] eqn:E; [|done].
    apply strip_prefix_Some in E. intros _. by exists [], r.
  - destruct (strip_prefix t (x :: s)) as [r|] eqn:E.
    + apply strip_prefix_Some in E. intros _. by exists [], r.
    + intros (pre & post & ->)%IH. by exists (x :: pre), post.
Qed.

(** A line of [split(/\n+/)] is a part of the string. *)
Lemma splitLines_infix s : forall b cur line,
  (b = true -> cur = []) ->
  line ∈ splitLines b cur s -> exists pre post, cur ++ s = pre ++ line ++ post.
Proof.
  induction s as [|x s IH]; intros b cur line Hb; simpl.
  - intros ->%list_elem_of_singleton. exists [], []. by rewrite !app_nil_r.
  - destruct (isNewline x).
    + destruct b.
      * rewrite (Hb eq_refl). intros (pre & post & E)%IH; [|done].
        simpl in E. exists (x :: pre), post. simpl. by rewrite E.
      * intros [->|Hl]%elem_of_cons.
        -- by exists [], (x :: s).
        -- apply IH in Hl as (pre & post & E); [|done]. simpl in E.
           exists (cur ++ x :: pre), post. rewrite E. by rewrite <- !(assoc_L (++)).
    + intros (pre & post & E)%IH; [|done].
      exists pre, post. rewrite <- E. by rewrite <- (assoc_L (++)).
Qed.

Lemma relatedLine_none body :
  includes body relatedMarker = false ->
  List.find (fun line => includes line relatedMarker) (splitLines false [] body) = None.
Proof.
  intros Hno. destruct (List.find _ _) as [line|] eqn:Hf; [|done].
  apply find_some in Hf as [Hin Hinc]. apply list_elem_of_In in Hin.
  apply splitLines_infix in Hin as (pre & post & E); [|done]. simpl in E.
  apply includes_inv in Hinc as (a & b & ->).
  rewrite (includes_true body relatedMarker (pre ++ a) (b ++ post)) in Hno; [done|].
  rewrite E. by rewrite <- !(assoc_L (++)).
Qed.

Lemma exec_block_body kind raw li mt :
  exec (blockRegex kind) raw li = Some mt ->
  exists pre post, raw = pre ++ nullish (group mt 2) [] ++ post.
Proof.
  intros He.
  destruct (exec_progress _ _ _ _ (progressing_block kind) He) as (H1 & H2 & H3).
  apply block_exec in He as (d & body & ws1 & ws2 & ws3 & ws4 & ws5 & Hs & _ & -> & _).
  exists (take (index mt) raw ++ (str "<" ++ kind) ++ ws1 ++ d ++ ws2 ++ str "Desc>" ++ ws3),
    (closeTag kind d ws4 ws5 ++ drop (matchEnd mt) raw).
  rewrite <- (take_drop (index mt) raw) at 1.
  rewrite <- (slice_drop raw (index mt) (matchEnd mt)) by lia.
  rewrite Hs. unfold blockText, closeTag. cbn [nullish]. by rewrite <- !(assoc_L (++)).
Qed.

(** X24: a Stage 2 text without the marker of the related edits gives
    clusters without related edits, whatever numbers it has. *)
Theorem relatedEdits_none raw :
  includes (nullish raw []) relatedMarker = false ->
  exists clusters,
    parseStage2 raw loaded = Some (clusters, loaded) /\
    Forall (fun cluster => Stage2Cluster.relatedEdits cluster = []) clusters.
Proof.
  intros Hno. exists (parseStage2_value raw 0). split; [apply parseStage2_loaded|].
  unfold parseStage2_value. destruct (falsy raw); [constructor|].
  apply Forall_forall. intros cluster Hc.
  apply list_elem_of_In, in_map_iff in Hc as (mt & <- & Hmt). apply list_elem_of_In in Hmt.
  pose proof (execAll_Scan clusterBlockRegex (nullish raw []) 0
                (progressing_block (str "Cluster"))) as Hscan.
  destruct (Scan_elem _ _ _ _ _ Hscan Hmt) as (li & He).
  apply (exec_block_body (str "Cluster")) in He as (pre & post & E).
  unfold stage2ClusterOf. cbn [Stage2Cluster.relatedEdits].
  rewrite relatedLine_none; [done|].
  destruct (includes (nullish (group mt 2) []) relatedMarker) eqn:Hb; [|done].
  apply includes_inv in Hb as (a & b & Hb).
  rewrite (includes_true _ relatedMarker (pre ++ a) (b ++ post)) in Hno; [done|].
  rewrite E, Hb. by rewrite <- !(assoc_L (++)).
Qed.

Lemma relatedEdits_none_witness :
  exists clusters,
    parseStage2 (some (str "<Cluster 1 Desc>edits 3, 4</Cluster 1 Desc>")) loaded
      = Some (clusters, loaded) /\
    Forall (fun cluster => Stage2Cluster.relatedEdits cluster = []) clusters.
Proof.
  exact (relatedEdits_none (some (str "<Cluster 1 Desc>edits 3, 4</Cluster 1 Desc>")) eq_refl).
Defined.

(** ** The segments of a section card *)

Lemma sublist_flat_map {A B} (f : A -> list B) x l :
  x ∈ l -> f x `sublist_of` flat_map f l.
Proof.
  induction l as [|y l IH]; simpl.
  - by intros ?%elem_of_nil.
  - intros [->|Hx]%elem_of_cons.
    + by apply sublist_inserts_r.
    + apply sublist_inserts_l. by apply IH.
Qed.

(** X25: with the records [buildDiffRecords] makes of [processedPairs], the
    card of a section has the segments of each of its related records, in
    their order, whether it shows the processed text of the section or the
    records themselves. *)
Theorem combinedSegments_related pairs sections section :
  exists out combined,
    buildDiffRecords (some pairs) loaded = Some (out, loaded) /\
    combinedSegments sections (some out) (some pairs) section loaded =
      Some (combined, loaded) /\
    forall record, record ∈ relatedRecords sections (some out) section ->
      DiffRecord.segments record `sublist_of` combined.
Proof.
  exists (buildDiffRecords_value (some pairs)).
  unfold combinedSegments.
  destruct (processedMap (some pairs) !! SectionContentRecord.index section)
    as [[|x text]|] eqn:Hmap.
  - eexists. split; [by apply buildDiffRecords_run|]. split; [reflexivity|].
    intros record Hr. by apply sublist_flat_map.
  - eexists. split; [by apply buildDiffRecords_run|].
    split; [by apply toRenderableSegments_run|].
    intros record Hr. unfold relatedRecords in Hr.
    apply list_elem_of_In, List.filter_In in Hr as [Hr Hsec].
    apply Z.eqb_eq in Hsec. unfold filteredDiffRecords in Hr.
    apply List.filter_In in Hr as [Hr _]. apply list_elem_of_In in Hr.
    apply buildDiffRecords_value_elem in Hr as (i & pair & mt & Hi & Hmt & ->).
    cbn [nullish] in Hi. simpl in Hsec. rewrite <- Hsec in Hmap.
    unfold processedMap in Hmap. rewrite processedMap_from_lookup in Hmap.
    rewrite decide_True in Hmap by lia.
    replace (Z.to_nat (Z.of_nat i) - 0) with i in Hmap by lia.
    cbn [nullish] in Hmap. rewrite Hi in Hmap.
    destruct (truthy _); [|by rewrite lookup_empty in Hmap].
    injection Hmap as Htext. rewrite <- Htext. simpl.
    etrans; [|apply renderedFrom_wrappers].
    by apply (sublist_flat_map (fun mt => segmentsOf (nullish (group mt 2) []) 0)).
  - eexists. split; [by apply buildDiffRecords_run|]. split; [reflexivity|].
    intros record Hr. by apply sublist_flat_map.
Qed.

(** ** Every wrapper is read *)

Lemma wrapper_Matches d attrs body ws1 ws2 ws3 tail :
  d <> [] -> isRun isDigit d -> isRun notGt attrs ->
  ws1 <> [] -> isRun ws ws1 -> ws2 <> [] -> isRun ws ws2 -> isRun ws ws3 ->
  Matches (pattern editWrapperRegex) (replicate 3 None)
    (wrapperText d attrs body ws1 ws2 ws3) tail [None; Some d; Some body].
Proof.
  intros. unfold editWrapperRegex, wrapperText. cbn [pattern replicate].
  eapply MSeq; [apply MStr|]. eapply MSeq; [by apply MPlus|].
  eapply MSeq; [by apply (MGroup 1), MPlus|]. eapply MSeq; [by apply MStar|].
  eapply MSeq; [apply MStr|].
  eapply MSeq; [apply (MGroup 2), (MStar false); by apply Forall_forall|].
  eapply MSeq; [apply MStr|]. eapply MSeq; [by apply MPlus|].
  eapply MSeq; [by apply MBackref|]. eapply MSeq; [by apply MStar|apply MStr].
Qed.

(** X26: no edit wrapper of a section is passed over: where the text of a
    section has a wrapper with the same index in both tags, the loop of
    [buildDiffRecords] has a match that covers the start of the wrapper,
    and the section has the record of that match. *)
Theorem wrapper_covered pair i pre d attrs body ws1 ws2 ws3 rest :
  sectionText pair = pre ++ wrapperText d attrs body ws1 ws2 ws3 ++ rest ->
  d <> [] -> isRun isDigit d -> isRun notGt attrs ->
  ws1 <> [] -> isRun ws ws1 -> ws2 <> [] -> isRun ws ws2 -> isRun ws ws3 ->
  exists mt,
    mt ∈ execAll editWrapperRegex (sectionText pair) 0 /\
    index mt <= length pre < matchEnd mt /\
    recordOf pair i mt ∈ sectionRecords pair i.
Proof.
  intros E Hd Hd' Hattrs H1 H1' H2 H2' H3.
  destruct (Scan_covers editWrapperRegex (sectionText pair) 0
              (execAll editWrapperRegex (sectionText pair) 0) (length pre))
    as (mt & Hmt & Hcover).
  - apply (progressing_global gEditWrapper).
  - apply execAll_Scan, (progressing_global gEditWrapper).
  - rewrite E, length_app. lia.
  - rewrite E, drop_app_length.
    apply (matchAt_complete editWrapperRegex _ _ [None; Some d; Some body]); [|done].
    by apply wrapper_Matches.
  - exists mt. split_and!; [done|lia|lia|].
    unfold sectionRecords. apply list_elem_of_In, in_map. by apply list_elem_of_In.
Qed.

Lemma wrapper_covered_witness :
  exists mt,
    mt ∈ execAll editWrapperRegex (sectionText insertedSection) 0 /\
    index mt <= length (@nil N) < matchEnd mt /\
    recordOf insertedSection 0 mt ∈ sectionRecords insertedSection 0.
Proof.
  apply (wrapper_covered insertedSection 0 [] (str "1") [] (str "<add>X</add>")
           (str " ") (str " ") [] []).
  - reflexivity.
  - done.
  - by repeat constructor.
  - constructor.
  - done.
  - by repeat constructor.
  - done.
  - by repeat constructor.
  - constructor.
Defined.
